(** * sngc: the PPNG/SNG text-to-PNG compiler (src/sngc.c)

    A shallow embedding of the compiler of src/sngc.c: its tokenizer, the
    numeric validators, the data collector, the chunk compilers and the
    dispatcher loop of [pngc], followed by theorems about them.

    Conventions of the embedding.
    - The input stream [yyin] is the string of characters not yet read;
      [fgetc] takes its first character, [ungetc] puts one back, and the
      empty string is end of file.
    - The program keeps its state in globals.  They are gathered in the
      record [world], threaded through a state-and-error monad [M].
    - [fatal] never returns to its caller (it leaves through [longjmp]);
      it is the outcome [Fatal], which keeps the line number and the text
      of the message.
    - A store outside an array is undefined behaviour in C; it is the
      outcome [Undefined].
    - libc and libpng are not part of the program.  The character classes
      are those of the "C" locale, [strtoul] follows the C standard for
      base 0, a [double] is a binary64 float and a [float] a binary32
      float, [strtod] and the contents of uninitialised storage are left
      to a [Platform], and the calls into libpng are recorded, in order,
      in [png_calls]; libpng is taken to return normally from each.
    - [malloc] is taken to serve the one quantum of 1024 bytes that
      [collect_data] asks for.  Whether it serves the request of
      [compile_IMAGE], whose size comes from the input, is left to the
      [Platform]; when it does not, [xalloc] ends in [fatal].
    - The target is ILP32: [int], [unsigned long], [png_uint_32] and the
      pointers have 32 bits, as in the libpng of the time ([typedef
      unsigned long png_uint_32]). *)

From Stdlib Require Import ZArith Ascii String Bool Lia ZifyNat DecimalString.
From Stdlib Require Import PrimFloat Uint63 SpecFloat FloatOps.
From Stdlib Require Import DecimalFacts DecimalPos DecimalN Sorted.
From stdpp Require Import base list strings.

Local Open Scope Z_scope.

(** ** <ctype.h> in the "C" locale *)

Module Ctype.

Definition code (c : ascii) : Z := Z.of_N (N_of_ascii c).

Definition between (lo hi : Z) (c : ascii) : bool :=
  (lo <=? code c) && (code c <=? hi).

Definition isspace (c : ascii) : bool := (code c =? 32) || between 9 13 c.
Definition isdigit (c : ascii) : bool := between 48 57 c.
Definition isupper (c : ascii) : bool := between 65 90 c.
Definition islower (c : ascii) : bool := between 97 122 c.
Definition isalpha (c : ascii) : bool := isupper c || islower c.
Definition isxdigit (c : ascii) : bool :=
  isdigit c || between 65 70 c || between 97 102 c.
Definition ispunct (c : ascii) : bool :=
  between 33 47 c || between 58 64 c || between 91 96 c || between 123 126 c.

End Ctype.
Import Ctype.

(** ** Machine integers (ILP32) *)

Definition ULONG_MAX : Z := 4294967295.

(** Conversion to a 32-bit unsigned type. *)
Definition u32 (z : Z) : Z := z mod 4294967296.

(** Conversion to [unsigned char] / [png_byte]. *)
Definition u8 (z : Z) : Z := z mod 256.

(** ** strtoul(nptr, &endptr, 0)

    The C standard's [strtoul] for base 0: leading white space, an optional
    sign, the prefix that selects the base (0x or 0X: 16, 0: 8, otherwise
    10), then the longest run of digits of that base.  The result is the
    value and the unread rest ([endptr]).  Without any digit the rest is
    the whole of [nptr] and the value 0; a value above [ULONG_MAX] gives
    [ULONG_MAX]; a minus sign negates in the unsigned type. *)

Module Libc.

Definition digit_value (c : ascii) : option Z :=
  if isdigit c then Some (code c - 48)
  else if isupper c then Some (code c - 65 + 10)
  else if islower c then Some (code c - 97 + 10)
  else None.

(** The digits of [base] at the head of [s]: accumulated value, number of
    digits read, and the rest. *)
Fixpoint digits (base acc : Z) (n : nat) (s : string) : Z * nat * string :=
  match s with
  | String c r =>
      match digit_value c with
      | Some d => if d <? base then digits base (acc * base + d) (S n) r
                  else (acc, n, s)
      | None => (acc, n, s)
      end
  | EmptyString => (acc, n, s)
  end.

Fixpoint skip_space (s : string) : string :=
  match s with
  | String c r => if isspace c then skip_space r else s
  | EmptyString => s
  end.

Definition is_x (c : ascii) : bool := (code c =? 120) || (code c =? 88).

Definition starts_hex (s : string) : bool :=
  match s with
  | String z (String x (String h _)) =>
      (code z =? 48) && is_x x
      && match digit_value h with Some d => d <? 16 | None => false end
  | _ => false
  end.

Definition starts_zero (s : string) : bool :=
  match s with
  | String z _ => code z =? 48
  | EmptyString => false
  end.

Definition strtoul (nptr : string) : Z * string :=
  let s := skip_space nptr in
  let '(neg, s) :=
    match s with
    | String c r =>
        if code c =? 45 then (true, r)
        else if code c =? 43 then (false, r)
        else (false, s)
    | EmptyString => (false, s)
    end in
  let '(base, s) :=
    if starts_hex s then (16, String.substring 2 (String.length s - 2) s)
    else if starts_zero s then (8, s)
    else (10, s) in
  let '(v, n, rest) := digits base 0 0%nat s in
  match n with
  | O => (0, nptr)
  | S _ =>
      if ULONG_MAX <? v then (ULONG_MAX, rest)
      else if neg then (u32 (- v), rest)
      else (v, rest)
  end.

End Libc.
Import Libc.

(** ** The platform: what the C standard and libc leave open *)

(** A C [double]: an IEEE 754 binary64 number. *)
Definition double : Type := PrimFloat.float.

(** The test [result < 0] on a double. *)
Definition double_negative (d : double) : bool := PrimFloat.ltb d PrimFloat.zero.

Definition double_zero : double := PrimFloat.zero.

(** A C [float]: an IEEE 754 binary32 number, kept as the binary64 number
    of the same value. *)
Definition single : Type := PrimFloat.float.

(** The conversion of a [double] to [float], as an assignment to a
    [float] object makes it: to the nearest binary32 number, ties to
    even; a value beyond the largest one becomes an infinity. *)
Definition to_single (d : double) : single :=
  match Prim2SF d with
  | S754_finite s m e => SF2Prim (binary_round 24 128 s m e)
  | _ => d
  end.

Class Platform := {
  (** [strtod]: the value read and the unread rest *)
  strtod : string -> double * string;
  (** the byte found at an offset of the n-th block returned by [malloc]
      or [realloc], before the program stores there *)
  malloc_byte : nat -> nat -> Z;
  (** the value of an [int] local that is read before it is assigned *)
  junk_int : Z;
  (** whether the n-th call of [malloc], for [size] bytes, returns a block
      (and not NULL) *)
  malloc_ok : nat -> Z -> bool
}.

(** ** Constants of <png.h> *)

Definition PNG_COLOR_MASK_PALETTE : Z := 1.
Definition PNG_COLOR_MASK_COLOR : Z := 2.
Definition PNG_COLOR_MASK_ALPHA : Z := 4.
Definition PNG_COLOR_TYPE_GRAY : Z := 0.
Definition PNG_COLOR_TYPE_PALETTE : Z := 3.
Definition PNG_COLOR_TYPE_RGB : Z := 2.
Definition PNG_COLOR_TYPE_RGB_ALPHA : Z := 6.
Definition PNG_COLOR_TYPE_GRAY_ALPHA : Z := 4.
Definition PNG_INTERLACE_NONE : Z := 0.
Definition PNG_INTERLACE_ADAM7 : Z := 1.

(** ** The chunk table *)

Record chunkprops := {
  name : string;        (* name of chunk type *)
  multiple_ok : bool;   (* OK to have more than one? *)
  count : Z             (* how many have we seen? *)
}.

Definition NONE : Z := -2.

Definition MEMORY_QUANTUM : nat := 1024.

Definition IHDR : nat := 0.
Definition PLTE : nat := 1.
Definition IDAT : nat := 2.
Definition cHRM : nat := 3.
Definition gAMA : nat := 4.
Definition iCCP : nat := 5.
Definition sBIT : nat := 6.
Definition sRGB : nat := 7.
Definition bKGD : nat := 8.
Definition hIST : nat := 9.
Definition tRNS : nat := 10.
Definition pHYs : nat := 11.
Definition sPLT : nat := 12.
Definition tIME : nat := 13.
Definition iTXt : nat := 14.
Definition tEXt : nat := 15.
Definition zTXt : nat := 16.
Definition oFFs : nat := 17.
Definition pCAL : nat := 18.
Definition sCAL : nat := 19.
Definition gIFg : nat := 20.
Definition gIFt : nat := 21.
Definition gIFx : nat := 22.
Definition fRAc : nat := 23.
Definition IMAGE : nat := 24.
Definition PRIVATE : nat := 25.

(** The table as the source initialises it; the entries 17 to 23 carry the
    name "pHYs" there. *)
Definition properties0 : list chunkprops :=
  [ Build_chunkprops "IHDR" false 0;
    Build_chunkprops "PLTE" false 0;
    Build_chunkprops "IDAT" true 0;
    Build_chunkprops "cHRM" false 0;
    Build_chunkprops "gAMA" false 0;
    Build_chunkprops "iCCP" false 0;
    Build_chunkprops "sBIT" false 0;
    Build_chunkprops "sRGB" false 0;
    Build_chunkprops "bKGD" false 0;
    Build_chunkprops "hIST" false 0;
    Build_chunkprops "tRNS" false 0;
    Build_chunkprops "pHYs" false 0;
    Build_chunkprops "sPLT" true 0;
    Build_chunkprops "tIME" false 0;
    Build_chunkprops "iTXt" true 0;
    Build_chunkprops "tEXt" true 0;
    Build_chunkprops "zTXt" true 0;
    Build_chunkprops "pHYs" false 0;
    Build_chunkprops "pHYs" false 0;
    Build_chunkprops "pHYs" false 0;
    Build_chunkprops "pHYs" false 0;
    Build_chunkprops "pHYs" false 0;
    Build_chunkprops "pHYs" false 0;
    Build_chunkprops "pHYs" false 0;
    Build_chunkprops "IMAGE" false 0;
    Build_chunkprops "private" true 0 ].

(** [pp->count++] *)
Definition bump (p : chunkprops) : chunkprops :=
  {| name := name p; multiple_ok := multiple_ok p; count := count p + 1 |}.

(** The [for] loop over the table in [pngc]: the index of the first entry
    whose name is the token. *)
Fixpoint find_chunk (tok : string) (ps : list chunkprops) (i : nat) : option nat :=
  match ps with
  | [] => None
  | p :: r => if String.eqb (name p) tok then Some i else find_chunk tok r (S i)
  end.

Record png_color := { red : Z; green : Z; blue : Z }.

Section Compiler.

Context {P : Platform}.

(** ** The image description ([png_info]) and the calls into libpng *)

Record png_info := {
  width : Z;
  height : Z;
  bit_depth : Z;
  color_type : Z;
  interlace_type : Z;
  num_palette : Z;
  palette : list png_color;
  valid : Z;
  x_white : single; y_white : single;
  x_red : single; y_red : single;
  x_green : single; y_green : single;
  x_blue : single; y_blue : single
}.

(** [png_create_info_struct] hands out a zeroed structure. *)
Definition info0 : png_info :=
  Build_png_info 0 0 0 0 0 0 [] 0
    double_zero double_zero double_zero double_zero
    double_zero double_zero double_zero double_zero.

Inductive png_call :=
| png_write_info (info : png_info)
| png_set_PLTE (pal : list png_color) (ncolors : nat)
| png_write_chunk (type : string) (data : list Z)
| png_set_gAMA (g : double)
| png_set_sRGB_gAMA_and_cHRM (intent : Z)
| png_set_packing
| png_write_image (bits : list Z) (rows : Z) (stride : Z)
| png_write_end.

(** ** The globals *)

Record world := {
  yyin : string;            (* the input not yet read *)
  linenum : Z;
  token_buffer : string;
  pushed : bool;
  info_ptr : png_info;
  properties : list chunkprops;
  allocs : nat;             (* blocks handed out by malloc so far *)
  png_calls : list png_call (* calls into libpng, oldest first *)
}.

Definition world0 (fin : string) : world :=
  {| yyin := fin; linenum := 0; token_buffer := ""; pushed := false;
     info_ptr := info0; properties := properties0; allocs := 0;
     png_calls := [] |}.

Definition with_input (inp : string) (line : Z) (w : world) : world :=
  {| yyin := inp; linenum := line; token_buffer := token_buffer w;
     pushed := pushed w; info_ptr := info_ptr w; properties := properties w;
     allocs := allocs w; png_calls := png_calls w |}.

Definition with_token (tok : string) (w : world) : world :=
  {| yyin := yyin w; linenum := linenum w; token_buffer := tok;
     pushed := pushed w; info_ptr := info_ptr w; properties := properties w;
     allocs := allocs w; png_calls := png_calls w |}.

Definition with_pushed (b : bool) (w : world) : world :=
  {| yyin := yyin w; linenum := linenum w; token_buffer := token_buffer w;
     pushed := b; info_ptr := info_ptr w; properties := properties w;
     allocs := allocs w; png_calls := png_calls w |}.

Definition with_info (i : png_info) (w : world) : world :=
  {| yyin := yyin w; linenum := linenum w; token_buffer := token_buffer w;
     pushed := pushed w; info_ptr := i; properties := properties w;
     allocs := allocs w; png_calls := png_calls w |}.

Definition with_properties (ps : list chunkprops) (w : world) : world :=
  {| yyin := yyin w; linenum := linenum w; token_buffer := token_buffer w;
     pushed := pushed w; info_ptr := info_ptr w; properties := ps;
     allocs := allocs w; png_calls := png_calls w |}.

Definition with_allocs (n : nat) (w : world) : world :=
  {| yyin := yyin w; linenum := linenum w; token_buffer := token_buffer w;
     pushed := pushed w; info_ptr := info_ptr w; properties := properties w;
     allocs := n; png_calls := png_calls w |}.

Definition with_call (c : png_call) (w : world) : world :=
  {| yyin := yyin w; linenum := linenum w; token_buffer := token_buffer w;
     pushed := pushed w; info_ptr := info_ptr w; properties := properties w;
     allocs := allocs w; png_calls := png_calls w ++ [c] |}.

(** ** Outcomes and the monad *)

Inductive outcome (A : Type) : Type :=
| Ok (a : A) (w : world)              (* normal return *)
| Fatal (line : Z) (msg : string)     (* fatal(): linenum and the message *)
| Undefined (what : string)           (* a store outside an array *)
| OutOfFuel.                          (* the model ran out of fuel *)

Global Arguments Ok {A} a w.
Global Arguments Fatal {A} line msg.
Global Arguments Undefined {A} what.
Global Arguments OutOfFuel {A}.

Definition M (A : Type) : Type := world -> outcome A.

Definition ret {A} (a : A) : M A := fun w => Ok a w.

Definition bind {A B} (m : M A) (k : A -> M B) : M B :=
  fun w =>
    match m w with
    | Ok a w' => k a w'
    | Fatal line msg => Fatal line msg
    | Undefined what => Undefined what
    | OutOfFuel => OutOfFuel
    end.

Definition fatal {A} (msg : string) : M A := fun w => Fatal (linenum w) msg.
Definition undefined {A} (what : string) : M A := fun _ => Undefined what.
Definition out_of_fuel {A} : M A := fun _ => OutOfFuel.
Definition get {A} (f : world -> A) : M A := fun w => Ok (f w) w.
Definition modify (f : world -> world) : M unit := fun w => Ok tt (f w).

End Compiler.

Declare Scope sng_scope.
Delimit Scope sng_scope with sng.
Notation "x <- m ;; k" := (bind m (fun x => k))
  (at level 100, m at next level, right associativity) : sng_scope.
Notation "m ;; k" := (bind m (fun _ => k))
  (at level 100, right associativity) : sng_scope.

(** ** Token-parsing code *)

Section Lexer.

Context {P : Platform}.
Local Open Scope sng_scope.

Definition newline : ascii := "010"%char.
Definition dquote : ascii := "034"%char.

(** The characters of a C string: those before the first NUL. *)
Fixpoint c_string (s : string) : string :=
  match s with
  | String c r => if code c =? 0 then EmptyString else String c (c_string r)
  | EmptyString => EmptyString
  end.

(** What one of the scanning loops of [get_token] ends with. *)
Inductive scan :=
| ScanEOF                                          (* feof: return FALSE *)
| ScanFatal (msg : string)
| ScanToken (tok : string) (rest : string) (line : Z).

Definition scan_cons (c : ascii) (s : scan) : scan :=
  match s with
  | ScanToken tok rest line => ScanToken (String c tok) rest line
  | _ => s
  end.

(** The first loop of [get_token], "skip leading whitespace", with the
    comment loop inside it ([comment] tells which of the two is running).
    The comment loop puts the newline that ends the comment back; the
    outer loop then reads it again, counts the line and skips it as white
    space, which is what the [comment] branch does at a newline. *)
Fixpoint skip_blanks (comment : bool) (inp : string) (line : Z)
  : option (ascii * string) * Z :=
  match inp with
  | EmptyString => (None, line)
  | String w r =>
      if comment then
        if Ascii.eqb w newline then skip_blanks false r (line + 1)
        else skip_blanks true r line
      else
        let line := if Ascii.eqb w newline then line + 1 else line in
        if isspace w then skip_blanks false r line
        else if Ascii.eqb w "#" then skip_blanks true r line
        else (Some (w, r), line)
  end.

(** The loop for a quoted token; [n] is [tp - token_buffer]. *)
Fixpoint quoted (w : ascii) (inp : string) (n : nat) (line : Z) : scan :=
  match inp with
  | EmptyString => ScanEOF
  | String c r =>
      if Ascii.eqb c w then ScanToken "" r line
      else if Ascii.eqb c newline then ScanFatal "runaway string"
      else if (81 <=? n)%nat then ScanFatal "string token too long"
      else scan_cons c (quoted w r (S n) line)
  end.

(** The loop for a token that starts with a character that is no
    punctuation. *)
Fixpoint unquoted (inp : string) (n : nat) (line : Z) : scan :=
  match inp with
  | EmptyString => ScanEOF
  | String c r =>
      if isspace c then
        ScanToken "" r (if Ascii.eqb c newline then line + 1 else line)
      else if ispunct c && negb (Ascii.eqb c ".") then ScanToken "" inp line
      else if (81 <=? n)%nat then ScanFatal "token too long"
      else scan_cons c (unquoted r (S n) line)
  end.

(** [get_token].  When it returns FALSE in the middle of a token the
    buffer is left without terminator; no caller reads the token after
    FALSE, and the model leaves [token_buffer] as it was.  The closing
    [*tp = '\0'] falls outside [token_buffer[81]] when 81 characters were
    stored. *)
Definition get_token : M bool := fun w =>
  if pushed w then Ok true (with_pushed false w)
  else
    match skip_blanks false (yyin w) (linenum w) with
    | (None, line) => Ok false (with_input "" line w)
    | (Some (c, r), line) =>
        let s :=
          if Ascii.eqb c "'" || Ascii.eqb c dquote
          then quoted c r 0 line
          else if negb (ispunct c) then scan_cons c (unquoted r 1 line)
          else ScanToken (String c "") r line in
        match s with
        | ScanEOF => Ok false (with_input "" line w)
        | ScanFatal msg => Fatal line msg
        | ScanToken tok rest line' =>
            if (81 <=? String.length tok)%nat
            then Undefined "token_buffer[81] = 0"
            else Ok true (with_token (c_string tok) (with_input rest line' w))
        end
    end.

(** does the currently fetched token equal a specified string? *)
Definition token_equals (str : string) : M bool :=
  get (fun w => String.eqb str (token_buffer w)).

(** get a token within a chunk specification *)
Definition get_inner_token : M bool :=
  ok <- get_token ;;
  if negb ok then fatal "unexpected EOF"
  else (e <- token_equals "}" ;; ret (negb e)).

(** push back a token; must always be followed immediately by get_token *)
Definition push_token : M unit := modify (with_pushed true).

(** croak if the next token doesn't match what we expect *)
Definition require_or_die (str : string) : M unit :=
  ok <- get_token ;;
  if negb ok then fatal "unexpected EOF"
  else
    e <- token_equals str ;;
    if negb e
    then (t <- get token_buffer ;; fatal ("unexpected token " +:+ t))
    else ret tt.

Definition nonempty (s : string) : bool :=
  match s with EmptyString => false | String _ _ => true end.

(** validate current token as a PNG long (range 0..2^31-1) *)
Definition long_numeric (token_ok : bool) : M Z :=
  if negb token_ok then fatal "EOF while expecting long-integer constant"
  else
    t <- get token_buffer ;;
    let '(result, vp) := strtoul t in
    if nonempty vp || (result =? 2147483647)
    then fatal "invalid or out of range long constant"
    else ret (u32 result).

(** validate current token as a byte *)
Definition byte_numeric (token_ok : bool) : M Z :=
  if negb token_ok then fatal "EOF while expecting byte constant"
  else
    t <- get token_buffer ;;
    let '(result, vp) := strtoul t in
    if nonempty vp || (255 <? result)
    then fatal "invalid or out of range byte constant"
    else ret (u8 result).

(** validate current token as a double-precision value *)
Definition double_numeric (token_ok : bool) : M double :=
  if negb token_ok then fatal "EOF while expecting double-precision constant"
  else
    t <- get token_buffer ;;
    let '(result, vp) := strtod t in
    if nonempty vp || double_negative result
    then fatal "invalid or out of range double-precision constant"
    else ret result.

End Lexer.

(** ** Data collection *)

Section Collect.

Context {P : Platform}.
Local Open Scope sng_scope.

(** The value of one character in format 1 (one character per byte);
    [None] is "bad character in IDAT block". *)
Definition pixel_value (c : ascii) : option Z :=
  if negb (isalpha c) && negb (isdigit c) then None
  else if isdigit c then Some (u8 (code c - 48))
  else if isupper c then Some (u8 ((code c - 65) + 36))
  else Some (u8 ((code c - 97) + 10)).

(** The value of one character in format 2 (two hex digits per byte). *)
Definition hex_value (c : ascii) : option Z :=
  if negb (isxdigit c) then None
  else if isdigit c then Some (u8 (code c - 48))
  else if isupper c then Some (u8 ((code c - 65) + 10))
  else Some (u8 ((code c - 97) + 10)).

(** A block of [size] bytes as [malloc] returns it. *)
Definition malloc (a : nat) (size : nat) : list Z :=
  map (fun i => u8 (malloc_byte a i)) (seq 0 size).

(** [realloc]: the old bytes, then whatever the new block holds. *)
Definition realloc (a : nat) (bits : list Z) (size : nat) : list Z :=
  take size bits
  ++ map (fun i => u8 (malloc_byte a i)) (seq (length bits) (size - length bits)).

(** [bits[i] = v], inside the block only. *)
Definition store (i : nat) (v : Z) (bits : list Z) : option (list Z) :=
  if (i <? length bits)%nat then Some (<[i := u8 v]> bits) else None.

Inductive collected :=
| CollectEOF                    (* unexpected EOF in data segment *)
| CollectBad                    (* bad character in IDAT block *)
| CollectOutside (i : nat)      (* bits[i] lies outside the block *)
| Collected (nbits : nat) (bits : list Z) (rest : string) (a : nat).

(** The [while] loop of [collect_data].  It ends at the closing brace and
    also at a NUL character, for which [(c = fgetc(yyin))] is false. *)
Fixpoint collect_loop (pixperchar : bool) (inp : string) (a : nat)
    (bits : list Z) (quanta nbits ocount : nat) : collected :=
  match inp with
  | EmptyString => CollectEOF
  | String c r =>
      if code c =? 0 then Collected nbits bits r a
      else if Ascii.eqb c "}" then Collected nbits bits r a
      else if isspace c then collect_loop pixperchar r a bits quanta nbits ocount
      else
        let grow := (quanta * MEMORY_QUANTUM <? nbits)%nat in
        let a := if grow then S a else a in
        let quanta := if grow then S quanta else quanta in
        let bits := if grow then realloc a bits (MEMORY_QUANTUM * quanta) else bits in
        if pixperchar then
          match pixel_value c with
          | None => CollectBad
          | Some value =>
              match store nbits value bits with
              | None => CollectOutside nbits
              | Some bits => collect_loop pixperchar r a bits quanta (S nbits) ocount
              end
          end
        else
          match hex_value c with
          | None => CollectBad
          | Some value =>
              if Nat.odd ocount then
                match store nbits (value * 16) bits with
                | None => CollectOutside nbits
                | Some bits => collect_loop pixperchar r a bits quanta nbits (S ocount)
                end
              else
                match bits !! nbits with
                | None => CollectOutside nbits
                | Some old =>
                    collect_loop pixperchar r a (<[nbits := u8 (Z.lor old value)]> bits)
                      quanta (S nbits) (S ocount)
                end
          end
  end.

(** collect data in either bitmap format: the count [*pnbits] and the
    block [*pbits] *)
Definition collect_data (pixperchar : bool) : M (nat * list Z) := fun w =>
  let a := S (allocs w) in
  match collect_loop pixperchar (yyin w) a (malloc a MEMORY_QUANTUM) 1 0 0 with
  | CollectEOF => Fatal (linenum w) "unexpected EOF in data segment"
  | CollectBad => Fatal (linenum w) "bad character in IDAT block"
  | CollectOutside i => Undefined "bits[nbits]"
  | Collected nbits bits rest a =>
      Ok (nbits, bits) (with_allocs a (with_input rest (linenum w) w))
  end.

End Collect.

(** ** The compiler itself *)

Section Chunks.

Context {P : Platform}.
Local Open Scope sng_scope.

Definition set_height (v : Z) (i : png_info) : png_info :=
  let 'Build_png_info w _ bd ct it np pal va xw yw xr yr xg yg xb yb := i in
  Build_png_info w v bd ct it np pal va xw yw xr yr xg yg xb yb.
Definition set_width (v : Z) (i : png_info) : png_info :=
  let 'Build_png_info _ h bd ct it np pal va xw yw xr yr xg yg xb yb := i in
  Build_png_info v h bd ct it np pal va xw yw xr yr xg yg xb yb.
Definition set_bit_depth (v : Z) (i : png_info) : png_info :=
  let 'Build_png_info w h _ ct it np pal va xw yw xr yr xg yg xb yb := i in
  Build_png_info w h v ct it np pal va xw yw xr yr xg yg xb yb.
Definition set_color_type (v : Z) (i : png_info) : png_info :=
  let 'Build_png_info w h bd _ it np pal va xw yw xr yr xg yg xb yb := i in
  Build_png_info w h bd v it np pal va xw yw xr yr xg yg xb yb.
Definition set_interlace_type (v : Z) (i : png_info) : png_info :=
  let 'Build_png_info w h bd ct _ np pal va xw yw xr yr xg yg xb yb := i in
  Build_png_info w h bd ct v np pal va xw yw xr yr xg yg xb yb.
Definition set_palette (p : list png_color) (n : Z) (i : png_info) : png_info :=
  let 'Build_png_info w h bd ct it _ _ va xw yw xr yr xg yg xb yb := i in
  Build_png_info w h bd ct it n p va xw yw xr yr xg yg xb yb.
Definition set_valid (v : Z) (i : png_info) : png_info :=
  let 'Build_png_info w h bd ct it np pal _ xw yw xr yr xg yg xb yb := i in
  Build_png_info w h bd ct it np pal v xw yw xr yr xg yg xb yb.

(** The colours of a cHRM specification, by the bit each sets in [cmask]. *)
Inductive chroma := white | red_ | green_ | blue_.

Definition chroma_bit (c : chroma) : Z :=
  match c with white => 1 | red_ => 2 | green_ => 4 | blue_ => 8 end.

(** [*cvx = v], where [cvx] is a [float *]: the [double] is converted *)
Definition set_x (c : chroma) (v : double) (i : png_info) : png_info :=
  let 'Build_png_info w h bd ct it np pal va xw yw xr yr xg yg xb yb := i in
  let v := to_single v in
  match c with
  | white => Build_png_info w h bd ct it np pal va v yw xr yr xg yg xb yb
  | red_ => Build_png_info w h bd ct it np pal va xw yw v yr xg yg xb yb
  | green_ => Build_png_info w h bd ct it np pal va xw yw xr yr v yg xb yb
  | blue_ => Build_png_info w h bd ct it np pal va xw yw xr yr xg yg v yb
  end.

(** [*cvy = v], where [cvy] is a [float *]: the [double] is converted *)
Definition set_y (c : chroma) (v : double) (i : png_info) : png_info :=
  let 'Build_png_info w h bd ct it np pal va xw yw xr yr xg yg xb yb := i in
  let v := to_single v in
  match c with
  | white => Build_png_info w h bd ct it np pal va xw v xr yr xg yg xb yb
  | red_ => Build_png_info w h bd ct it np pal va xw yw xr v xg yg xb yb
  | green_ => Build_png_info w h bd ct it np pal va xw yw xr yr xg v xb yb
  | blue_ => Build_png_info w h bd ct it np pal va xw yw xr yr xg yg xb v
  end.

Definition info (f : png_info -> png_info) : M unit :=
  modify (fun w => with_info (f (info_ptr w)) w).

Definition call (c : png_call) : M unit := modify (with_call c).

(** The fuel of a loop over tokens: every turn reads a token, so a loop
    makes no more turns than there are characters left. *)
Definition fuel_of (w : world) : nat := S (String.length (yyin w)).

Fixpoint IHDR_loop (fuel : nat) : M unit :=
  match fuel with
  | O => out_of_fuel
  | S fuel =>
      more <- get_inner_token ;;
      if negb more then ret tt
      else
        t <- get token_buffer ;;
        if String.eqb "height" t then
          (ok <- get_token ;; v <- long_numeric ok ;;
           info (set_height v) ;; IHDR_loop fuel)
        else if String.eqb "width" t then
          (ok <- get_token ;; v <- long_numeric ok ;;
           info (set_width v) ;; IHDR_loop fuel)
        else if String.eqb "bitdepth" t then
          (ok <- get_token ;; v <- byte_numeric ok ;;
           info (set_bit_depth v) ;; IHDR_loop fuel)
        else if String.eqb "using" t then IHDR_loop fuel
        else if String.eqb "palette" t then
          (info (fun i => set_color_type (Z.lor (color_type i) PNG_COLOR_MASK_PALETTE) i) ;;
           IHDR_loop fuel)
        else if String.eqb "color" t then
          (info (fun i => set_color_type (Z.lor (color_type i) PNG_COLOR_MASK_COLOR) i) ;;
           IHDR_loop fuel)
        else if String.eqb "alpha" t then
          (info (fun i => set_color_type (Z.lor (color_type i) PNG_COLOR_MASK_ALPHA) i) ;;
           IHDR_loop fuel)
        else if String.eqb "with" t then IHDR_loop fuel
        else if String.eqb "interlace" t then
          (info (set_interlace_type PNG_INTERLACE_ADAM7) ;; IHDR_loop fuel)
        else fatal ("bad token `" +:+ t +:+ "' in IHDR specification")
  end.

(** parse IHDR specification and emit corresponding bits *)
Definition compile_IHDR : M unit :=
  info (set_bit_depth 8) ;;
  info (set_color_type 0) ;;
  info (set_interlace_type PNG_INTERLACE_NONE) ;;
  fuel <- get fuel_of ;;
  IHDR_loop fuel ;;
  (* IHDR sanity checks *)
  i <- get info_ptr ;;
  if height i =? 0 then fatal "image height is zero or nonexistent"
  else if width i =? 0 then fatal "image width is zero or nonexistent"
  else ret tt.

(** [palette[ncolors].field = v]: inside [palette[256]] only. *)
Definition set_entry (f : png_color -> png_color) (ncolors : nat)
    (palette : list png_color) : M (list png_color) :=
  if (ncolors <? length palette)%nat then ret (alter f ncolors palette)
  else undefined "palette[ncolors]".

Fixpoint PLTE_loop (fuel : nat) (palette : list png_color) (ncolors : nat)
  : M (list png_color * nat) :=
  match fuel with
  | O => out_of_fuel
  | S fuel =>
      more <- get_inner_token ;;
      if negb more then ret (palette, ncolors)
      else
        e <- token_equals "(" ;;
        if negb e then fatal "bad syntax in PLTE description"
        else
          ok <- get_token ;; r <- byte_numeric ok ;;
          palette <- set_entry (fun c => Build_png_color r (green c) (blue c)) ncolors palette ;;
          require_or_die "," ;;
          ok <- get_token ;; g <- byte_numeric ok ;;
          palette <- set_entry (fun c => Build_png_color (red c) g (blue c)) ncolors palette ;;
          require_or_die "," ;;
          ok <- get_token ;; b <- byte_numeric ok ;;
          palette <- set_entry (fun c => Build_png_color (red c) (green c) b) ncolors palette ;;
          require_or_die ")" ;;
          PLTE_loop fuel palette (S ncolors)
  end.

(** parse PLTE specification and emit corresponding bits.  libpng's
    [png_set_PLTE] keeps the entries and their number in [info_ptr]. *)
Definition compile_PLTE : M unit :=
  fuel <- get fuel_of ;;
  r <- PLTE_loop fuel (replicate 256 (Build_png_color 0 0 0)) 0 ;;
  let '(palette, ncolors) := r in
  (* write out the accumulated palette entries *)
  call (png_set_PLTE (take ncolors palette) ncolors) ;;
  info (set_palette (take ncolors palette) (Z.of_nat ncolors)).

(** parse IDAT specification and emit corresponding bits *)
Definition compile_IDAT : M unit :=
  r <- collect_data false ;;
  let '(nbits, bits) := r in
  call (png_write_chunk "IDAT" (take nbits bits)).

Fixpoint cHRM_loop (fuel : nat) (cmask : Z) : M Z :=
  match fuel with
  | O => out_of_fuel
  | S fuel =>
      more <- get_inner_token ;;
      if negb more then ret cmask
      else
        t <- get token_buffer ;;
        c <- (if String.eqb "white" t then ret white
              else if String.eqb "red" t then ret red_
              else if String.eqb "green" t then ret green_
              else if String.eqb "blue" t then ret blue_
              else fatal "invalid color name in cHRM specification") ;;
        let cmask := Z.lor cmask (chroma_bit c) in
        require_or_die "(" ;;
        ok <- get_inner_token ;; x <- double_numeric ok ;;
        info (set_x c x) ;;
        require_or_die "," ;;
        ok <- get_inner_token ;; y <- double_numeric ok ;;
        info (set_y c y) ;;
        require_or_die ")" ;;
        cHRM_loop fuel cmask
  end.

(** parse cHRM specification and emit corresponding bits *)
Definition compile_cHRM : M unit :=
  fuel <- get fuel_of ;;
  cmask <- cHRM_loop fuel 0 ;;
  if negb (cmask =? 15) then fatal "cHRM specification is not complete"
  else info (fun i => set_valid (Z.lor (valid i) (Z.of_nat cHRM)) i).

(** input sample size in bits; no [case] of the [switch] assigns it for
    the other values of [color_type] *)
Definition sample_size_of (i : png_info) : Z :=
  if color_type i =? PNG_COLOR_TYPE_GRAY then bit_depth i
  else if color_type i =? PNG_COLOR_TYPE_PALETTE then 8
  else if color_type i =? PNG_COLOR_TYPE_RGB then bit_depth i * 3
  else if color_type i =? PNG_COLOR_TYPE_RGB_ALPHA then bit_depth i * 4
  else if color_type i =? PNG_COLOR_TYPE_GRAY_ALPHA then bit_depth i * 2
  else junk_int.

(** can we fit a sample in one base-62 character? *)
Definition sample_per_char_of (i : png_info) : bool :=
  (sample_size_of i <=? 5)
  || (negb (Z.land (color_type i) PNG_COLOR_MASK_PALETTE =? 0)
      && (num_palette i <=? 62)).

(** [info_ptr->width * info_ptr->height * (sample_size / 8)], computed in
    [png_uint_32] *)
Definition image_size_of (i : png_info) : Z :=
  u32 (u32 (width i * height i) * u32 (Z.quot (sample_size_of i) 8)).

(** [sizeof(char * )] *)
Definition sizeof_pointer : Z := 4.

(** [xalloc(s)]: the number of the block that [malloc] returns, or "out
    of memory" when it returns NULL *)
Definition xalloc (s : Z) : M nat := fun w =>
  let a := S (allocs w) in
  if malloc_ok a s then Ok a (with_allocs a w)
  else Fatal (linenum w) "out of memory".

(** The loop [for (i = 0; i < info_ptr->height; i++) rowpointers[i] =
    &bits[i * info_ptr->width]] over a block that holds [slots] pointers.
    A turn either ends the loop, stores outside the block, or stores in
    the slot [i] and goes on with [i + 1]: the slots are enough fuel.  The
    pointers stored are those of the rows of [bits], [width] bytes apart;
    the model keeps [height] and [width] in their place. *)
Fixpoint rows_loop (fuel : nat) (i height slots : Z) : M unit :=
  match fuel with
  | O => out_of_fuel
  | S fuel =>
      if negb (i <? height) then ret tt
      else if negb (i <? slots) then undefined "rowpointers[i]"
      else rows_loop fuel (i + 1) height slots
  end.

(** parse IMAGE specification and emit corresponding bits *)
Definition compile_IMAGE : M unit :=
  i <- get info_ptr ;;
  r <- collect_data (sample_per_char_of i) ;;
  let '(nbits, bits) := r in
  if negb (u32 (Z.of_nat nbits) =? image_size_of i)
  then fatal "size of IMAGE doesn't match height * width in IHDR"
  else
    call png_set_packing ;;
    (* got the bits; now write them out *)
    let size := u32 (sizeof_pointer * height i) in
    let slots := size / sizeof_pointer in
    xalloc size ;;
    rows_loop (S (Z.to_nat slots)) 0 (height i) slots ;;
    call (png_write_image (take nbits bits) (height i) (width i)).

End Chunks.

(** ** The dispatcher *)

Section Dispatcher.

Context {P : Platform}.
Local Open Scope sng_scope.

(** [properties[i]] *)
Definition entry (i : nat) (w : world) : chunkprops :=
  default (Build_chunkprops EmptyString false 0) (properties w !! i).

(** [properties[i].count] *)
Definition count_of (i : nat) : M Z := get (fun w => count (entry i w)).

(** [properties[i].count++] *)
Definition count_up (i : nat) : M unit :=
  modify (fun w => with_properties (alter bump i (properties w)) w).

(** [if (c) fatal(msg);] *)
Definition die_if (c : bool) (msg : string) : M unit :=
  if c then fatal msg else ret tt.

Definition nonzero (z : Z) : bool := negb (z =? 0).

(** The [switch (pp - properties)] of [pngc]. *)
Definition chunk_switch (chunk : nat) (prevchunk : Z) : M unit :=
  plte <- count_of PLTE ;;
  idat <- count_of IDAT ;;
  bkgd <- count_of bKGD ;;
  trns <- count_of tRNS ;;
  image <- count_of IMAGE ;;
  i <- get info_ptr ;;
  if (chunk =? IHDR)%nat then
    die_if (negb (prevchunk =? NONE)) "IHDR chunk must come first" ;;
    compile_IHDR
  else if (chunk =? PLTE)%nat then
    (if nonzero idat then fatal "PLTE chunk must come before IDAT"
     else if nonzero bkgd then fatal "PLTE chunk encountered after bKGD"
     else if nonzero trns then fatal "PLTE chunk encountered after tRNS"
     else if Z.land (color_type i) PNG_COLOR_MASK_PALETTE =? 0
     then fatal "PLTE chunk specified for non-palette image type"
     else ret tt) ;;
    compile_PLTE
  else if (chunk =? IDAT)%nat then
    die_if (nonzero image) "can't mix IDAT and IMAGE specs" ;;
    die_if (negb (prevchunk =? Z.of_nat IDAT) && nonzero idat)
      "IDAT chunks must be contiguous" ;;
    (* force out the pre-IDAT portions *)
    (if idat =? 0 then call (png_write_info i) else ret tt) ;;
    compile_IDAT
  else if (chunk =? cHRM)%nat then
    die_if (nonzero plte || nonzero idat)
      "cHRM chunk must come before PLTE and IDAT" ;;
    compile_cHRM
  else if (chunk =? gAMA)%nat then
    die_if (nonzero plte || nonzero idat)
      "gAMA chunk must come before PLTE and IDAT" ;;
    ok <- get_token ;; g <- double_numeric ok ;;
    call (png_set_gAMA g) ;;
    ok <- get_token ;; e <- token_equals "}" ;;
    die_if (negb ok || negb e) "bad token in gAMA specification"
  else if (chunk =? iCCP)%nat then
    die_if (nonzero plte || nonzero idat)
      "iCCP chunk must come before PLTE and IDAT" ;;
    fatal "FIXME: iCCP chunk type is not handled yet"
  else if (chunk =? sBIT)%nat then
    die_if (nonzero plte || nonzero idat)
      "sBIT chunk must come before PLTE and IDAT" ;;
    fatal "FIXME: sBIT chunk type is not handled yet"
  else if (chunk =? sRGB)%nat then
    die_if (nonzero plte || nonzero idat)
      "sRGB chunk must come before PLTE and IDAT" ;;
    ok <- get_token ;; v <- byte_numeric ok ;;
    call (png_set_sRGB_gAMA_and_cHRM v) ;;
    ok <- get_token ;; e <- token_equals "}" ;;
    die_if (negb ok || negb e) "bad token in sRGB specification"
  else if (chunk =? bKGD)%nat then
    die_if (nonzero idat) "bKGD chunk must come between PLTE (if any) and IDAT" ;;
    fatal "FIXME: bKGD chunk type is not handled yet"
  else if (chunk =? hIST)%nat then
    die_if (negb (nonzero plte) || nonzero idat)
      "bKGD chunk must come between PLTE and IDAT" ;;
    fatal "FIXME: hIST chunk type is not handled yet"
  else if (chunk =? tRNS)%nat then
    die_if (nonzero idat) "tRNS chunk must come between PLTE (if any) and IDAT" ;;
    fatal "FIXME: tRNS chunk type is not handled yet"
  else if (chunk =? pHYs)%nat then
    die_if (nonzero idat) "pHYs chunk must come before IDAT" ;;
    fatal "FIXME: pHYs chunk type is not handled yet"
  else if (chunk =? sPLT)%nat then
    die_if (nonzero idat) "sPLT chunk must come before IDAT" ;;
    fatal "FIXME: sPLT chunk type is not handled yet"
  else if (chunk =? tIME)%nat then fatal "FIXME: tIME chunk type is not handled yet"
  else if (chunk =? iTXt)%nat then fatal "FIXME: iTXt chunk type is not handled yet"
  else if (chunk =? tEXt)%nat then fatal "FIXME: tEXt chunk type is not handled yet"
  else if (chunk =? zTXt)%nat then fatal "FIXME: zTXt chunk type is not handled yet"
  else if (chunk =? oFFs)%nat then
    die_if (nonzero idat) "oFFs chunk must come before IDAT" ;;
    fatal "FIXME: oFFs chunk type is not handled yet"
  else if (chunk =? pCAL)%nat then
    die_if (nonzero idat) "pCAL chunk must come before IDAT" ;;
    fatal "FIXME: pCAL chunk type is not handled yet"
  else if (chunk =? sCAL)%nat then
    die_if (nonzero idat) "sCAL chunk must come before IDAT" ;;
    fatal "FIXME: sCAL chunk type is not handled yet"
  else if (chunk =? gIFg)%nat then fatal "FIXME: gIFg chunk type is not handled yet"
  else if (chunk =? gIFt)%nat then fatal "FIXME: gIFt chunk type is not handled yet"
  else if (chunk =? gIFx)%nat then fatal "FIXME: gIFx chunk type is not handled yet"
  else if (chunk =? fRAc)%nat then fatal "FIXME: fRAc chunk type is not handled yet"
  else if (chunk =? IMAGE)%nat then
    die_if (nonzero idat) "can't mix IDAT and IMAGE specs" ;;
    (* force out the pre-IDAT portions *)
    (if image =? 0 then call (png_write_info i) else ret tt) ;;
    compile_IMAGE ;;
    count_up IDAT
  else if (chunk =? PRIVATE)%nat then
    fatal "FIXME: private chunk types are not handled yet"
  else ret tt.

(** One turn of the [while (get_token())] loop of [pngc], after the token
    was fetched: look the keyword up, check the delimiter and the
    repetition, dispatch, then count the chunk.  The result is the new
    [prevchunk]. *)
Definition chunk_step (prevchunk : Z) : M Z :=
  t <- get token_buffer ;;
  ps <- get properties ;;
  match find_chunk t ps 0 with
  | None => fatal "unknown chunk type"
  | Some chunk =>
      ok <- get_token ;;
      die_if (negb ok) "unexpected EOF" ;;
      e <- token_equals "{" ;;
      die_if (negb e) "missing chunk delimiter" ;;
      pp <- get (entry chunk) ;;
      die_if (negb (multiple_ok pp) && (0 <? count pp)) "illegal repeated chunk" ;;
      chunk_switch chunk prevchunk ;;
      count_up chunk ;;
      ret (Z.of_nat chunk)
  end.

(** interpret the following chunk specifications *)
Fixpoint pngc_loop (fuel : nat) (prevchunk : Z) : M unit :=
  match fuel with
  | O => out_of_fuel
  | S fuel =>
      ok <- get_token ;;
      if negb ok then ret tt
      else (prevchunk <- chunk_step prevchunk ;; pngc_loop fuel prevchunk)
  end.

Definition EOF : Z := -1.

(** end-of-file sanity checks, and the end of the file *)
Definition pngc_end : M Z :=
  modify (fun w => with_input (yyin w) EOF w) ;;
  plte <- count_of PLTE ;;
  idat <- count_of IDAT ;;
  i <- get info_ptr ;;
  die_if ((plte =? 0) && negb (Z.land (color_type i) PNG_COLOR_MASK_PALETTE =? 0))
    "palette property set, but no PLTE chunk found" ;;
  die_if (idat =? 0) "no image data" ;;
  call png_write_end ;;
  ret 0.

(** compile PPNG on fin to PNG on fout, from the [setjmp] on *)
Definition pngc_body : M Z :=
  fuel <- get fuel_of ;;
  pngc_loop fuel NONE ;;
  pngc_end.

(** [pngc], started by [main] with [linenum = 0]. *)
Definition pngc (fin : string) : outcome Z := pngc_body (world0 fin).

(** The line [fatal] writes to stderr, with [file]. *)
Definition diagnostic (file : string) (line : Z) (msg : string) : string :=
  (if line =? EOF then file +:+ ":EOF: "
   else file +:+ ":" +:+ NilEmpty.string_of_int (Z.to_int line) +:+ ": ")
  +:+ msg +:+ String newline EmptyString.

End Dispatcher.

(** * Properties *)

(** ** What the primitives leave unchanged *)

Section Frames.

Context {P : Platform}.
Local Open Scope sng_scope.

Local Abbreviation len w := (String.length (yyin w)).

Lemma skip_blanks_shorter comment inp line c r line' :
  skip_blanks comment inp line = (Some (c, r), line') ->
  (String.length r < String.length inp)%nat.
Proof.
  revert comment line.
  induction inp as [|w inp IH]; intros comment line H; cbn [skip_blanks] in H.
  - discriminate.
  - destruct comment.
    + destruct (Ascii.eqb w newline); apply IH in H; simpl; lia.
    + destruct (isspace w); [apply IH in H; simpl; lia|].
      destruct (Ascii.eqb w "#"); [apply IH in H; simpl; lia|].
      inversion H; subst; simpl; lia.
Qed.

Lemma scan_cons_token c s tok rest line :
  scan_cons c s = ScanToken tok rest line ->
  exists tok', s = ScanToken tok' rest line /\ tok = String c tok'.
Proof.
  destruct s; simpl; intros H; try discriminate.
  inversion H; subst; eauto.
Qed.

Lemma quoted_shorter q inp n line tok rest line' :
  quoted q inp n line = ScanToken tok rest line' ->
  (String.length rest < String.length inp)%nat.
Proof.
  revert n tok.
  induction inp as [|c inp IH]; intros n tok H; cbn [quoted] in H; [discriminate|].
  destruct (Ascii.eqb c q); [inversion H; subst; simpl; lia|].
  destruct (Ascii.eqb c newline); [discriminate|].
  destruct (81 <=? n)%nat; [discriminate|].
  apply scan_cons_token in H as (tok' & H & _).
  apply IH in H. simpl; lia.
Qed.

Lemma unquoted_shorter inp n line tok rest line' :
  unquoted inp n line = ScanToken tok rest line' ->
  (String.length rest <= String.length inp)%nat.
Proof.
  revert n tok.
  induction inp as [|c inp IH]; intros n tok H; cbn [unquoted] in H; [discriminate|].
  destruct (isspace c); [inversion H; subst; simpl; lia|].
  destruct (ispunct c && negb (Ascii.eqb c ".")); [inversion H; subst; simpl; lia|].
  destruct (81 <=? n)%nat; [discriminate|].
  apply scan_cons_token in H as (tok' & H & _).
  apply IH in H. simpl; lia.
Qed.

(** [get_token] touches the input, the line count, the token and the
    pushback flag only; without a pushed token, TRUE costs at least one
    character. *)
Lemma get_token_ok w b w' :
  get_token w = Ok b w' ->
  properties w' = properties w /\ info_ptr w' = info_ptr w
  /\ png_calls w' = png_calls w /\ allocs w' = allocs w
  /\ pushed w' = false
  /\ (len w' <= len w)%nat
  /\ (pushed w = false -> b = true -> (len w' < len w)%nat).
Proof.
  unfold get_token. intros H.
  destruct (pushed w) eqn:Hp.
  { inversion H; subst; simpl. repeat split; auto; discriminate. }
  destruct (skip_blanks false (yyin w) (linenum w)) as [[[c r]|] line] eqn:Hs.
  2:{ inversion H; subst; simpl. repeat split; auto; try lia; discriminate. }
  apply skip_blanks_shorter in Hs.
  match type of H with (match ?s with _ => _ end) = _ => destruct s as [|msg|tok rest line'] eqn:Hsc end.
  - inversion H; subst; simpl. repeat split; auto; try lia; discriminate.
  - discriminate.
  - destruct (81 <=? String.length tok)%nat; [discriminate|].
    inversion H; subst; simpl.
    assert (String.length rest <= String.length r)%nat.
    { destruct (Ascii.eqb c "'" || Ascii.eqb c dquote).
      - apply quoted_shorter in Hsc. lia.
      - destruct (negb (ispunct c)).
        + apply scan_cons_token in Hsc as (tok' & Hsc & _).
          apply unquoted_shorter in Hsc. lia.
        + inversion Hsc; subst. lia. }
    repeat split; auto; lia.
Qed.

Lemma get_token_fuel_free w : get_token w <> OutOfFuel.
Proof.
  unfold get_token.
  destruct (pushed w); [discriminate|].
  destruct (skip_blanks false (yyin w) (linenum w)) as [[[c r]|] line]; [|discriminate].
  match goal with |- (match ?s with _ => _ end) <> _ => destruct s end;
    try discriminate.
  destruct (81 <=? String.length _)%nat; discriminate.
Qed.

(** A relation between the world before and after a computation that
    returns. *)
Definition respects {A} (R : relation world) (m : M A) : Prop :=
  forall w a w', m w = Ok a w' -> R w w'.

(** The chunk table is the same. *)
Definition same_table : relation world :=
  fun w w' => properties w' = properties w.

(** No pushed token appears and the input does not grow. *)
Definition shrinks : relation world :=
  fun w w' => (pushed w = false -> pushed w' = false) /\ (len w' <= len w)%nat.

Global Instance same_table_preorder : PreOrder same_table.
Proof.
  split; unfold same_table; [intros w; reflexivity|].
  intros a b c H1 H2. congruence.
Qed.

Global Instance shrinks_preorder : PreOrder shrinks.
Proof.
  split; unfold shrinks; [intros w; split; [auto|lia]|].
  intros a b c [H1 H1'] [H2 H2']. split; [auto|lia].
Qed.

(** Both at once: what every chunk compiler guarantees. *)
Definition frame : relation world := fun w w' => same_table w w' /\ shrinks w w'.

Global Instance frame_preorder : PreOrder frame.
Proof.
  split; unfold frame.
  - intros w; split; reflexivity.
  - intros a b c [? ?] [? ?]; split; etransitivity; eauto.
Qed.

Lemma frame_shrinks {A} (m : M A) : respects frame m -> respects shrinks m.
Proof. intros H w a w' E. apply (H w a w' E). Qed.

Lemma frame_same_table {A} (m : M A) : respects frame m -> respects same_table m.
Proof. intros H w a w' E. apply (H w a w' E). Qed.

Section Respects.

Context (R : relation world) `{!PreOrder R}.

Lemma respects_bind {A B} (m : M A) (k : A -> M B) :
  respects R m -> (forall a, respects R (k a)) -> respects R (bind m k).
Proof.
  intros Hm Hk w b w' H. unfold bind in H.
  destruct (m w) as [a w1| | |] eqn:E; try discriminate.
  transitivity w1; [eapply Hm | eapply Hk]; eauto.
Qed.

Lemma respects_ret {A} (a : A) : respects R (ret a).
Proof. intros w b w' H. inversion H; subst. reflexivity. Qed.

Lemma respects_get {A} (f : world -> A) : respects R (get f).
Proof. intros w b w' H. inversion H; subst. reflexivity. Qed.

Lemma respects_fatal {A} msg : respects R (@fatal A msg).
Proof. intros w b w' H. discriminate. Qed.

Lemma respects_undefined {A} what : respects R (@undefined A what).
Proof. intros w b w' H. discriminate. Qed.

Lemma respects_out_of_fuel {A} : respects R (@out_of_fuel A).
Proof. intros w b w' H. discriminate. Qed.

Lemma respects_modify f : (forall w, R w (f w)) -> respects R (modify f).
Proof. intros Hf w b w' H. inversion H; subst. apply Hf. Qed.

End Respects.

End Frames.

Create HintDb frames discriminated.

Ltac frames :=
  repeat first
    [ exact _
    | solve [eauto 2 with frames]
    | solve [apply frame_shrinks; eauto 2 with frames]
    | solve [apply frame_same_table; eauto 2 with frames]
    | apply respects_ret | apply respects_get | apply respects_fatal
    | apply respects_undefined | apply respects_out_of_fuel
    | match goal with
      | |- respects _ (bind _ _) => apply respects_bind; [exact _| |intros ?]
      | |- respects _ (bind _ _) => apply respects_bind; [|intros ?]
      | |- respects _ (if ?b then _ else _) => destruct b
      | |- respects _ (match ?x with _ => _ end) => destruct x
      end ].

Section FrameLemmas.

Context {P : Platform}.
Local Open Scope sng_scope.

Local Abbreviation len w := (String.length (yyin w)).

Lemma frame_get_token : respects frame get_token.
Proof.
  intros w b w' H. apply get_token_ok in H as (H1 & _ & _ & _ & H2 & H3 & _).
  repeat split; auto.
Qed.

Lemma frame_info f : respects frame (info f).
Proof. apply respects_modify; try exact _. intros w. repeat split; auto. Qed.

Lemma frame_call c : respects frame (call c).
Proof. apply respects_modify; try exact _. intros w. repeat split; auto. Qed.

Lemma frame_die_if c msg : respects frame (die_if c msg).
Proof. unfold die_if. frames. Qed.

Lemma frame_token_equals s : respects frame (token_equals s).
Proof. unfold token_equals. frames. Qed.

Hint Resolve frame_get_token frame_info frame_call frame_die_if
  frame_token_equals : frames.

Lemma frame_get_inner_token : respects frame get_inner_token.
Proof. unfold get_inner_token. frames. Qed.

Lemma frame_require_or_die s : respects frame (require_or_die s).
Proof. unfold require_or_die. frames. Qed.

Lemma frame_long_numeric ok : respects frame (long_numeric ok).
Proof. unfold long_numeric. frames. Qed.

Lemma frame_byte_numeric ok : respects frame (byte_numeric ok).
Proof. unfold byte_numeric. frames. Qed.

Lemma frame_double_numeric ok : respects frame (double_numeric ok).
Proof. unfold double_numeric. frames. Qed.

Hint Resolve frame_get_inner_token frame_require_or_die frame_long_numeric
  frame_byte_numeric frame_double_numeric : frames.

Lemma collect_loop_shorter pix inp a bits quanta nbits ocount n bits' rest a' :
  collect_loop pix inp a bits quanta nbits ocount = Collected n bits' rest a' ->
  (String.length rest < String.length inp)%nat.
Proof.
  revert a bits quanta nbits ocount.
  induction inp as [|c inp IH]; intros a bits quanta nbits ocount H;
    cbn [collect_loop] in H; [discriminate|].
  destruct (code c =? 0); [inversion H; subst; simpl; lia|].
  destruct (Ascii.eqb c "}"); [inversion H; subst; simpl; lia|].
  destruct (isspace c); [apply IH in H; simpl; lia|].
  cbv zeta in H.
  destruct pix.
  - destruct (pixel_value c); [|discriminate].
    destruct (store _ _ _); [|discriminate].
    apply IH in H; simpl; lia.
  - destruct (hex_value c); [|discriminate].
    destruct (Nat.odd ocount).
    + destruct (store _ _ _); [|discriminate]. apply IH in H; simpl; lia.
    + destruct (_ !! nbits); [|discriminate]. apply IH in H; simpl; lia.
Qed.

Lemma frame_collect_data pix : respects frame (collect_data pix).
Proof.
  intros w [n bits] w' H. unfold collect_data in H.
  destruct (collect_loop _ _ _ _ _ _ _) eqn:E; try discriminate.
  inversion H; subst; simpl.
  apply collect_loop_shorter in E.
  repeat split; auto; simpl; lia.
Qed.

Lemma frame_set_entry f n pal : respects frame (set_entry f n pal).
Proof. unfold set_entry. frames. Qed.

Hint Resolve frame_collect_data frame_set_entry : frames.

Lemma frame_IHDR_loop fuel : respects frame (IHDR_loop fuel).
Proof. induction fuel; cbn [IHDR_loop]; frames. Qed.

Lemma frame_PLTE_loop fuel pal n : respects frame (PLTE_loop fuel pal n).
Proof. revert pal n. induction fuel; intros; cbn [PLTE_loop]; frames. Qed.

Lemma frame_cHRM_loop fuel cmask : respects frame (cHRM_loop fuel cmask).
Proof. revert cmask. induction fuel; intros; cbn [cHRM_loop]; frames. Qed.

Hint Resolve frame_IHDR_loop frame_PLTE_loop frame_cHRM_loop : frames.

Lemma frame_compile_IHDR : respects frame compile_IHDR.
Proof. unfold compile_IHDR. frames. Qed.

Lemma frame_compile_PLTE : respects frame compile_PLTE.
Proof. unfold compile_PLTE. frames. Qed.

Lemma frame_compile_IDAT : respects frame compile_IDAT.
Proof. unfold compile_IDAT. frames. Qed.

Lemma frame_compile_cHRM : respects frame compile_cHRM.
Proof. unfold compile_cHRM. frames. Qed.

Lemma frame_xalloc s : respects frame (xalloc s).
Proof.
  intros w a w' H. unfold xalloc in H.
  destruct (malloc_ok _ _); [|discriminate].
  injection H as _ <-. repeat split; auto.
Qed.

(** The loop over the row pointers changes nothing in the world. *)
Lemma rows_loop_ok fuel i h slots w u w' :
  rows_loop fuel i h slots w = Ok u w' -> w' = w.
Proof.
  revert i. induction fuel as [|fuel IH]; intros i H; cbn [rows_loop] in H;
    [discriminate|].
  destruct (negb (i <? h)); [injection H as _ <-; reflexivity|].
  destruct (negb (i <? slots)); [discriminate|].
  eapply IH; eauto.
Qed.

Lemma frame_rows_loop fuel i h slots : respects frame (rows_loop fuel i h slots).
Proof. intros w u w' H. apply rows_loop_ok in H as ->. reflexivity. Qed.

Hint Resolve frame_xalloc frame_rows_loop : frames.

Lemma frame_compile_IMAGE : respects frame compile_IMAGE.
Proof. unfold compile_IMAGE. frames. Qed.

Lemma frame_count_of i : respects frame (count_of i).
Proof. unfold count_of. frames. Qed.

End FrameLemmas.

Global Hint Resolve frame_get_token frame_info frame_call frame_die_if
  frame_token_equals frame_get_inner_token frame_require_or_die
  frame_long_numeric frame_byte_numeric frame_double_numeric
  frame_collect_data frame_set_entry frame_IHDR_loop frame_PLTE_loop
  frame_cHRM_loop frame_compile_IHDR frame_compile_PLTE frame_compile_IDAT
  frame_compile_cHRM frame_xalloc frame_rows_loop frame_compile_IMAGE
  frame_count_of : frames.

(** ** The loops end: enough fuel is always given *)

Create HintDb safes discriminated.

Section Termination.

Context {P : Platform}.
Local Open Scope sng_scope.

Local Abbreviation len w := (String.length (yyin w)).

(** [m] does not run out of fuel on an input of at most [n] characters
    (and no pushed token). *)
Definition safe {A} (n : nat) (m : M A) : Prop :=
  forall w, pushed w = false -> (len w <= n)%nat -> m w <> OutOfFuel.

Lemma safe_ret {A} n (a : A) : safe n (ret a).
Proof. intros w _ _. discriminate. Qed.

Lemma safe_get {A} n (f : world -> A) : safe n (get f).
Proof. intros w _ _. discriminate. Qed.

Lemma safe_modify n f : safe n (modify f).
Proof. intros w _ _. discriminate. Qed.

Lemma safe_fatal {A} n msg : safe n (@fatal A msg).
Proof. intros w _ _. discriminate. Qed.

Lemma safe_undefined {A} n what : safe n (@undefined A what).
Proof. intros w _ _. discriminate. Qed.

Lemma safe_bind {A B} n (m : M A) (k : A -> M B) :
  safe n m -> respects shrinks m -> (forall a, safe n (k a)) -> safe n (bind m k).
Proof.
  intros Hm Hs Hk w Hp Hn. unfold bind.
  destruct (m w) as [a w1| | |] eqn:E; try discriminate.
  - destruct (Hs _ _ _ E) as [Hp' Hl]. apply Hk; [auto|lia].
  - exfalso. eapply Hm; eauto.
Qed.

(** After a token was read, one character less is left. *)
Lemma safe_get_token_bind {B} n (k : bool -> M B) :
  (forall n', n = S n' -> safe n' (k true)) -> safe n (k false) ->
  safe n (bind get_token k).
Proof.
  intros Ht Hf w Hp Hn. unfold bind.
  destruct (get_token w) as [b w1| | |] eqn:E; try discriminate.
  - apply get_token_ok in E as (_ & _ & _ & _ & Hp' & Hl & Hlt).
    destruct b.
    + specialize (Hlt Hp eq_refl).
      destruct n as [|n']; [lia|]. apply (Ht n' eq_refl); [auto|lia].
    + apply Hf; [auto|lia].
  - exfalso. eapply get_token_fuel_free; eauto.
Qed.

Lemma safe_get_inner_token_bind {B} n (k : bool -> M B) :
  (forall n' b, n = S n' -> safe n' (k b)) -> safe n (bind get_inner_token k).
Proof.
  intros Hk w Hp Hn. unfold bind, get_inner_token, bind.
  destruct (get_token w) as [b w1| | |] eqn:E; try discriminate.
  - apply get_token_ok in E as (_ & _ & _ & _ & Hp' & Hl & Hlt).
    destruct b; simpl; [|discriminate].
    specialize (Hlt Hp eq_refl).
    destruct n as [|n']; [lia|]. apply (Hk n' _ eq_refl); simpl; [auto|lia].
  - exfalso. eapply get_token_fuel_free; eauto.
Qed.

Lemma safe_get_token n : safe n get_token.
Proof. intros w _ _. apply get_token_fuel_free. Qed.

Lemma safe_collect_data n pix : safe n (collect_data pix).
Proof.
  intros w _ _. unfold collect_data.
  destruct (collect_loop _ _ _ _ _ _ _); discriminate.
Qed.

(** A loop that is started with the fuel of the current input. *)
Lemma safe_fueled {A B} (loop : nat -> M A) (k : A -> M B) n :
  (forall i, safe i (loop (S i))) ->
  (forall i, respects shrinks (loop i)) ->
  (forall a, safe n (k a)) ->
  safe n (fuel <- get fuel_of ;; x <- loop fuel ;; k x).
Proof.
  intros Hl Hs Hk w Hp Hn. unfold bind at 1. simpl. unfold bind, fuel_of.
  destruct (loop _ w) as [a w1| | |] eqn:E; try discriminate.
  - destruct (Hs _ _ _ _ E) as [Hp' Hl']. apply Hk; [auto|lia].
  - exfalso. eapply (Hl (len w)); eauto.
Qed.

End Termination.

Ltac safes :=
  repeat first
    [ solve [eauto 2 with safes]
    | apply safe_ret | apply safe_get | apply safe_modify | apply safe_fatal
    | apply safe_undefined | apply safe_get_token | apply safe_collect_data
    | match goal with
      | |- safe _ (bind _ _) => apply safe_bind; [| solve [frames] |intros ?]
      | |- safe _ (if ?b then _ else _) => destruct b
      | |- safe _ (match ?x with _ => _ end) => destruct x
      end ].

Section TerminationLemmas.

Context {P : Platform}.
Local Open Scope sng_scope.

Lemma safe_info n f : safe n (info f).
Proof. apply safe_modify. Qed.

Lemma safe_call n c : safe n (call c).
Proof. apply safe_modify. Qed.

Lemma safe_die_if n c msg : safe n (die_if c msg).
Proof. unfold die_if. safes. Qed.

Lemma safe_token_equals n s : safe n (token_equals s).
Proof. apply safe_get. Qed.

Lemma safe_count_of n i : safe n (count_of i).
Proof. apply safe_get. Qed.

Lemma safe_count_up n i : safe n (count_up i).
Proof. apply safe_modify. Qed.

Hint Resolve safe_info safe_call safe_die_if safe_token_equals safe_count_of
  safe_count_up : safes.

Lemma safe_get_inner_token n : safe n get_inner_token.
Proof. unfold get_inner_token. safes. Qed.

Lemma safe_require_or_die n s : safe n (require_or_die s).
Proof. unfold require_or_die. safes. Qed.

Lemma safe_long_numeric n ok : safe n (long_numeric ok).
Proof. unfold long_numeric. safes. Qed.

Lemma safe_byte_numeric n ok : safe n (byte_numeric ok).
Proof. unfold byte_numeric. safes. Qed.

Lemma safe_double_numeric n ok : safe n (double_numeric ok).
Proof. unfold double_numeric. safes. Qed.

Lemma safe_set_entry n f i pal : safe n (set_entry f i pal).
Proof. unfold set_entry. safes. Qed.

Hint Resolve safe_get_inner_token safe_require_or_die safe_long_numeric
  safe_byte_numeric safe_double_numeric safe_set_entry : safes.

Lemma safe_IHDR_loop n : safe n (IHDR_loop (S n)).
Proof.
  enough (H : forall fuel, fuel = S n -> safe n (IHDR_loop fuel)) by auto.
  induction n as [|n IH]; intros [|fuel] E; try discriminate;
    injection E as E; cbn [IHDR_loop];
    apply safe_get_inner_token_bind; intros n' b E'; [discriminate|].
  injection E' as <-. safes.
Qed.

Lemma safe_PLTE_loop n pal i : safe n (PLTE_loop (S n) pal i).
Proof.
  enough (H : forall fuel, fuel = S n -> safe n (PLTE_loop fuel pal i)) by auto.
  revert pal i.
  induction n as [|n IH]; intros pal i [|fuel] E; try discriminate;
    injection E as E; cbn [PLTE_loop];
    apply safe_get_inner_token_bind; intros n' b E'; [discriminate|].
  injection E' as <-. safes.
Qed.

Lemma safe_cHRM_loop n cmask : safe n (cHRM_loop (S n) cmask).
Proof.
  enough (H : forall fuel, fuel = S n -> safe n (cHRM_loop fuel cmask)) by auto.
  revert cmask.
  induction n as [|n IH]; intros cmask [|fuel] E; try discriminate;
    injection E as E; cbn [cHRM_loop];
    apply safe_get_inner_token_bind; intros n' b E'; [discriminate|].
  injection E' as <-. safes.
Qed.

Lemma safe_compile_IHDR n : safe n compile_IHDR.
Proof.
  unfold compile_IHDR.
  do 3 (apply safe_bind; [safes|apply frame_shrinks; frames|intros _]).
  apply safe_fueled; [apply safe_IHDR_loop|intros; apply frame_shrinks; frames|].
  intros; safes.
Qed.

Lemma safe_compile_PLTE n : safe n compile_PLTE.
Proof.
  unfold compile_PLTE.
  apply (safe_fueled (fun f => PLTE_loop f _ _));
    [intros; apply safe_PLTE_loop|intros; apply frame_shrinks; frames|].
  intros; safes.
Qed.

Lemma safe_compile_IDAT n : safe n compile_IDAT.
Proof. unfold compile_IDAT. safes. Qed.

Lemma safe_compile_cHRM n : safe n compile_cHRM.
Proof.
  unfold compile_cHRM.
  apply (safe_fueled (fun f => cHRM_loop f _));
    [intros; apply safe_cHRM_loop|intros; apply frame_shrinks; frames|].
  intros; safes.
Qed.

Lemma safe_xalloc n s : safe n (xalloc s).
Proof. intros w _ _. unfold xalloc. destruct (malloc_ok _ _); discriminate. Qed.

(** The slots that are left are fuel enough for the loop over the rows. *)
Lemma rows_loop_fuel fuel i h slots w :
  (Z.to_nat (slots - i) < fuel)%nat -> rows_loop fuel i h slots w <> OutOfFuel.
Proof.
  revert i. induction fuel as [|fuel IH]; intros i H; [lia|].
  cbn [rows_loop].
  destruct (negb (i <? h)); [discriminate|].
  destruct (Z.ltb_spec i slots); cbn [negb]; [|discriminate].
  apply IH. lia.
Qed.

Lemma safe_rows_loop n h slots : safe n (rows_loop (S (Z.to_nat slots)) 0 h slots).
Proof. intros w _ _. apply rows_loop_fuel. rewrite Z.sub_0_r. lia. Qed.

Hint Resolve safe_xalloc safe_rows_loop : safes.

Lemma safe_compile_IMAGE n : safe n compile_IMAGE.
Proof. unfold compile_IMAGE. safes. Qed.

End TerminationLemmas.

Global Hint Resolve safe_info safe_call safe_die_if safe_token_equals
  safe_count_of safe_count_up safe_get_inner_token safe_require_or_die
  safe_long_numeric safe_byte_numeric safe_double_numeric safe_set_entry
  safe_compile_IHDR safe_compile_PLTE safe_compile_IDAT safe_compile_cHRM
  safe_compile_IMAGE : safes.

(** ** The dispatcher loop *)

Section Loop.

Context {P : Platform}.
Local Open Scope sng_scope.

Local Abbreviation len w := (String.length (yyin w)).

Lemma bind_ok {A B} (m : M A) (k : A -> M B) w b w' :
  bind m k w = Ok b w' -> exists a w1, m w = Ok a w1 /\ k a w1 = Ok b w'.
Proof.
  unfold bind. destruct (m w) as [a w1| | |]; try discriminate. eauto.
Qed.

Lemma shrinks_count_up i : respects shrinks (count_up i).
Proof. apply respects_modify; try exact _. intros w. split; auto. Qed.

Hint Resolve shrinks_count_up : frames.

Lemma shrinks_chunk_switch chunk prev : respects shrinks (chunk_switch chunk prev).
Proof. unfold chunk_switch. frames. Qed.

Hint Resolve shrinks_chunk_switch : frames.

Lemma shrinks_chunk_step prev : respects shrinks (chunk_step prev).
Proof. unfold chunk_step. frames. Qed.

Lemma safe_chunk_switch n chunk prev : safe n (chunk_switch chunk prev).
Proof.
  unfold chunk_switch. safes.
Qed.

Hint Resolve safe_chunk_switch : safes.

Lemma safe_chunk_step n prev : safe n (chunk_step prev).
Proof.
  unfold chunk_step. safes.
Qed.

Lemma safe_pngc_loop n prev : safe n (pngc_loop (S n) prev).
Proof.
  enough (H : forall fuel, fuel = S n -> safe n (pngc_loop fuel prev)) by auto.
  revert prev.
  induction n as [|n IH]; intros prev [|fuel] E; try discriminate;
    injection E as E; cbn [pngc_loop];
    (apply safe_get_token_bind; [intros n' E'|simpl; safes]); [discriminate|].
  injection E' as <-. simpl.
  apply safe_bind; [apply safe_chunk_step|apply shrinks_chunk_step|].
  intros p. auto.
Qed.

(** More fuel does not change what the loop does. *)
Lemma pngc_loop_fuel fuel fuel' prev w :
  pngc_loop fuel prev w <> OutOfFuel -> (fuel <= fuel')%nat ->
  pngc_loop fuel' prev w = pngc_loop fuel prev w.
Proof.
  revert fuel' prev w.
  induction fuel as [|fuel IH]; intros fuel' prev w H Hle.
  - exfalso. apply H. reflexivity.
  - destruct fuel' as [|fuel']; [lia|].
    cbn [pngc_loop] in *. unfold bind in *.
    destruct (get_token w) as [[|] w1| | |]; simpl in *; try reflexivity.
    destruct (chunk_step prev w1) as [p w2| | |]; try reflexivity.
    apply IH; [auto|lia].
Qed.

Lemma frame_set_linenum line :
  respects frame (modify (fun w => with_input (yyin w) line w)).
Proof. apply respects_modify; try exact _. intros w. repeat split; auto. Qed.

Hint Resolve frame_set_linenum : frames.

Lemma safe_pngc_end n : safe n pngc_end.
Proof. unfold pngc_end. safes. Qed.

Lemma shrinks_pngc_loop fuel prev : respects shrinks (pngc_loop fuel prev).
Proof.
  revert prev. induction fuel; intros; cbn [pngc_loop]; frames.
  apply shrinks_chunk_step.
Qed.

(** [pngc] never runs out of fuel: the model gives a result (a return, a
    fatal error or an undefined store) for every input. *)
Lemma pngc_total fin : pngc fin <> OutOfFuel.
Proof.
  unfold pngc, pngc_body.
  apply (safe_fueled (fun f => pngc_loop f NONE) (fun _ => pngc_end)
           (String.length fin)); simpl; auto.
  - intros; apply safe_pngc_loop.
  - intros; apply shrinks_pngc_loop.
  - intros; apply safe_pngc_end.
Qed.

End Loop.

(** ** Data segments *)

(** Every character of [s] satisfies [p]. *)
Fixpoint all_chars (p : ascii -> bool) (s : string) : bool :=
  match s with
  | EmptyString => true
  | String c r => p c && all_chars p r
  end.

(** The number of characters of [s] that satisfy [p]. *)
Fixpoint count_chars (p : ascii -> bool) (s : string) : nat :=
  match s with
  | EmptyString => 0
  | String c r => (if p c then 1 else 0) + count_chars p r
  end.

(** The mapping of the dense character encoding in the words of the
    specification: digits to 0..9, upper case to 36..61, lower case to
    10..35. *)
Definition dense_spec (c : ascii) : option Z :=
  if between 48 57 c then Some (code c - 48)
  else if between 65 90 c then Some (36 + (code c - 65))
  else if between 97 122 c then Some (10 + (code c - 97))
  else None.

(** The bytes a dense segment stands for: one per character of the
    alphabet, white space ignored. *)
Fixpoint dense_bytes (s : string) : list Z :=
  match s with
  | EmptyString => []
  | String c r =>
      match dense_spec c with
      | Some v => v :: dense_bytes r
      | None => dense_bytes r
      end
  end.

Definition dense_char (c : ascii) : bool :=
  match dense_spec c with Some _ => true | None => isspace c end.

Definition hex_char (c : ascii) : bool := isxdigit c || isspace c.

Ltac each_char c :=
  destruct c as [[] [] [] [] [] [] [] []]; vm_compute;
  repeat split; intros; try discriminate; try lia; eauto.

Lemma pixel_value_spec c : pixel_value c = dense_spec c.
Proof. each_char c. Qed.

Lemma dense_spec_range c v : dense_spec c = Some v -> 0 <= v <= 61.
Proof.
  unfold dense_spec, between.
  destruct (_ && _) eqn:E1; [intros [= <-]; lia|].
  destruct (_ && _) eqn:E2 in |- *; [intros [= <-]; lia|].
  destruct (_ && _) eqn:E3 in |- *; [intros [= <-]; lia|].
  discriminate.
Qed.

Lemma dense_spec_plain c v :
  dense_spec c = Some v ->
  (code c =? 0) = false /\ Ascii.eqb c "}" = false /\ isspace c = false.
Proof. revert v. each_char c. Qed.

Lemma xdigit_plain c :
  isxdigit c = true ->
  (code c =? 0) = false /\ Ascii.eqb c "}" = false /\ isspace c = false
  /\ exists v, hex_value c = Some v.
Proof. each_char c. Qed.

Lemma space_plain c :
  isspace c = true -> (code c =? 0) = false /\ Ascii.eqb c "}" = false.
Proof. each_char c. Qed.

Section Segments.

Context {P : Platform}.

Lemma quantum : MEMORY_QUANTUM = 1024%nat.
Proof. reflexivity. Qed.

Lemma length_malloc a n : length (malloc a n) = n.
Proof. unfold malloc. rewrite length_map, length_seq. reflexivity. Qed.

Lemma store_inside i v (bits : list Z) :
  (i < length bits)%nat -> store i v bits = Some (<[i := u8 v]> bits).
Proof.
  intros H. unfold store.
  destruct (Nat.ltb_spec i (length bits)); [reflexivity|lia].
Qed.

Lemma no_growth (nbits : nat) :
  (nbits <= 1024)%nat -> (1 * MEMORY_QUANTUM <? nbits)%nat = false.
Proof. intros H. apply Nat.ltb_ge. rewrite quantum. lia. Qed.



End Segments.

(** ** A platform to run the examples on

    [strtod] reads integers only (the examples use no fractions), fresh
    storage holds zero bytes, unassigned locals hold 0 and [malloc] serves
    every request. *)

Definition example_platform : Platform :=
  {| strtod := fun s => let '(v, rest) := strtoul s in
                        (PrimFloat.of_uint63 (Uint63.of_Z v), rest);
     malloc_byte := fun _ _ => 0;
     junk_int := 0;
     malloc_ok := fun _ _ => true |}.

(** The bytes a data segment gives in format 1 or 2, on the example
    platform: the count, the bytes and the input left. *)
Definition example_segment (pixperchar : bool) (inp : string)
  : option (nat * list Z * string) :=
  match @collect_data example_platform pixperchar (world0 inp) with
  | Ok (n, bits) w => Some (n, take n bits, yyin w)
  | _ => None
  end.

(** ** C2: the dense character encoding *)




(** ** C1: hex pairs *)

Lemma malloc_head {P : Platform} a :
  exists tl, malloc a MEMORY_QUANTUM
             = u8 (malloc_byte a 0) :: u8 (malloc_byte a 1)
                 :: u8 (malloc_byte a 2) :: u8 (malloc_byte a 3) :: tl.
Proof. eexists. reflexivity. Qed.

Ltac run_hex_segment w :=
  unfold collect_data; cbn [with_input yyin allocs linenum];
  let tl := fresh "tl" in
  destruct (malloc_head (S (allocs w))) as [tl ->];
  generalize (malloc_byte (S (allocs w)) 0) (u8 (malloc_byte (S (allocs w)) 1))
    (u8 (malloc_byte (S (allocs w)) 2)) (u8 (malloc_byte (S (allocs w)) 3));
  intros ? ? ? ?;
  cbv -[u8 Z.lor Z.mul];
  repeat split;
  match goal with
  | |- [_; ?b; ?c] = _ => change b with 15; change c with 240
  end;
  change (u8 0) with 0; rewrite Z.lor_0_r;
  unfold u8; rewrite Z.mod_mod by lia; reflexivity.

(** Hex-pair decoding in the words of the specification: white space is
    ignored, two consecutive hex digits, of either case, make one byte
    with the high nibble first, and an odd number of digits is an error. *)
Fixpoint hex_digits_spec (s : string) : option (list Z) :=
  match s with
  | EmptyString => Some []
  | String c r =>
      if isspace c then hex_digits_spec r
      else if between 48 57 c then cons (code c - 48) <$> hex_digits_spec r
      else if between 65 70 c then cons (code c - 65 + 10) <$> hex_digits_spec r
      else if between 97 102 c then cons (code c - 97 + 10) <$> hex_digits_spec r
      else None
  end.

Fixpoint pair_up_spec (ds : list Z) : option (list Z) :=
  match ds with
  | [] => Some []
  | [_] => None
  | hi :: lo :: r => cons (16 * hi + lo) <$> pair_up_spec r
  end.

Definition hex_pairs_spec (s : string) : option (list Z) :=
  match hex_digits_spec s with
  | Some ds => pair_up_spec ds
  | None => None
  end.

(** C1.  What [collect_data] does with the hex segment 00FF0A, with and
    without white space between the pairs: it returns three bytes, but the
    first digit is or-ed as a low nibble into the first byte of the fresh
    block, and from then on each byte is made of the second digit of one
    pair (high) and the first digit of the next (low): 0x0F and 0xF0, not
    the 0x00, 0xFF, 0x0A of the specification. *)
Theorem hex_pairs_low_nibble_first {P : Platform} (w : world) (rest : string) :
  hex_pairs_spec "00FF0A" = Some [0; 255; 10]
  /\ hex_pairs_spec "00 FF 0A" = Some [0; 255; 10]
  /\ match collect_data false (with_input ("00FF0A}" +:+ rest) (linenum w) w) with
  | Ok (n, bits) w' =>
      n = 3%nat
      /\ take n bits = [u8 (malloc_byte (S (allocs w)) 0); 15; 240]
      /\ yyin w' = rest
  | _ => False
  end
  /\ match collect_data false (with_input ("00 FF 0A}" +:+ rest) (linenum w) w) with
     | Ok (n, bits) w' =>
         n = 3%nat
         /\ take n bits = [u8 (malloc_byte (S (allocs w)) 0); 15; 240]
         /\ yyin w' = rest
     | _ => False
     end.
Proof.
  split; [reflexivity|]. split; [reflexivity|]. split; run_hex_segment w.
Qed.

(** ** C8: an odd number of hex digits *)

Lemma odd_mod2 n : Nat.odd n = true -> (n mod 2 = 1)%nat.
Proof.
  intros H. apply Nat.odd_spec in H. destruct H as [k ->].
  rewrite Nat.add_comm, Nat.mul_comm, Nat.Div0.mod_add. reflexivity.
Qed.

Lemma even_mod2 n : Nat.odd n = false -> (n mod 2 = 0)%nat.
Proof.
  intros H. pose proof (Nat.orb_even_odd n) as E.
  rewrite H, orb_false_r in E.
  apply Nat.even_spec in E. destruct E as [k ->].
  rewrite Nat.mul_comm. apply Nat.Div0.mod_mul.
Qed.

Ltac lia_div := zify; Z.to_euclidean_division_equations; lia.

Lemma space_not_xdigit c : isspace c = true -> isxdigit c = false.
Proof. each_char c. Qed.

(** The loop in format 2 on a segment of hex digits and white space: it
    returns, whatever the number of digits. *)
Lemma hex_loop {P : Platform} body : forall a (bits : list Z) nbits ocount rest,
  all_chars hex_char body = true ->
  length bits = 1024%nat ->
  nbits = (S ocount / 2)%nat ->
  (ocount + count_chars isxdigit body <= 2047)%nat ->
  exists bits',
    collect_loop false (body +:+ String "}" rest) a bits 1 nbits ocount
    = Collected (S (ocount + count_chars isxdigit body) / 2) bits' rest a
    /\ length bits' = 1024%nat.
Proof.
  induction body as [|c body IH]; intros a bits nbits ocount rest Hall Hlen Hn Hc.
  - cbn [count_chars]. rewrite Nat.add_0_r, <- Hn.
    exists bits. split; [reflexivity|exact Hlen].
  - cbn [all_chars] in Hall. apply andb_prop in Hall as [Hx Hall].
    cbn [count_chars] in *. unfold hex_char in Hx.
    change (String c body +:+ String "}" rest)
      with (String c (body +:+ String "}" rest)).
    cbn [collect_loop].
    destruct (isxdigit c) eqn:Ex.
    + destruct (xdigit_plain _ Ex) as (-> & -> & -> & v & ->).
      assert (nbits < 1024)%nat by lia_div.
      rewrite no_growth by lia. cbv zeta.
      destruct (Nat.odd ocount) eqn:Eo.
      * apply odd_mod2 in Eo.
        rewrite store_inside by lia.
        destruct (IH a (<[nbits := u8 (v * 16)]> bits) nbits (S ocount) rest Hall)
          as (bits' & E & Hl); [rewrite length_insert; auto|lia_div|lia|].
        exists bits'. split; [|exact Hl].
        rewrite E. f_equal. f_equal. lia.
      * apply even_mod2 in Eo.
        destruct (lookup_lt_is_Some_2 bits nbits) as [old ->]; [lia|].
        destruct (IH a (<[nbits := u8 (Z.lor old v)]> bits) (S nbits) (S ocount)
                    rest Hall)
          as (bits' & E & Hl); [rewrite length_insert; auto|lia_div|lia|].
        exists bits'. split; [|exact Hl].
        rewrite E. f_equal. f_equal. lia.
    + simpl in Hx. destruct (space_plain _ Hx) as (-> & ->). rewrite Hx.
      simpl in Hc. destruct (IH a bits nbits ocount rest Hall Hlen Hn Hc)
        as (bits' & E & Hl).
      exists bits'. split; [|exact Hl]. rewrite E. reflexivity.
Qed.

(** C8, as the code has it.  In format 2 (two hex digits per byte) the
    number of digits is not checked: every segment of hex digits and white
    space up to the closing brace is accepted, with an odd number of digits
    as with an even one, and [collect_data] returns a count and a block
    (for up to 2047 digits, which stay inside the block allocated at the
    start). *)
Theorem hex_digit_count_unchecked {P : Platform} (w : world) (body rest : string) :
  all_chars hex_char body = true ->
  (count_chars isxdigit body <= 2047)%nat ->
  exists n bits w',
    collect_data false (with_input (body +:+ String "}" rest) (linenum w) w)
    = Ok (n, bits) w'
    /\ yyin w' = rest.
Proof.
  intros Hall Hc.
  destruct (hex_loop body (S (allocs w)) (malloc (S (allocs w)) MEMORY_QUANTUM)
              0 0 rest Hall) as (bits & E & Hl).
  { apply length_malloc. }
  { reflexivity. }
  { simpl. exact Hc. }
  unfold collect_data. cbn [with_input yyin allocs linenum]. rewrite E.
  eexists _, bits, _. split; reflexivity.
Qed.

Lemma hex_digit_count_unchecked_witness :
  exists n bits w',
    @collect_data example_platform false
      (with_input ("0FF" +:+ String "}" EmptyString) 0 (world0 EmptyString))
    = Ok (n, bits) w'
    /\ yyin w' = EmptyString.
Proof.
  apply (@hex_digit_count_unchecked example_platform
           (world0 EmptyString) "0FF" EmptyString).
  - reflexivity.
  - vm_compute. lia.
Defined.

(** The calls of [png_write_chunk] of a compile that returns. *)
Definition chunks_written (o : outcome Z)
  : option (Z * list (string * list Z)) :=
  match o with
  | Ok r w =>
      Some (r, omap (fun c => match c with
                              | png_write_chunk t d => Some (t, d)
                              | _ => None
                              end) (png_calls w))
  | _ => None
  end.

(** C8 as stated fails: a raw pixel-data chunk with three hex digits
    compiles; [pngc] returns 0 and hands two bytes to libpng. *)
Lemma odd_hex_count_compiles :
  hex_pairs_spec "0FF" = None
  /\ example_segment false "0FF}" = Some (2%nat, [0; 255], EmptyString)
  /\ chunks_written (@pngc example_platform "IHDR { width 1 height 1 } IDAT { 0FF }")
     = Some (0, [("IDAT", [0; 255])]).
Proof. repeat split; vm_compute; reflexivity. Qed.

(** ** Runs of the dispatcher *)

Section Runs.

Context {P : Platform}.
Local Open Scope sng_scope.

Local Abbreviation len w := (String.length (yyin w)).

(** [steps prev w h prev' w']: from [prevchunk = prev] in world [w] the loop
    of [pngc] processes the chunks [h], one per turn and in this order,
    and arrives at [prevchunk = prev'] in world [w']. *)
Inductive steps : Z -> world -> list nat -> Z -> world -> Prop :=
| steps_nil prev w : steps prev w [] prev w
| steps_cons prev w w1 chunk w2 h prev' w3 :
    get_token w = Ok true w1 ->
    chunk_step prev w1 = Ok (Z.of_nat chunk) w2 ->
    steps (Z.of_nat chunk) w2 h prev' w3 ->
    steps prev w (chunk :: h) prev' w3.

(** The chunks [h] of the input [fin] have been processed. *)
Definition reached (fin : string) (h : list nat) (prev : Z) (w : world) : Prop :=
  steps NONE (world0 fin) h prev w.

(** [properties[i].count] *)
Definition cnt (i : nat) (w : world) : Z := count (entry i w).

(** The names and the flags of the table are those of the source. *)
Definition table_ok (w : world) : Prop :=
  map name (properties w) = map name properties0
  /\ map multiple_ok (properties w) = map multiple_ok properties0.

Lemma get_ok {A} (f : world -> A) w a w' :
  get f w = Ok a w' -> a = f w /\ w' = w.
Proof. intros [= <- <-]. auto. Qed.

Lemma die_if_ok c msg w u w' :
  die_if c msg w = Ok u w' -> c = false /\ w' = w.
Proof. destruct c; simpl; intros H; [discriminate|]. injection H as <-. auto. Qed.

Lemma chunk_step_ok prev w p w' :
  chunk_step prev w = Ok p w' ->
  exists chunk w1 w2,
    find_chunk (token_buffer w) (properties w) 0 = Some chunk
    /\ p = Z.of_nat chunk
    /\ get_token w = Ok true w1
    /\ token_buffer w1 = "{"
    /\ (multiple_ok (entry chunk w1) = true \/ count (entry chunk w1) <= 0)
    /\ chunk_switch chunk prev w1 = Ok tt w2
    /\ w' = with_properties (alter bump chunk (properties w2)) w2.
Proof.
  unfold chunk_step. intros H.
  apply bind_ok in H as (t & w0 & [= <- <-] & H).
  apply bind_ok in H as (ps & w0 & [= <- <-] & H).
  destruct (find_chunk _ _ _) as [chunk|] eqn:Ef; [|discriminate].
  apply bind_ok in H as (ok & w1 & Hg & H).
  apply bind_ok in H as ([] & w1' & Hd & H).
  apply die_if_ok in Hd as [Hok ->].
  apply negb_false_iff in Hok. subst ok.
  apply bind_ok in H as (e & w1' & He & H).
  apply get_ok in He as [-> ->].
  apply bind_ok in H as ([] & w1' & Hd & H).
  apply die_if_ok in Hd as [Ee ->]. apply negb_false_iff in Ee.
  apply bind_ok in H as (pp & w1' & [= <- <-] & H).
  apply bind_ok in H as ([] & w1' & Hd & H).
  apply die_if_ok in Hd as [Em ->].
  apply bind_ok in H as ([] & w2 & Hs & H).
  apply bind_ok in H as ([] & w3 & [= <-] & [= <- <-]).
  exists chunk, w1, w2. repeat split; auto.
  - apply String.eqb_eq in Ee. auto.
  - apply andb_false_iff in Em as [Em|Em].
    + left. destruct (multiple_ok _); [reflexivity|discriminate].
    + right. apply Z.ltb_ge in Em. exact Em.
Qed.

Lemma find_chunk_bound tok ps i chunk :
  find_chunk tok ps i = Some chunk -> (i <= chunk < i + length ps)%nat.
Proof.
  revert i. induction ps as [|p ps IH]; intros i H; simpl in H; [discriminate|].
  destruct (String.eqb (name p) tok).
  - injection H as <-. simpl. lia.
  - apply IH in H. simpl. lia.
Qed.

Lemma find_chunk_names tok ps ps' i :
  map name ps = map name ps' -> find_chunk tok ps i = find_chunk tok ps' i.
Proof.
  revert ps' i. induction ps as [|p ps IH]; intros [|p' ps'] i H;
    try discriminate; [reflexivity|].
  simpl in *. injection H as -> H. rewrite (IH _ _ H). reflexivity.
Qed.

Lemma find_chunk_none tok ps i :
  Forall (fun p => name p <> tok) ps -> find_chunk tok ps i = None.
Proof.
  intros H. revert i. induction H as [|p ps Hp _ IH]; intros i; simpl; [auto|].
  destruct (String.eqb_spec (name p) tok); [contradiction|auto].
Qed.

Lemma chunk_switch_table chunk prev w w' :
  chunk_switch chunk prev w = Ok tt w' ->
  properties w'
  = if (chunk =? IMAGE)%nat then alter bump IDAT (properties w) else properties w.
Proof.
  destruct (chunk =? IMAGE)%nat eqn:E.
  - apply Nat.eqb_eq in E. subst chunk. unfold chunk_switch.
    intros H.
    repeat (apply bind_ok in H as (? & ? & [= <- <-] & H)).
    cbn in H.
    apply bind_ok in H as ([] & w1 & H1 & H).
    apply bind_ok in H as ([] & w2 & H2 & H).
    apply bind_ok in H as ([] & w3 & H3 & [= <-]).
    simpl.
    apply die_if_ok in H1 as [_ E1]. subst w1.
    apply frame_compile_IMAGE in H3 as [E3 _]. unfold same_table in E3.
    rewrite E3. f_equal.
    destruct (_ =? 0) in H2.
    + apply frame_call in H2 as [E2 _]. exact E2.
    + injection H2 as <-. reflexivity.
  - enough (H : respects same_table (chunk_switch chunk prev)) by (intros E'; apply (H _ _ _ E')).
    unfold chunk_switch. rewrite E. cbv iota. frames.
Qed.

Lemma cnt_alter (ps : list chunkprops) c i d :
  count (default d (alter bump c ps !! i))
  = count (default d (ps !! i))
    + (if decide (i = c /\ (i < length ps)%nat) then 1 else 0).
Proof.
  destruct (decide (i = c)) as [->|Hne].
  - rewrite list_lookup_alter_eq.
    destruct (ps !! c) as [p|] eqn:E; simpl.
    + apply lookup_lt_Some in E. case_decide; [reflexivity|].
      exfalso. auto.
    + apply lookup_ge_None in E. case_decide; lia.
  - rewrite list_lookup_alter_ne by auto. case_decide; [|lia].
    exfalso. tauto.
Qed.

Lemma map_alter_bump {A} (f : chunkprops -> A) c (ps : list chunkprops) :
  (forall p, f (bump p) = f p) -> map f (alter bump c ps) = map f ps.
Proof.
  intros Hf. revert c.
  induction ps as [|p ps IH]; intros [|c]; cbn; f_equal; auto.
Qed.

(** What one processed chunk does to the counts. *)
Lemma chunk_step_counts prev w chunk w' :
  chunk_step prev w = Ok (Z.of_nat chunk) w' ->
  (chunk < length (properties w))%nat
  /\ length (properties w') = length (properties w)
  /\ map name (properties w') = map name (properties w)
  /\ map multiple_ok (properties w') = map multiple_ok (properties w)
  /\ forall i,
       cnt i w' = cnt i w
                  + (if decide (i = chunk) then 1 else 0)
                  + (if decide (chunk = IMAGE /\ i = IDAT) then 1 else 0).
Proof.
  intros H. apply chunk_step_ok in H
    as (c & w1 & w2 & Hf & Hc & Hg & _ & _ & Hs & ->).
  apply Nat2Z.inj in Hc. subst c.
  apply find_chunk_bound in Hf. simpl in Hf.
  apply get_token_ok in Hg as (Hp & _).
  apply chunk_switch_table in Hs. rewrite Hp in Hs.
  split; [lia|]. simpl. rewrite Hs.
  split; [|split; [|split]].
  - destruct (chunk =? IMAGE)%nat; rewrite ?length_alter; reflexivity.
  - destruct (chunk =? IMAGE)%nat; rewrite ?map_alter_bump; auto.
  - destruct (chunk =? IMAGE)%nat; rewrite ?map_alter_bump; auto.
  - intros i. unfold cnt, entry. simpl. rewrite cnt_alter.
    destruct (Nat.eqb_spec chunk IMAGE) as [->|Hne].
    + rewrite length_alter, cnt_alter.
      unfold IMAGE, IDAT in *.
      repeat case_decide; try lia; exfalso; intuition lia.
    + repeat case_decide; try lia; exfalso; intuition lia.
Qed.

End Runs.

Section Reached.

Context {P : Platform}.
Local Open Scope sng_scope.

Local Abbreviation len w := (String.length (yyin w)).

(** How often the chunk [i] occurs in [h]. *)
Definition occ (i : nat) (h : list nat) : Z :=
  Z.of_nat (count_occ Nat.eq_dec h i).

(** [prevchunk] after the chunks [h]. *)
Definition prev_after (prev : Z) (h : list nat) : Z :=
  match last h with
  | Some c => Z.of_nat c
  | None => prev
  end.

Lemma occ_cons i c h :
  occ i (c :: h) = (if decide (i = c) then 1 else 0) + occ i h.
Proof.
  unfold occ. simpl. destruct (Nat.eq_dec c i); case_decide; try lia.
Qed.

Lemma occ_pos i h : 0 < occ i h <-> In i h.
Proof. unfold occ. rewrite (count_occ_In Nat.eq_dec). lia. Qed.

Lemma occ_zero i h : occ i h = 0 <-> ~ In i h.
Proof. unfold occ. rewrite (count_occ_not_In Nat.eq_dec). lia. Qed.

Lemma steps_loop prev w h prev' w' :
  steps prev w h prev' w' -> pushed w = false ->
  pushed w' = false
  /\ forall n, (len w <= n)%nat ->
       pngc_loop (S n) prev w = pngc_loop (S (len w')) prev' w'.
Proof.
  induction 1 as [prev w|prev w w1 chunk w2 h prev' w3 Hg Hs _ IH]; intros Hp.
  - split; [exact Hp|]. intros n Hn.
    apply pngc_loop_fuel; [|lia]. apply safe_pngc_loop; auto.
  - apply get_token_ok in Hg as Hg'.
    destruct Hg' as (_ & _ & _ & _ & Hp1 & _ & Hlt).
    specialize (Hlt Hp eq_refl).
    destruct (shrinks_chunk_step _ _ _ _ Hs) as [Hp2 Hl2].
    destruct (IH (Hp2 Hp1)) as [Hp3 IH'].
    split; [exact Hp3|]. intros [|n] Hn; [lia|].
    rewrite <- (IH' n) by lia.
    change (pngc_loop (S (S n)) prev w)
      with (bind get_token
              (fun ok => if negb ok then ret tt
                         else bind (chunk_step prev) (pngc_loop (S n))) w).
    unfold bind at 1. rewrite Hg. simpl. unfold bind. rewrite Hs. reflexivity.
Qed.

Lemma pngc_reached fin h prev w :
  reached fin h prev w ->
  pushed w = false
  /\ pngc fin = bind (pngc_loop (S (len w)) prev) (fun _ => pngc_end) w.
Proof.
  intros H. apply steps_loop in H as [Hp H]; [|reflexivity].
  split; [exact Hp|].
  specialize (H (String.length fin) (le_n _)).
  change (pngc fin)
    with (bind (pngc_loop (S (String.length fin)) NONE) (fun _ => pngc_end)
            (world0 fin)).
  unfold bind. rewrite H. reflexivity.
Qed.

(** At the end of the stream the compile is decided by the end-of-file
    checks. *)
Lemma pngc_at_end fin h prev w w_end :
  reached fin h prev w -> get_token w = Ok false w_end ->
  pngc fin = pngc_end w_end.
Proof.
  intros H Hg. apply pngc_reached in H as [_ ->].
  unfold bind. cbn [pngc_loop]. unfold bind. rewrite Hg. reflexivity.
Qed.

(** A chunk that fails ends the compile with its error. *)
Lemma pngc_at_fatal fin h prev w w1 line msg :
  reached fin h prev w -> get_token w = Ok true w1 ->
  chunk_step prev w1 = Fatal line msg ->
  pngc fin = Fatal line msg.
Proof.
  intros H Hg Hs. apply pngc_reached in H as [_ ->].
  unfold bind. cbn [pngc_loop]. unfold bind. rewrite Hg. simpl. rewrite Hs.
  reflexivity.
Qed.

Lemma cnt_world0 fin i : cnt i (world0 fin) = 0.
Proof.
  unfold cnt, entry. simpl.
  do 26 (destruct i as [|i]; [reflexivity|]). reflexivity.
Qed.

(** What a run does to the table and to [prevchunk]. *)
Lemma steps_counts prev w h prev' w' :
  steps prev w h prev' w' ->
  map name (properties w') = map name (properties w)
  /\ map multiple_ok (properties w') = map multiple_ok (properties w)
  /\ prev' = prev_after prev h
  /\ forall i,
       cnt i w' = cnt i w + occ i h
                  + (if decide (i = IDAT) then occ IMAGE h else 0).
Proof.
  induction 1 as [prev w|prev w w1 chunk w2 h prev' w3 Hg Hs _ IH].
  - repeat split; auto. intros i. unfold occ. simpl. case_decide; lia.
  - destruct IH as (Hn & Hm & Hp & Hc).
    apply get_token_ok in Hg as (Hpr & _).
    apply chunk_step_counts in Hs as (_ & _ & Hn2 & Hm2 & Hc2).
    assert (Hcnt : forall i, cnt i w1 = cnt i w).
    { intros i. unfold cnt, entry. rewrite Hpr. reflexivity. }
    rewrite Hpr in *.
    split; [congruence|]. split; [congruence|]. split.
    + rewrite Hp. unfold prev_after. destruct h as [|c h]; [reflexivity|].
      rewrite !last_cons. destruct (last h); reflexivity.
    + intros i. rewrite Hc, Hc2, Hcnt, !occ_cons.
      repeat case_decide; try lia; exfalso; intuition congruence.
Qed.

Lemma reached_counts fin h prev w :
  reached fin h prev w ->
  table_ok w
  /\ prev = prev_after NONE h
  /\ forall i, cnt i w = occ i h + (if decide (i = IDAT) then occ IMAGE h else 0).
Proof.
  intros H. apply steps_counts in H as (Hn & Hm & Hp & Hc).
  split; [split; assumption|]. split; [assumption|].
  intros i. rewrite Hc, cnt_world0. lia.
Qed.

Lemma prev_after_chunk h : h <> [] -> 0 <= prev_after NONE h.
Proof.
  intros H. unfold prev_after.
  destruct (last h) as [c|] eqn:E; [lia|].
  apply last_None in E. contradiction.
Qed.

End Reached.

(** ** C9: the end-of-file checks *)

Section EndOfStream.

Context {P : Platform}.
Local Open Scope sng_scope.

(** The palette flag of the image description. *)
Definition palette_flag (w : world) : bool :=
  negb (Z.land (color_type (info_ptr w)) PNG_COLOR_MASK_PALETTE =? 0).

Lemma pngc_end_spec w :
  pngc_end w
  = if (cnt PLTE w =? 0) && palette_flag w
    then Fatal EOF "palette property set, but no PLTE chunk found"
    else if cnt IDAT w =? 0 then Fatal EOF "no image data"
    else Ok 0 (with_call png_write_end (with_input (yyin w) EOF w)).
Proof.
  unfold pngc_end, bind, modify, count_of, get, die_if, call, ret, fatal,
    palette_flag, cnt, entry. simpl.
  destruct (_ && _); [reflexivity|].
  destruct (_ =? 0); reflexivity.
Qed.

(** C9.  When the input reaches its end after the chunks [h], the compile
    fails if the palette flag of the header is set and no PLTE chunk was
    among them; it fails if neither an IDAT nor an IMAGE was among them
    (with "no image data" when the palette check passes); and with the
    palette check passed, an IMAGE (or an IDAT) among them lets [pngc]
    return 0. *)
Theorem end_of_stream_checks fin h prev w w_end :
  reached fin h prev w ->
  get_token w = Ok false w_end ->
  (palette_flag w = true -> ~ In PLTE h ->
   pngc fin = Fatal EOF "palette property set, but no PLTE chunk found")
  /\ (~ In IDAT h -> ~ In IMAGE h -> exists msg, pngc fin = Fatal EOF msg)
  /\ (palette_flag w = false \/ In PLTE h ->
      ~ In IDAT h -> ~ In IMAGE h -> pngc fin = Fatal EOF "no image data")
  /\ (palette_flag w = false \/ In PLTE h ->
      In IMAGE h \/ In IDAT h -> exists w', pngc fin = Ok 0 w').
Proof.
  intros Hr Hg.
  rewrite (pngc_at_end _ _ _ _ _ Hr Hg), pngc_end_spec.
  apply reached_counts in Hr as (_ & _ & Hc).
  apply get_token_ok in Hg as (Hp & Hi & _).
  assert (Hcnt : forall i, cnt i w_end = cnt i w).
  { intros i. unfold cnt, entry. rewrite Hp. reflexivity. }
  assert (Hflag : palette_flag w_end = palette_flag w).
  { unfold palette_flag. rewrite Hi. reflexivity. }
  rewrite !Hcnt, Hflag.
  pose proof (Hc PLTE) as Hplte. pose proof (Hc IDAT) as Hidat.
  rewrite decide_False in Hplte by discriminate.
  rewrite decide_True in Hidat by reflexivity.
  assert (Hnn : forall i, 0 <= occ i h) by (intros; unfold occ; lia).
  assert (Hpal : palette_flag w = false \/ In PLTE h ->
                 (cnt PLTE w =? 0) && palette_flag w = false).
  { intros [->|Hin]; [apply andb_false_r|].
    apply occ_pos in Hin. apply andb_false_intro1. apply Z.eqb_neq. lia. }
  repeat split.
  - intros Hf Hn. apply occ_zero in Hn. rewrite Hf.
    replace (cnt PLTE w) with 0 by lia. reflexivity.
  - intros Hn1 Hn2. apply occ_zero in Hn1, Hn2.
    replace (cnt IDAT w) with 0 by lia.
    destruct (_ && _); simpl; eauto.
  - intros Hpl Hn1 Hn2. apply occ_zero in Hn1, Hn2.
    rewrite (Hpal Hpl). replace (cnt IDAT w) with 0 by lia. reflexivity.
  - intros Hpl Hin. rewrite (Hpal Hpl).
    assert (0 < cnt IDAT w).
    { destruct Hin as [Hin|Hin]; apply occ_pos in Hin;
        pose proof (Hnn IDAT); pose proof (Hnn IMAGE); lia. }
    destruct (Z.eqb_spec (cnt IDAT w) 0); [lia|]. eauto.
Qed.

End EndOfStream.


(** Runs the dispatcher on a given input, chunk by chunk. *)
Ltac run_chunk :=
  lazymatch goal with
  | |- @steps ?P ?prev ?w (?c :: ?h) _ _ =>
      let r1 := eval vm_compute in (get_token w) in
      lazymatch r1 with
      | Ok true ?w1 =>
          let r2 := eval vm_compute in (@chunk_step P prev w1) in
          lazymatch r2 with
          | Ok _ ?w2 =>
              apply (@steps_cons P prev w w1 c w2);
              [vm_compute; reflexivity|vm_compute; reflexivity|]
          end
      end
  end.

Ltac run_chunks := unfold reached; repeat run_chunk; apply steps_nil.

(** Reads the next token of a given world. *)
Ltac run_token :=
  lazymatch goal with
  | |- get_token ?w = _ =>
      let r := eval vm_compute in (get_token w) in
      transitivity r; [vm_compute; reflexivity|reflexivity]
  end.

Lemma end_of_stream_checks_witness :
  @pngc example_platform "IHDR { width 1 height 1 using palette color } IMAGE { 0 }"
  = Fatal EOF "palette property set, but no PLTE chunk found"
  /\ @pngc example_platform "IHDR { width 1 height 1 } sRGB { 0 }"
     = Fatal EOF "no image data"
  /\ exists w',
       @pngc example_platform
         "IHDR { width 1 height 1 using palette color } PLTE { (1,2,3) } IMAGE { 0 }"
       = Ok 0 w'.
Proof.
  split; [|split].
  - eapply (@end_of_stream_checks example_platform _ [IHDR; IMAGE]).
    + run_chunks.
    + vm_compute. reflexivity.
    + vm_compute. reflexivity.
    + unfold IHDR, IMAGE, PLTE. simpl. intuition discriminate.
  - eapply (@end_of_stream_checks example_platform _ [IHDR; sRGB]).
    + run_chunks.
    + vm_compute. reflexivity.
    + left. vm_compute. reflexivity.
    + unfold IHDR, sRGB, IDAT. simpl. intuition discriminate.
    + unfold IHDR, sRGB, IMAGE. simpl. intuition discriminate.
  - eapply (@end_of_stream_checks example_platform _ [IHDR; PLTE; IMAGE]).
    + run_chunks.
    + vm_compute. reflexivity.
    + right. unfold IHDR, IMAGE, PLTE. simpl. auto.
    + left. unfold IHDR, IMAGE, PLTE. simpl. auto.
Defined.

(** ** The order of the chunks *)

Section Ordering.

Context {P : Platform}.
Local Open Scope sng_scope.

(** A turn of the loop once the keyword is known to be that of [chunk]
    and to be followed by the opening brace. *)
Lemma chunk_step_dispatch prev w chunk w1 :
  find_chunk (token_buffer w) (properties w) 0 = Some chunk ->
  get_token w = Ok true w1 ->
  token_buffer w1 = "{" ->
  chunk_step prev w
  = if negb (multiple_ok (entry chunk w1)) && (0 <? count (entry chunk w1))
    then Fatal (linenum w1) "illegal repeated chunk"
    else bind (chunk_switch chunk prev)
           (fun _ => bind (count_up chunk) (fun _ => ret (Z.of_nat chunk))) w1.
Proof.
  intros Hf Hg Ht. unfold chunk_step.
  unfold bind at 1. cbn [get]. unfold bind at 1. cbn [get]. rewrite Hf.
  unfold bind at 1. rewrite Hg. cbn [negb die_if].
  unfold bind at 1. cbn [ret]. unfold bind at 1, token_equals. cbn [get].
  rewrite Ht. cbn [String.eqb Ascii.eqb Bool.eqb negb die_if].
  unfold bind at 1. cbn [ret]. unfold bind at 1. cbn [get].
  unfold bind at 1.
  destruct (negb _ && _); reflexivity.
Qed.

Lemma nonzero_spec z : 0 < z -> nonzero z = true.
Proof. intros H. unfold nonzero. destruct (Z.eqb_spec z 0); [lia|reflexivity]. Qed.

(** A header that is not the first chunk. *)
Lemma switch_IHDR_late prev w :
  prev <> NONE ->
  chunk_switch IHDR prev w = Fatal (linenum w) "IHDR chunk must come first".
Proof.
  intros Hp. unfold chunk_switch, bind, count_of, get. cbn [Nat.eqb IHDR].
  destruct (Z.eqb_spec prev NONE); [contradiction|]. reflexivity.
Qed.

(** Once pixel data has been seen, every chunk but IDAT is refused by its
    own case of the switch. *)
Lemma switch_after_IDAT chunk prev w :
  0 < cnt IDAT w -> prev <> NONE -> chunk <> IDAT -> (chunk < 26)%nat ->
  exists msg, chunk_switch chunk prev w = Fatal (linenum w) msg
              /\ msg <> "IDAT chunks must be contiguous".
Proof.
  intros Hi Hp Hc Hlt.
  apply nonzero_spec in Hi. unfold cnt in Hi.
  assert (Hn : negb (prev =? NONE) = true).
  { destruct (Z.eqb_spec prev NONE); [contradiction|reflexivity]. }
  do 26 (destruct chunk as [|chunk];
         [first [exfalso; apply Hc; reflexivity
                |unfold chunk_switch, bind, count_of, get;
                 cbn [Nat.eqb IHDR PLTE IDAT cHRM gAMA iCCP sBIT sRGB bKGD hIST
                        tRNS pHYs sPLT tIME iTXt tEXt zTXt oFFs pCAL sCAL gIFg
                        gIFt gIFx fRAc IMAGE PRIVATE];
                 rewrite ?Hi, ?Hn, ?orb_true_r; cbn [die_if orb negb];
                 unfold fatal; eexists; split; [reflexivity|discriminate]]|]).
  lia.
Qed.

Lemma table_length w : table_ok w -> length (properties w) = 26%nat.
Proof.
  intros [H _]. apply (f_equal length) in H. rewrite !length_map in H. exact H.
Qed.

Lemma table_find w tok :
  table_ok w -> find_chunk tok (properties w) 0 = find_chunk tok properties0 0.
Proof. intros [H _]. apply find_chunk_names. exact H. Qed.

Lemma table_flag w i :
  table_ok w ->
  multiple_ok (entry i w)
  = multiple_ok (default (Build_chunkprops EmptyString false 0) (properties0 !! i)).
Proof.
  intros [_ H]. unfold entry.
  change (map multiple_ok (properties w)) with (multiple_ok <$> properties w) in H.
  change (map multiple_ok properties0) with (multiple_ok <$> properties0) in H.
  apply (f_equal (fun l => l !! i)) in H. rewrite !list_lookup_fmap in H.
  destruct (properties w !! i), (properties0 !! i); simpl in *; congruence.
Qed.

Lemma table_get_token w b w1 :
  get_token w = Ok b w1 ->
  (table_ok w -> table_ok w1) /\ forall i, cnt i w1 = cnt i w.
Proof.
  intros H. apply get_token_ok in H as (Hp & _).
  unfold table_ok, cnt, entry. rewrite Hp. auto.
Qed.

Lemma chunk_step_after_IDAT prev w chunk w' :
  0 < cnt IDAT w -> prev <> NONE -> length (properties w) = 26%nat ->
  chunk_step prev w = Ok (Z.of_nat chunk) w' -> chunk = IDAT.
Proof.
  intros Hi Hp Hl H.
  apply chunk_step_ok in H as (c & w1 & w2 & Hf & Hc & Hg & _ & _ & Hs & _).
  apply Nat2Z.inj in Hc. subst c.
  apply find_chunk_bound in Hf. rewrite Hl in Hf.
  apply table_get_token in Hg as [_ Hcnt].
  destruct (decide (chunk = IDAT)) as [|Hne]; [assumption|exfalso].
  destruct (switch_after_IDAT chunk prev w1) as (msg & E & _);
    [rewrite Hcnt; lia|assumption|assumption|lia|].
  congruence.
Qed.

Lemma only_IDAT_after prev w h prev' w' :
  steps prev w h prev' w' ->
  0 < cnt IDAT w -> prev <> NONE -> length (properties w) = 26%nat ->
  Forall (fun c => c = IDAT) h.
Proof.
  induction 1 as [prev w|prev w w1 chunk w2 h prev' w3 Hg Hs _ IH];
    intros Hi Hp Hl; [constructor|].
  apply table_get_token in Hg as Hg'. destruct Hg' as [_ Hcnt].
  apply get_token_ok in Hg as (Hpr & _).
  pose proof Hs as Hs'.
  apply chunk_step_after_IDAT in Hs';
    [|rewrite Hcnt; lia|assumption|rewrite Hpr; assumption].
  apply chunk_step_counts in Hs as (_ & Hl2 & _ & _ & Hc2).
  constructor; [assumption|]. apply IH.
  - rewrite Hc2, Hcnt. repeat case_decide; lia.
  - subst chunk. discriminate.
  - rewrite Hl2, Hpr. assumption.
Qed.

Lemma steps_app_inv h1 : forall prev w h2 prev' w',
  steps prev w (h1 ++ h2) prev' w' ->
  exists p1 w1, steps prev w h1 p1 w1 /\ steps p1 w1 h2 prev' w'.
Proof.
  induction h1 as [|c h1 IH]; intros prev w h2 prev' w' H.
  - exists prev, w. split; [constructor|exact H].
  - simpl in H. inversion H; subst.
    destruct (IH _ _ _ _ _ H8) as (p1 & w1' & Ha & Hb).
    exists p1, w1'. split; [econstructor; eauto|exact Hb].
Qed.

Lemma collect_data_calls pix w n bits w' :
  collect_data pix w = Ok (n, bits) w' ->
  png_calls w' = png_calls w /\ info_ptr w' = info_ptr w.
Proof.
  unfold collect_data. destruct (collect_loop _ _ _ _ _ _ _); try discriminate.
  intros [= <- <- <-]. auto.
Qed.

(** A turn on an IDAT chunk hands the bytes collected from its body to
    libpng, after [png_write_info] when it is the first. *)
Lemma IDAT_step_forwards prev w w' :
  chunk_step prev w = Ok (Z.of_nat IDAT) w' ->
  exists w1 w2 n bits w3,
    get_token w = Ok true w1
    /\ collect_data false w2 = Ok (n, bits) w3
    /\ yyin w2 = yyin w1
    /\ png_calls w'
       = png_calls w
         ++ (if cnt IDAT w =? 0 then [png_write_info (info_ptr w)] else [])
         ++ [png_write_chunk "IDAT" (take n bits)].
Proof.
  intros H.
  apply chunk_step_ok in H as (c & w1 & w2 & _ & Hc & Hg & _ & _ & Hs & ->).
  apply Nat2Z.inj in Hc. subst c.
  destruct (table_get_token _ _ _ Hg) as [_ Hcnt].
  apply get_token_ok in Hg as Hg'. destruct Hg' as (_ & Hi & Hcalls & _).
  unfold chunk_switch in Hs.
  repeat (apply bind_ok in Hs as (? & ? & [= <- <-] & Hs)).
  cbn [Nat.eqb IHDR PLTE IDAT] in Hs.
  apply bind_ok in Hs as ([] & wa & H1 & Hs). apply die_if_ok in H1 as [_ ->].
  apply bind_ok in Hs as ([] & wb & H2 & Hs). apply die_if_ok in H2 as [_ ->].
  apply bind_ok in Hs as ([] & wc & H3 & Hs).
  unfold compile_IDAT in Hs.
  apply bind_ok in Hs as ([n bits] & wd & H4 & H5).
  injection H5 as <-.
  exists w1, wc, n, bits, wd. split; [assumption|].
  split; [assumption|].
  assert (Hy : yyin wc = yyin w1).
  { destruct (count (entry IDAT w1) =? 0); injection H3 as <-; reflexivity. }
  split; [exact Hy|].
  apply collect_data_calls in H4 as [H4 _].
  change (count (entry IDAT w1)) with (cnt IDAT w1) in H3. rewrite Hcnt in H3.
  simpl. rewrite H4.
  destruct (cnt IDAT w =? 0).
  - injection H3 as <-. simpl. rewrite Hcalls, Hi, <- app_assoc. auto.
  - injection H3 as <-. rewrite Hcalls. auto.
Qed.

Lemma occ_nonneg i h : 0 <= occ i h.
Proof. unfold occ. lia. Qed.

End Ordering.

(** ** C10: unknown chunk types *)

(** [needle] occurs in [hay]. *)
Fixpoint contains (needle hay : string) : bool :=
  String.prefix needle hay
  || match hay with
     | EmptyString => false
     | String _ rest => contains needle rest
     end.

(** C10, as the code has it.  When the token read as a chunk keyword is
    the name of no entry of the table, the compile fails with the error
    "unknown chunk type" at the current line; the message is this fixed
    text, whatever the token. *)
Theorem unknown_chunk_type {P : Platform} fin h prev w w1 :
  reached fin h prev w ->
  get_token w = Ok true w1 ->
  Forall (fun p => name p <> token_buffer w1) properties0 ->
  pngc fin = Fatal (linenum w1) "unknown chunk type".
Proof.
  intros Hr Hg Hn.
  apply (pngc_at_fatal _ _ _ _ _ _ _ Hr Hg).
  apply reached_counts in Hr as (Ht & _).
  apply table_get_token in Hg as [Ht1 _]. specialize (Ht1 Ht).
  unfold chunk_step, bind. cbn [get].
  rewrite (table_find _ _ Ht1), (find_chunk_none _ _ _ Hn). reflexivity.
Qed.

Lemma unknown_chunk_type_witness :
  @pngc example_platform "IHDR { width 1 height 1 } oFFs { }"
  = Fatal 0 "unknown chunk type".
Proof.
  etransitivity; [eapply (@unknown_chunk_type example_platform _ [IHDR])|].
  - run_chunks.
  - run_token.
  - vm_compute. repeat constructor; discriminate.
  - vm_compute. reflexivity.
Defined.

(** C10 as stated fails: the diagnostic of an unknown chunk type is the
    same line for the tokens foo and bar, and the token is no part of it. *)
Lemma unknown_chunk_message_omits_token :
  @pngc example_platform "foo { }" = Fatal 0 "unknown chunk type"
  /\ @pngc example_platform "bar { }" = Fatal 0 "unknown chunk type"
  /\ diagnostic "stdin" 0 "unknown chunk type"
     = "stdin:0: unknown chunk type" +:+ String newline EmptyString
  /\ contains "foo" (diagnostic "stdin" 0 "unknown chunk type") = false
  /\ contains "bar" (diagnostic "stdin" 0 "unknown chunk type") = false.
Proof. repeat split; vm_compute; reflexivity. Qed.

(** ** C3: the header comes first *)

(** C3, as the code has it.  A header chunk that is dispatched after any
    other chunk fails: with the ordering error "IHDR chunk must come
    first" when no header came before it, and as an illegal repetition
    otherwise.  (A first chunk of another type is not refused for being
    first; it goes through its own checks.) *)
Theorem header_after_chunk {P : Platform} fin h prev w w1 w2 :
  reached fin h prev w -> h <> [] ->
  get_token w = Ok true w1 -> token_buffer w1 = "IHDR" ->
  get_token w1 = Ok true w2 -> token_buffer w2 = "{" ->
  (~ In IHDR h -> pngc fin = Fatal (linenum w2) "IHDR chunk must come first")
  /\ (In IHDR h -> pngc fin = Fatal (linenum w2) "illegal repeated chunk").
Proof.
  intros Hr Hne Hg1 Ht1 Hg2 Ht2.
  pose proof (reached_counts _ _ _ _ Hr) as (Htab & Hprev & Hcnt).
  destruct (table_get_token _ _ _ Hg1) as [Htab1 Hcnt1]. specialize (Htab1 Htab).
  destruct (table_get_token _ _ _ Hg2) as [Htab2 Hcnt2]. specialize (Htab2 Htab1).
  assert (Hstep : chunk_step prev w1
                  = if 0 <? occ IHDR h
                    then Fatal (linenum w2) "illegal repeated chunk"
                    else Fatal (linenum w2) "IHDR chunk must come first").
  { rewrite (chunk_step_dispatch prev w1 IHDR w2); auto.
    2:{ rewrite (table_find _ _ Htab1), Ht1. reflexivity. }
    rewrite (table_flag _ _ Htab2). cbn [negb andb].
    change (count (entry IHDR w2)) with (cnt IHDR w2).
    rewrite Hcnt2, Hcnt1, Hcnt, decide_False by discriminate.
    rewrite Z.add_0_r.
    destruct (0 <? occ IHDR h); [reflexivity|].
    unfold bind. rewrite switch_IHDR_late; [reflexivity|].
    rewrite Hprev. pose proof (prev_after_chunk h Hne). unfold NONE in *. lia. }
  split; intros Hin.
  - apply occ_zero in Hin. rewrite Hin in Hstep.
    exact (pngc_at_fatal _ _ _ _ _ _ _ Hr Hg1 Hstep).
  - apply occ_pos in Hin. apply Z.ltb_lt in Hin. rewrite Hin in Hstep.
    exact (pngc_at_fatal _ _ _ _ _ _ _ Hr Hg1 Hstep).
Qed.

Lemma header_after_chunk_witness :
  @pngc example_platform "sRGB { 0 } IHDR { width 1 height 1 }"
  = Fatal 0 "IHDR chunk must come first"
  /\ @pngc example_platform "IHDR { width 1 height 1 } sRGB { 0 } IHDR { width 1 height 1 }"
     = Fatal 0 "illegal repeated chunk".
Proof.
  split.
  - edestruct (@header_after_chunk example_platform
                 "sRGB { 0 } IHDR { width 1 height 1 }" [sRGB]) as [H _];
      [run_chunks|discriminate|run_token|vm_compute; reflexivity
      |run_token|vm_compute; reflexivity|].
    rewrite H; [vm_compute; reflexivity|].
    unfold sRGB, IHDR. simpl. intuition discriminate.
  - edestruct (@header_after_chunk example_platform
                 "IHDR { width 1 height 1 } sRGB { 0 } IHDR { width 1 height 1 }"
                 [IHDR; sRGB]) as [_ H];
      [run_chunks|discriminate|run_token|vm_compute; reflexivity
      |run_token|vm_compute; reflexivity|].
    rewrite H; [vm_compute; reflexivity|].
    unfold sRGB, IHDR. simpl. auto.
Defined.

(** C3 as stated fails: a compile whose first chunk is not the header
    does not fail with an ordering error.  A PLTE first fails on the
    colour type, an sRGB first is accepted and the compile fails only at
    the end of the file for want of image data, and an IMAGE first passes
    every check of [pngc], which returns 0. *)
Lemma first_chunk_not_checked :
  @pngc example_platform "PLTE { (1,2,3) }"
  = Fatal 0 "PLTE chunk specified for non-palette image type"
  /\ @pngc example_platform "sRGB { 0 }" = Fatal EOF "no image data"
  /\ chunks_written (@pngc example_platform "IMAGE { }") = Some (0, []).
Proof. repeat split; vm_compute; reflexivity. Qed.

(** ** C6: raw pixel-data chunks *)

(** C6, as the code has it.  In every run of the dispatcher the chunk
    processed right after an IDAT chunk is an IDAT chunk, so the IDAT
    chunks of a compile that goes on are contiguous.  Once an IDAT chunk
    has been processed, a chunk of any other type (its keyword followed by
    the opening brace) makes the compile fail at that chunk, before its
    body is read, and with another error than "IDAT chunks must be
    contiguous".  Each
    IDAT chunk that is processed appends one [png_write_chunk] with the
    bytes collected from its body to the calls made so far, so the
    payloads go to libpng in the order of the chunks. *)
Theorem raw_chunks_contiguous {P : Platform} fin h prev w :
  reached fin h prev w ->
  (forall h1 c h2, h = h1 ++ IDAT :: c :: h2 -> c = IDAT)
  /\ (forall w1 w',
        get_token w = Ok true w1 ->
        chunk_step prev w1 = Ok (Z.of_nat IDAT) w' ->
        exists w2 w3 n bits w4,
          get_token w1 = Ok true w2
          /\ collect_data false w3 = Ok (n, bits) w4
          /\ yyin w3 = yyin w2
          /\ png_calls w'
             = png_calls w
               ++ (if cnt IDAT w =? 0 then [png_write_info (info_ptr w)] else [])
               ++ [png_write_chunk "IDAT" (take n bits)])
  /\ (In IDAT h ->
      forall w1 w2 chunk,
        get_token w = Ok true w1 ->
        find_chunk (token_buffer w1) properties0 0 = Some chunk ->
        chunk <> IDAT ->
        get_token w1 = Ok true w2 -> token_buffer w2 = "{" ->
        exists msg,
          pngc fin = Fatal (linenum w2) msg
          /\ msg <> "IDAT chunks must be contiguous").
Proof.
  intros Hr. split; [|split].
  - intros h1 c h2 ->.
    apply steps_app_inv in Hr as (p1 & w1 & Ha & Hb).
    inversion Hb as [|? ? w1' ? w2 ? ? ? Hg Hs Hrest]; subst.
    apply reached_counts in Ha as (Htab & _ & Hcnt).
    destruct (table_get_token _ _ _ Hg) as [Htab1 Hcnt1]. specialize (Htab1 Htab).
    apply chunk_step_counts in Hs as (_ & Hl & Hn & Hm & Hc).
    apply only_IDAT_after in Hrest.
    + inversion Hrest; subst. reflexivity.
    + rewrite Hc, Hcnt1, Hcnt.
      pose proof (occ_nonneg IDAT h1). pose proof (occ_nonneg IMAGE h1).
      repeat case_decide; try lia; exfalso; intuition congruence.
    + discriminate.
    + rewrite Hl. apply table_length. assumption.
  - intros w1 w' Hg Hs.
    apply IDAT_step_forwards in Hs as (w2 & w3 & n & bits & w4 & H1 & H2 & H3 & H4).
    destruct (table_get_token _ _ _ Hg) as [_ Hcnt].
    apply get_token_ok in Hg as (_ & Hi & Hcalls & _).
    rewrite Hcnt, Hi, Hcalls in H4.
    exists w2, w3, n, bits, w4. auto.
  - intros Hin w1 w2 chunk Hg1 Hf Hne Hg2 Ht2.
    pose proof (reached_counts _ _ _ _ Hr) as (Htab & Hprev & Hcnt).
    destruct (table_get_token _ _ _ Hg1) as [Htab1 Hcnt1]. specialize (Htab1 Htab).
    destruct (table_get_token _ _ _ Hg2) as [Htab2 Hcnt2]. specialize (Htab2 Htab1).
    assert (Hpos : 0 < cnt IDAT w2).
    { rewrite Hcnt2, Hcnt1, Hcnt. apply occ_pos in Hin.
      pose proof (occ_nonneg IMAGE h). case_decide; lia. }
    assert (Hp : prev <> NONE).
    { rewrite Hprev. assert (Hne' : h <> []) by (intros ->; contradiction).
      pose proof (prev_after_chunk h Hne'). unfold NONE in *. lia. }
    assert (Hlt : (chunk < 26)%nat).
    { apply find_chunk_bound in Hf. simpl in Hf. lia. }
    destruct (switch_after_IDAT chunk prev w2 Hpos Hp Hne Hlt) as (msg & Hs & Hm).
    assert (Hstep : exists msg, chunk_step prev w1 = Fatal (linenum w2) msg
                                /\ msg <> "IDAT chunks must be contiguous").
    { rewrite (chunk_step_dispatch prev w1 chunk w2); auto.
      2:{ rewrite (table_find _ _ Htab1). exact Hf. }
      destruct (negb _ && _).
      - eexists; split; [reflexivity|discriminate].
      - exists msg. unfold bind. rewrite Hs. auto. }
    destruct Hstep as (msg' & Hstep & Hm').
    exists msg'. split; [|exact Hm'].
    exact (pngc_at_fatal _ _ _ _ _ _ _ Hr Hg1 Hstep).
Qed.

Lemma raw_chunks_contiguous_witness :
  (forall h1 c h2, [IHDR; IDAT; IDAT] = h1 ++ IDAT :: c :: h2 -> c = IDAT)
  /\ exists msg,
       @pngc example_platform
         "IHDR { width 1 height 1 } IDAT { 00 } IDAT { 01 } sRGB { 0 } IDAT { 02 }"
       = Fatal 0 msg
       /\ msg <> "IDAT chunks must be contiguous".
Proof.
  edestruct (@raw_chunks_contiguous example_platform
               "IHDR { width 1 height 1 } IDAT { 00 } IDAT { 01 } sRGB { 0 } IDAT { 02 }"
               [IHDR; IDAT; IDAT]) as (Ha & _ & Hb); [run_chunks|].
  split; [exact Ha|].
  edestruct Hb as (msg & E & Hm);
    [unfold IHDR, IDAT; simpl; auto|run_token|vm_compute; reflexivity
    |discriminate|run_token|vm_compute; reflexivity|].
  exists msg. split; [|exact Hm]. rewrite E. vm_compute. reflexivity.
Defined.

(** C6 as stated fails: with another chunk between two IDAT chunks the
    compile does fail, but at the chunk in between, with the error of the
    first check that this chunk meets, and before the second IDAT is
    reached; two adjacent IDAT chunks compile and their payloads are
    written in order. *)
Lemma interleaved_chunk_error :
  @pngc example_platform "IHDR { width 1 height 1 } IDAT { 00 } sRGB { 0 } IDAT { 01 }"
  = Fatal 0 "sRGB chunk must come before PLTE and IDAT"
  /\ @pngc example_platform "IHDR { width 1 height 1 } IDAT { 00 } tIME { } IDAT { 01 }"
     = Fatal 0 "FIXME: tIME chunk type is not handled yet"
  /\ chunks_written
       (@pngc example_platform "IHDR { width 1 height 1 } IDAT { 0010 } IDAT { 0020 }")
     = Some (0, [("IDAT", [0; 1]); ("IDAT", [0; 2])]).
Proof. repeat split; vm_compute; reflexivity. Qed.

(** ** C7: the size of the image *)

(** What a compile that returns leaves in the header fields. *)
Definition header_of (o : outcome Z) : option (Z * Z * Z) :=
  match o with
  | Ok r w => Some (r, height (info_ptr w), width (info_ptr w))
  | _ => None
  end.

(** C7.  [long_numeric] refuses the one value 2^31-1 and nothing else: the
    tokens 2147483648 and 4294967295, outside the range 0..2^31-1 that its
    comment gives, are accepted, and a header with such a height and width
    compiles. *)
Theorem long_numeric_range_unchecked (w : world) :
  long_numeric true (with_token "2147483648" w)
  = Ok 2147483648 (with_token "2147483648" w)
  /\ long_numeric true (with_token "4294967295" w)
     = Ok 4294967295 (with_token "4294967295" w)
  /\ long_numeric true (with_token "2147483647" w)
     = Fatal (linenum w) "invalid or out of range long constant"
  /\ long_numeric true (with_token "2147483646" w)
     = Ok 2147483646 (with_token "2147483646" w)
  /\ header_of
       (@pngc example_platform
          "IHDR { height 2147483648 width 4294967295 } IDAT { 00 }")
     = Some (0, 2147483648, 4294967295).
Proof. repeat split; vm_compute; reflexivity. Qed.

(** The other half of C7 holds: a header that returns has a height and a
    width that are not zero. *)
Lemma header_needs_size w u w' :
  compile_IHDR w = Ok u w' ->
  height (info_ptr w') <> 0 /\ width (info_ptr w') <> 0.
Proof.
  unfold compile_IHDR. intros H.
  do 5 (apply bind_ok in H as (? & ? & _ & H)).
  apply bind_ok in H as (i & w1 & Hi & H).
  apply get_ok in Hi as [-> ->].
  match type of H with
  | context [height (info_ptr ?x)] =>
      destruct (Z.eqb_spec (height (info_ptr x)) 0); [discriminate|];
      destruct (Z.eqb_spec (width (info_ptr x)) 0); [discriminate|]
  end.
  injection H as _ <-. split; assumption.
Qed.

(** ** C5: the palette *)

Section Palette.

Context {P : Platform}.
Local Open Scope sng_scope.

(** [reads w ts w']: the next tokens of the input of [w] are [ts], and
    reading them leads to [w']. *)
Inductive reads : world -> list string -> world -> Prop :=
| reads_nil w : reads w [] w
| reads_cons w w1 t ts w' :
    get_token w = Ok true w1 -> token_buffer w1 = t ->
    reads w1 ts w' -> reads w (t :: ts) w'.

(** A token that [byte_numeric] accepts: [strtoul] reads all of it and
    the value is at most 255. *)
Definition byte_token (t : string) : bool :=
  negb (nonempty (snd (strtoul t))) && (fst (strtoul t) <=? 255).

Definition byte_of (t : string) : Z := u8 (fst (strtoul t)).

(** The tokens of one palette entry, and the entry they stand for. *)
Definition triple_tokens (c : string * string * string) : list string :=
  let '(r, g, b) := c in ["("; r; ","; g; ","; b; ")"].

Definition triple_color (c : string * string * string) : png_color :=
  let '(r, g, b) := c in Build_png_color (byte_of r) (byte_of g) (byte_of b).

Definition triple_ok (c : string * string * string) : bool :=
  let '(r, g, b) := c in byte_token r && byte_token g && byte_token b.

Lemma byte_numeric_ok w :
  byte_token (token_buffer w) = true ->
  byte_numeric true w = Ok (byte_of (token_buffer w)) w.
Proof.
  unfold byte_token, byte_numeric, byte_of, bind. cbn [negb get].
  destruct (strtoul (token_buffer w)) as [v rest]. cbn [fst snd].
  intros H. apply andb_prop in H as [H1 H2].
  apply negb_true_iff in H1. rewrite H1. cbn [orb].
  apply Z.leb_le in H2. destruct (Z.ltb_spec 255 v); [lia|]. reflexivity.
Qed.

Lemma require_ok w w1 s :
  get_token w = Ok true w1 -> token_buffer w1 = s ->
  require_or_die s w = Ok tt w1.
Proof.
  intros Hg Ht. unfold require_or_die, bind. rewrite Hg. cbn [negb].
  unfold token_equals. cbn [get]. rewrite Ht, String.eqb_refl. reflexivity.
Qed.

Lemma inner_token w w1 :
  get_token w = Ok true w1 ->
  get_inner_token w = Ok (negb (String.eqb "}" (token_buffer w1))) w1.
Proof.
  intros Hg. unfold get_inner_token, bind. rewrite Hg. reflexivity.
Qed.

Lemma set_entry_ok f n (pal : list png_color) w :
  (n < length pal)%nat -> set_entry f n pal w = Ok (alter f n pal) w.
Proof.
  intros H. unfold set_entry.
  destruct (Nat.ltb_spec n (length pal)); [reflexivity|lia].
Qed.

Lemma PLTE_triples cols : forall fuel (pal : list png_color) n w w',
  length pal = 256%nat -> (n + length cols <= 256)%nat ->
  (length cols < fuel)%nat ->
  forallb triple_ok cols = true ->
  reads w (concat (map triple_tokens cols) ++ ["}"]) w' ->
  exists pal',
    PLTE_loop fuel pal n w = Ok (pal', (n + length cols)%nat) w'
    /\ length pal' = 256%nat
    /\ take (n + length cols) pal' = take n pal ++ map triple_color cols.
Proof.
  induction cols as [|[[r g] b] cols IH]; intros fuel pal n w w' Hl Hn Hf Hok Hr.
  - destruct fuel as [|fuel]; [simpl in Hf; lia|].
    simpl in Hr. inversion Hr as [|? w1 ? ? ? Hg Ht Hr']; subst.
    inversion Hr'; subst.
    exists pal. cbn [PLTE_loop]. unfold bind.
    rewrite (inner_token _ _ Hg), Ht. cbn.
    rewrite Nat.add_0_r, app_nil_r. auto.
  - destruct fuel as [|fuel]; [simpl in Hf; lia|].
    cbn [forallb triple_ok] in Hok.
    apply andb_prop in Hok as [Hc Hok].
    apply andb_prop in Hc as [Hc Hb]. apply andb_prop in Hc as [Hr0 Hg0].
    cbn [map concat triple_tokens app] in Hr.
    inversion Hr as [|? w1 ? ? ? G1 T1 R1]; subst.
    inversion R1 as [|? w2 ? ? ? G2 T2 R2]; subst.
    inversion R2 as [|? w3 ? ? ? G3 T3 R3]; subst.
    inversion R3 as [|? w4 ? ? ? G4 T4 R4]; subst.
    inversion R4 as [|? w5 ? ? ? G5 T5 R5]; subst.
    inversion R5 as [|? w6 ? ? ? G6 T6 R6]; subst.
    inversion R6 as [|? w7 ? ? ? G7 T7 R7]; subst.
    cbn [length] in Hn, Hf.
    destruct (IH fuel
                (alter (fun c => Build_png_color (red c) (green c) (byte_of (token_buffer w6))) n
                   (alter (fun c => Build_png_color (red c) (byte_of (token_buffer w4)) (blue c)) n
                      (alter (fun c => Build_png_color (byte_of (token_buffer w2)) (green c) (blue c)) n pal)))
                (S n) w7 w') as (pal' & E & Hl' & Ht'); auto.
    { rewrite !length_alter. exact Hl. }
    { lia. }
    { lia. }
    exists pal'. cbn [PLTE_loop].
    unfold bind at 1. rewrite (inner_token _ _ G1), T1.
    cbn [String.eqb Ascii.eqb Bool.eqb negb].
    unfold bind at 1, token_equals. cbn [get]. rewrite T1.
    cbn [String.eqb Ascii.eqb Bool.eqb negb].
    unfold bind at 1. rewrite G2.
    unfold bind at 1. rewrite byte_numeric_ok by assumption.
    unfold bind at 1. rewrite set_entry_ok by lia.
    unfold bind at 1. rewrite (require_ok _ _ _ G3 T3).
    unfold bind at 1. rewrite G4.
    unfold bind at 1. rewrite byte_numeric_ok by assumption.
    unfold bind at 1. rewrite set_entry_ok by (rewrite !length_alter; lia).
    unfold bind at 1. rewrite (require_ok _ _ _ G5 T5).
    unfold bind at 1. rewrite G6.
    unfold bind at 1. rewrite byte_numeric_ok by assumption.
    unfold bind at 1. rewrite set_entry_ok by (rewrite !length_alter; lia).
    unfold bind at 1. rewrite (require_ok _ _ _ G7 T7).
    replace (n + length (((token_buffer w2, token_buffer w4), token_buffer w6) :: cols))%nat
      with (S n + length cols)%nat by (cbn [length]; lia).
    split; [exact E|]. split; [exact Hl'|].
    rewrite Ht'. cbn [map triple_color].
    destruct (lookup_lt_is_Some_2 pal n) as [c0 Hc0]; [lia|].
    erewrite take_S_r.
    2:{ rewrite !list_lookup_alter_eq, Hc0. reflexivity. }
    rewrite !take_alter_ge by lia. rewrite <- app_assoc. reflexivity.
Qed.

(** The other part of C5 that holds: a channel whose token [strtoul]
    does not read entirely, or whose value is above 255, is fatal. *)
Lemma byte_numeric_rejects w :
  byte_token (token_buffer w) = false ->
  byte_numeric true w = Fatal (linenum w) "invalid or out of range byte constant".
Proof.
  unfold byte_token, byte_numeric, bind. cbn [negb get].
  destruct (strtoul (token_buffer w)) as [v rest]. cbn [fst snd].
  intros H. apply andb_false_iff in H as [H|H].
  - apply negb_false_iff in H. rewrite H. reflexivity.
  - apply Z.leb_gt in H. destruct (Z.ltb_spec 255 v); [|lia].
    rewrite orb_true_r. reflexivity.
Qed.

Lemma reads_length w ts w' :
  reads w ts w' -> pushed w = false ->
  (length ts + String.length (yyin w') <= String.length (yyin w))%nat.
Proof.
  induction 1 as [w|w w1 t ts w' Hg _ _ IH]; intros Hp; [simpl; lia|].
  apply get_token_ok in Hg as (_ & _ & _ & _ & Hp1 & _ & Hlt).
  specialize (Hlt Hp eq_refl). specialize (IH Hp1). simpl. lia.
Qed.

(** The part of C5 that holds: a palette chunk of at most 256 entries
    whose channels are tokens that [strtoul] reads entirely, with values
    up to 255, gives [png_set_PLTE] these entries, in the order of the
    input. *)
Lemma palette_in_order w w' cols :
  pushed w = false ->
  (length cols <= 256)%nat ->
  forallb triple_ok cols = true ->
  reads w (concat (map triple_tokens cols) ++ ["}"]) w' ->
  compile_PLTE w
  = Ok tt
      (with_info
         (set_palette (map triple_color cols) (Z.of_nat (length cols)) (info_ptr w'))
         (with_call (png_set_PLTE (map triple_color cols) (length cols)) w')).
Proof.
  intros Hp Hn Hok Hr.
  pose proof (reads_length _ _ _ Hr Hp) as Hlen.
  rewrite length_app in Hlen. cbn [length] in Hlen.
  assert (Hc : (length cols <= length (concat (map triple_tokens cols)))%nat).
  { clear. induction cols as [|[[r g] b] cols IH]; simpl; lia. }
  destruct (PLTE_triples cols (fuel_of w) (replicate 256 (Build_png_color 0 0 0))
              0 w w') as (pal' & E & _ & Ht);
    [apply length_replicate|simpl; lia|unfold fuel_of; lia|assumption
    |assumption|].
  unfold compile_PLTE, bind. cbn [get]. rewrite E.
  cbn [Nat.add] in Ht. cbn [take app] in Ht. cbn [Nat.add]. rewrite Ht.
  reflexivity.
Qed.

End Palette.

Fixpoint repeat_string (n : nat) (s : string) : string :=
  match n with
  | O => EmptyString
  | S n => s +:+ repeat_string n s
  end.

(** What [compile_PLTE] hands to [png_set_PLTE]. *)
Definition palette_of (o : outcome unit) : option (list png_color * Z) :=
  match o with
  | Ok _ w => Some (palette (info_ptr w), num_palette (info_ptr w))
  | _ => None
  end.

(** C5.  Two inputs on which [compile_PLTE] does not do what the claim
    says.  A channel given as an empty quoted string is no number, yet
    [byte_numeric] accepts it as 0 ([strtoul] reads nothing and [*vp] is
    the terminator).  And the 257th triple of a palette chunk is stored
    at [palette[256]], outside the array of 256 entries: there is no
    bound on [ncolors].  With 256 triples the palette has its 256 entries. *)
Theorem palette_unchecked_cases :
  palette_of (compile_PLTE (world0 "( '' , 0 , 0 ) }"))
  = Some ([Build_png_color 0 0 0], 1)
  /\ compile_PLTE (world0 (repeat_string 257 "(1,2,3)" +:+ "}"))
     = Undefined "palette[ncolors]"
  /\ palette_of (compile_PLTE (world0 (repeat_string 256 "(1,2,3)" +:+ "}")))
     = Some (replicate 256 (Build_png_color 1 2 3), 256)
  /\ compile_PLTE (world0 "( 256 , 0 , 0 ) }")
     = Fatal 0 "invalid or out of range byte constant"
  /\ compile_PLTE (world0 "( x , 0 , 0 ) }")
     = Fatal 0 "invalid or out of range byte constant".
Proof. repeat split; vm_compute; reflexivity. Qed.

(** ** C4: the size of the image data *)

Section ImageSize.

Context {P : Platform}.
Local Open Scope sng_scope.

(** The loop of [collect_data] never leaves the block it starts with: the
    test before [xrealloc] is false as long as the count is within the
    block, and a store beyond it ends the model. *)
Lemma collect_loop_inside pix inp :
  forall a (bits : list Z) quanta nbits ocount n bits' rest a',
    collect_loop pix inp a bits quanta nbits ocount = Collected n bits' rest a' ->
    length bits = (quanta * MEMORY_QUANTUM)%nat ->
    (nbits <= length bits)%nat ->
    (n <= length bits')%nat /\ length bits' = length bits.
Proof.
  induction inp as [|c inp IH];
    intros a bits quanta nbits ocount n bits' rest a' H Hl Hn;
    cbn [collect_loop] in H; [discriminate|].
  destruct (code c =? 0); [injection H as <- <- _ _; auto|].
  destruct (Ascii.eqb c "}"); [injection H as <- <- _ _; auto|].
  destruct (isspace c); [eapply IH; eauto|].
  assert (Hg : (quanta * MEMORY_QUANTUM <? nbits)%nat = false)
    by (apply Nat.ltb_ge; lia).
  rewrite Hg in H. cbv zeta in H.
  destruct pix.
  - destruct (pixel_value c); [|discriminate].
    unfold store in H. destruct (Nat.ltb_spec nbits (length bits)); [|discriminate].
    apply IH in H; rewrite ?length_insert in *; auto.
  - destruct (hex_value c); [|discriminate].
    destruct (Nat.odd ocount).
    + unfold store in H.
      destruct (Nat.ltb_spec nbits (length bits)); [|discriminate].
      apply IH in H; rewrite ?length_insert in *; auto.
    + destruct (bits !! nbits) eqn:E; [|discriminate].
      apply lookup_lt_Some in E.
      apply IH in H; rewrite ?length_insert in *; auto.
Qed.

Lemma collect_data_count pix w n bits w' :
  collect_data pix w = Ok (n, bits) w' ->
  (n <= 1024)%nat /\ linenum w' = linenum w.
Proof.
  unfold collect_data.
  destruct (collect_loop _ _ _ _ _ _ _) as [| | |n' bits' rest a'] eqn:E;
    try discriminate.
  intros [= <- <- <-].
  apply collect_loop_inside in E as [Hn Hl].
  - rewrite length_malloc in Hl. rewrite Hl in Hn. split; [exact Hn|reflexivity].
  - rewrite length_malloc. reflexivity.
  - lia.
Qed.

(** The loop over the rows, started as [compile_IMAGE] starts it: it
    returns when the block has a slot for every row, and stores outside
    the block otherwise. *)
Lemma rows_loop_spec h slots w :
  0 <= slots ->
  rows_loop (S (Z.to_nat slots)) 0 h slots w
  = if h <=? slots then Ok tt w else Undefined "rowpointers[i]".
Proof.
  intros Hs.
  enough (H : forall fuel i, (Z.to_nat (slots - i) < fuel)%nat -> i <= slots ->
                rows_loop fuel i h slots w
                = if h <=? slots then Ok tt w else Undefined "rowpointers[i]")
    by (apply H; lia).
  clear Hs. induction fuel as [|fuel IH]; intros i Hf Hi; [lia|].
  cbn [rows_loop].
  destruct (Z.ltb_spec i h); cbn [negb].
  - destruct (Z.ltb_spec i slots); cbn [negb].
    + apply IH; lia.
    + destruct (Z.leb_spec h slots); [lia|reflexivity].
  - destruct (Z.leb_spec h slots); [reflexivity|lia].
Qed.

(** The number of pointers in the block that [compile_IMAGE] asks for. *)
Definition row_slots (i : png_info) : Z :=
  u32 (sizeof_pointer * height i) / sizeof_pointer.

(** For a height below 2^30 the block holds a pointer for every row. *)
Lemma row_slots_small i : 0 <= height i < 1073741824 -> row_slots i = height i.
Proof.
  intros H. unfold row_slots, u32, sizeof_pointer.
  rewrite Z.mod_small by lia. rewrite Z.mul_comm. apply Z.div_mul. lia.
Qed.

Lemma row_slots_nonneg i : 0 <= row_slots i.
Proof.
  unfold row_slots, u32, sizeof_pointer. apply Z.div_pos; [|lia].
  apply Z.mod_pos_bound. lia.
Qed.

(** [compile_IMAGE] once the body has been collected. *)
Lemma compile_IMAGE_run (w : world) (n : nat) (bits : list Z) (w' : world) :
  collect_data (sample_per_char_of (info_ptr w)) w = Ok (n, bits) w' ->
  compile_IMAGE w
  = let i := info_ptr w in
    if negb (u32 (Z.of_nat n) =? image_size_of i)
    then Fatal (linenum w') "size of IMAGE doesn't match height * width in IHDR"
    else if negb (malloc_ok (S (allocs w')) (u32 (sizeof_pointer * height i)))
    then Fatal (linenum w') "out of memory"
    else if negb (height i <=? row_slots i) then Undefined "rowpointers[i]"
    else Ok tt
           (with_call (png_write_image (take n bits) (height i) (width i))
              (with_allocs (S (allocs w')) (with_call png_set_packing w'))).
Proof.
  intros Hc. unfold compile_IMAGE, bind. cbn [get]. rewrite Hc. cbv zeta.
  destruct (negb (_ =? _)); [reflexivity|].
  cbn [call modify]. unfold xalloc. cbn [with_call allocs linenum].
  destruct (malloc_ok _ _); cbn [negb]; [|reflexivity].
  fold (row_slots (info_ptr w)). rewrite rows_loop_spec by apply row_slots_nonneg.
  destruct (_ <=? _); reflexivity.
Qed.

(** The size of the image data in the words of the specification. *)
Definition image_size_spec (i : png_info) : Z :=
  width i * height i * sample_size_of i / 8.

(** C4.  The code compares the number of bytes collected with
    [width * height * (sample_size / 8)], where the division is the
    integer division of C and comes first.  For an image whose samples
    have fewer than 8 bits (bit depth 1, 2 or 4 of a grayscale image, bit
    depth 1 or 2 with an alpha channel, and so on) the factor is 0, and so
    is the size expected: whatever the width and the height, the compile
    fails with the size error exactly when the body of the IMAGE holds any
    byte at all. *)
Theorem image_size_divides_first (w : world) (n : nat) (bits : list Z) (w' : world) :
  collect_data (sample_per_char_of (info_ptr w)) w = Ok (n, bits) w' ->
  0 <= sample_size_of (info_ptr w) < 8 ->
  (compile_IMAGE w
   = Fatal (linenum w') "size of IMAGE doesn't match height * width in IHDR"
   <-> n <> 0%nat).
Proof.
  intros Hc Hs.
  pose proof (collect_data_count _ _ _ _ _ Hc) as [Hn _].
  rewrite (compile_IMAGE_run _ _ _ _ Hc). cbv zeta.
  assert (Hsize : image_size_of (info_ptr w) = 0).
  { unfold image_size_of. rewrite Z.quot_small by lia.
    unfold u32 at 3. rewrite Z.mod_0_l by lia. rewrite Z.mul_0_r. reflexivity. }
  assert (Hu : u32 (Z.of_nat n) = Z.of_nat n).
  { unfold u32. apply Z.mod_small. lia. }
  rewrite Hsize, Hu.
  destruct (Z.eqb_spec (Z.of_nat n) 0) as [E|E]; cbn [negb].
  - split; [|lia].
    destruct (negb (malloc_ok _ _)); [discriminate|].
    destruct (negb (_ <=? _)); discriminate.
  - split; [lia|reflexivity].
Qed.

End ImageSize.

(** A 2 by 2 grayscale image of bit depth 4: width * height * sample_size
    / 8 is 2, and an IMAGE of 2 bytes is refused while an IMAGE of no byte
    at all compiles.  A second effect of the same expression, which is
    computed in [png_uint_32]: for a 65536 by 65536 image of bit depth 8
    the product is 2^32, and an IMAGE of no byte passes as well. *)
Lemma image_size_divides_first_witness :
  @image_size_spec example_platform
    (set_width 2 (set_height 2 (set_bit_depth 4 info0))) = 2
  /\ @compile_IMAGE example_platform
       (with_info (set_width 2 (set_height 2 (set_bit_depth 4 info0)))
          (world0 "00 }"))
     = Fatal 0 "size of IMAGE doesn't match height * width in IHDR"
  /\ @pngc example_platform "IHDR { width 2 height 2 bitdepth 4 } IMAGE { 00 }"
     = Fatal 0 "size of IMAGE doesn't match height * width in IHDR"
  /\ chunks_written
       (@pngc example_platform "IHDR { width 2 height 2 bitdepth 4 } IMAGE { }")
     = Some (0, [])
  /\ @image_size_spec example_platform
       (set_width 65536 (set_height 65536 (set_bit_depth 8 info0)))
     = 4294967296
  /\ chunks_written
       (@pngc example_platform "IHDR { width 65536 height 65536 } IMAGE { }")
     = Some (0, []).
Proof.
  split; [reflexivity|]. split; [|repeat split; vm_compute; reflexivity].
  set (w := with_info (set_width 2 (set_height 2 (set_bit_depth 4 info0)))
              (world0 "00 }")).
  assert (Hc : exists bits w',
             @collect_data example_platform
               (@sample_per_char_of example_platform (info_ptr w)) w
             = Ok (2%nat, bits) w' /\ linenum w' = 0).
  { vm_compute. eexists _, _. split; reflexivity. }
  destruct Hc as (bits & w' & Hc & Hl). rewrite <- Hl.
  apply (proj2 (@image_size_divides_first example_platform w 2 bits w' Hc
                  ltac:(vm_compute; split; [discriminate|reflexivity]))).
  discriminate.
Defined.

(** * Further properties of the code *)

(** ** The tokens of [get_token] *)

(** A character that [get_token] puts into an unquoted token once the
    token has begun: no white space, no punctuation other than the dot;
    an ASCII character other than NUL. *)
Definition token_char (c : ascii) : bool :=
  negb (isspace c) && negb (ispunct c && negb (Ascii.eqb c "."))
  && (0 <? code c) && (code c <? 128).

(** A character that begins an unquoted token: no white space and no
    punctuation at all. *)
Definition token_head (c : ascii) : bool :=
  negb (isspace c) && negb (ispunct c) && (0 <? code c) && (code c <? 128).

(** A character that ends an unquoted token: white space, which is
    consumed, or punctuation other than the dot, which is put back. *)
Definition token_end (c : ascii) : bool :=
  isspace c || (ispunct c && negb (Ascii.eqb c ".")).

(** A character that goes into a token quoted by [q]. *)
Definition quoted_char (q c : ascii) : bool :=
  negb (Ascii.eqb c q) && negb (Ascii.eqb c newline) && (0 <? code c).

Definition is_quote (c : ascii) : bool := Ascii.eqb c "'" || Ascii.eqb c dquote.

(** The number of newlines in [s]. *)
Definition newlines (s : string) : Z :=
  Z.of_nat (count_chars (fun c => Ascii.eqb c newline) s).

Lemma append_nil (s : string) : "" +:+ s = s.
Proof. reflexivity. Qed.

Lemma append_cons c (s t : string) : String c s +:+ t = String c (s +:+ t).
Proof. reflexivity. Qed.

Lemma token_char_spec c :
  token_char c = true ->
  isspace c = false /\ ispunct c && negb (Ascii.eqb c ".") = false
  /\ (code c =? 0) = false /\ Ascii.eqb c newline = false.
Proof. each_char c. Qed.

Lemma token_head_spec c :
  token_head c = true ->
  isspace c = false /\ ispunct c = false /\ Ascii.eqb c "#" = false
  /\ is_quote c = false /\ (code c =? 0) = false
  /\ Ascii.eqb c newline = false.
Proof. each_char c. Qed.

Lemma token_end_spec c :
  token_end c = true ->
  if isspace c then True
  else ispunct c && negb (Ascii.eqb c ".") = true /\ Ascii.eqb c newline = false.
Proof. each_char c. Qed.

Lemma quoted_char_spec q c :
  quoted_char q c = true ->
  Ascii.eqb c q = false /\ Ascii.eqb c newline = false /\ (code c =? 0) = false.
Proof.
  unfold quoted_char. intros H.
  apply andb_prop in H as [H H3]. apply andb_prop in H as [H1 H2].
  apply negb_true_iff in H1, H2. repeat split; auto.
  apply Z.ltb_lt in H3. apply Z.eqb_neq. lia.
Qed.

Lemma c_string_plain s :
  all_chars (fun c => negb (code c =? 0)) s = true -> c_string s = s.
Proof.
  induction s as [|c s IH]; cbn [all_chars c_string]; [reflexivity|].
  intros H. apply andb_prop in H as [H1 H2]. apply negb_true_iff in H1.
  rewrite H1, IH; auto.
Qed.

Lemma all_chars_impl (p q : ascii -> bool) s :
  (forall c, p c = true -> q c = true) ->
  all_chars p s = true -> all_chars q s = true.
Proof.
  intros Hpq. induction s as [|c s IH]; cbn [all_chars]; [auto|].
  intros H. apply andb_prop in H as [H1 H2]. rewrite (Hpq _ H1), IH; auto.
Qed.

(** The loop of an unquoted token on the characters of a token followed
    by a character that ends it. *)
Lemma unquoted_chars t : forall n line c rest,
  all_chars token_char t = true -> token_end c = true ->
  (n + String.length t <= 81)%nat ->
  unquoted (t +:+ String c rest) n line
  = ScanToken t (if isspace c then rest else String c rest)
      (if Ascii.eqb c newline then line + 1 else line).
Proof.
  induction t as [|a t IH]; intros n line c rest Ht Hc Hn.
  - rewrite append_nil; cbn [unquoted]. apply token_end_spec in Hc.
    destruct (isspace c); [reflexivity|].
    destruct Hc as [-> ->]. reflexivity.
  - cbn [all_chars] in Ht. apply andb_prop in Ht as [Ha Ht].
    destruct (token_char_spec _ Ha) as (Hs & Hp & _ & _).
    rewrite ?append_cons in *; cbn [unquoted String.length] in *. rewrite Hs, Hp.
    destruct (Nat.leb_spec 81 n); [lia|].
    rewrite IH by (auto; lia). reflexivity.
Qed.

(** The same loop when the input ends inside the token. *)
Lemma unquoted_eof t : forall n line,
  all_chars token_char t = true -> (n + String.length t <= 81)%nat ->
  unquoted t n line = ScanEOF.
Proof.
  induction t as [|a t IH]; intros n line Ht Hn; [reflexivity|].
  cbn [all_chars] in Ht. apply andb_prop in Ht as [Ha Ht].
  destruct (token_char_spec _ Ha) as (Hs & Hp & _ & _).
  cbn [unquoted String.length] in *. rewrite Hs, Hp.
  destruct (Nat.leb_spec 81 n); [lia|].
  rewrite IH by (auto; lia). reflexivity.
Qed.

(** The same loop on more characters than the buffer takes. *)
Lemma unquoted_long t : forall n line rest,
  all_chars token_char t = true -> (n <= 81 < n + String.length t)%nat ->
  unquoted (t +:+ rest) n line = ScanFatal "token too long".
Proof.
  induction t as [|a t IH]; intros n line rest Ht Hn.
  - simpl in Hn. lia.
  - cbn [all_chars] in Ht. apply andb_prop in Ht as [Ha Ht].
    destruct (token_char_spec _ Ha) as (Hs & Hp & _ & _).
    rewrite ?append_cons in *; cbn [unquoted String.length] in *. rewrite Hs, Hp.
    destruct (Nat.leb_spec 81 n); [reflexivity|].
    rewrite IH by (auto; lia). reflexivity.
Qed.

Lemma quoted_chars q t : forall n line rest,
  all_chars (quoted_char q) t = true ->
  (n + String.length t <= 81)%nat ->
  quoted q (t +:+ String q rest) n line = ScanToken t rest line.
Proof.
  induction t as [|a t IH]; intros n line rest Ht Hn.
  - rewrite append_nil; cbn [quoted]. rewrite Ascii.eqb_refl. reflexivity.
  - cbn [all_chars] in Ht. apply andb_prop in Ht as [Ha Ht].
    destruct (quoted_char_spec _ _ Ha) as (Hq & Hl & _).
    rewrite ?append_cons in *; cbn [quoted String.length] in *. rewrite Hq, Hl.
    destruct (Nat.leb_spec 81 n); [lia|].
    rewrite IH by (auto; lia). reflexivity.
Qed.

Lemma quoted_runaway q t : forall n line rest,
  all_chars (quoted_char q) t = true -> Ascii.eqb newline q = false ->
  (n + String.length t <= 81)%nat ->
  quoted q (t +:+ String newline rest) n line = ScanFatal "runaway string".
Proof.
  induction t as [|a t IH]; intros n line rest Ht Hq Hn.
  - rewrite append_nil; cbn [quoted]. rewrite Hq, Ascii.eqb_refl. reflexivity.
  - cbn [all_chars] in Ht. apply andb_prop in Ht as [Ha Ht].
    destruct (quoted_char_spec _ _ Ha) as (Hq' & Hl & _).
    rewrite ?append_cons in *; cbn [quoted String.length] in *. rewrite Hq', Hl.
    destruct (Nat.leb_spec 81 n); [lia|].
    rewrite IH by (auto; lia). reflexivity.
Qed.

Lemma quoted_eof q t : forall n line,
  all_chars (quoted_char q) t = true -> (n + String.length t <= 81)%nat ->
  quoted q t n line = ScanEOF.
Proof.
  induction t as [|a t IH]; intros n line Ht Hn; [reflexivity|].
  cbn [all_chars] in Ht. apply andb_prop in Ht as [Ha Ht].
  destruct (quoted_char_spec _ _ Ha) as (Hq' & Hl & _).
  cbn [quoted String.length] in *. rewrite Hq', Hl.
  destruct (Nat.leb_spec 81 n); [lia|].
  rewrite IH by (auto; lia). reflexivity.
Qed.

Lemma quoted_long q t : forall n line rest,
  all_chars (quoted_char q) t = true -> (n <= 81 < n + String.length t)%nat ->
  quoted q (t +:+ rest) n line = ScanFatal "string token too long".
Proof.
  induction t as [|a t IH]; intros n line rest Ht Hn.
  - simpl in Hn. lia.
  - cbn [all_chars] in Ht. apply andb_prop in Ht as [Ha Ht].
    destruct (quoted_char_spec _ _ Ha) as (Hq' & Hl & _).
    rewrite ?append_cons in *; cbn [quoted String.length] in *. rewrite Hq', Hl.
    destruct (Nat.leb_spec 81 n); [reflexivity|].
    rewrite IH by (auto; lia). reflexivity.
Qed.


(** [get_token] with no token pushed back, spelled out. *)
Lemma get_token_fresh w inp line :
  pushed w = false ->
  get_token (with_input inp line w)
  = match skip_blanks false inp line with
    | (None, line) => Ok false (with_input "" line w)
    | (Some (c, r), line) =>
        match (if is_quote c then quoted c r 0 line
               else if negb (ispunct c) then scan_cons c (unquoted r 1 line)
               else ScanToken (String c "") r line) with
        | ScanEOF => Ok false (with_input "" line w)
        | ScanFatal msg => Fatal line msg
        | ScanToken tok rest line' =>
            if (81 <=? String.length tok)%nat
            then Undefined "token_buffer[81] = 0"
            else Ok true (with_token (c_string tok) (with_input rest line' w))
        end
    end.
Proof.
  intros Hp. unfold get_token. cbn [with_input pushed yyin linenum]. rewrite Hp.
  destruct (skip_blanks false inp line) as [[[c r]|] l]; [|reflexivity].
  unfold is_quote.
  destruct (if _ || _ then _ else _); try reflexivity.
Qed.

Lemma token_chars_plain t :
  all_chars token_char t = true ->
  all_chars (fun c => negb (code c =? 0)) t = true.
Proof.
  apply all_chars_impl. intros c H.
  destruct (token_char_spec _ H) as (_ & _ & -> & _). reflexivity.
Qed.

Lemma quoted_chars_plain q t :
  all_chars (quoted_char q) t = true ->
  all_chars (fun c => negb (code c =? 0)) t = true.
Proof.
  apply all_chars_impl. intros c H.
  destruct (quoted_char_spec _ _ H) as (_ & _ & ->). reflexivity.
Qed.

Lemma is_quote_spec q :
  is_quote q = true ->
  isspace q = false /\ Ascii.eqb q "#" = false /\ Ascii.eqb newline q = false
  /\ Ascii.eqb q newline = false.
Proof. each_char q. Qed.

(** The start of an unquoted token. *)
Lemma get_token_head w c0 r :
  pushed w = false -> token_head c0 = true ->
  get_token (with_input (String c0 r) (linenum w) w)
  = match scan_cons c0 (unquoted r 1 (linenum w)) with
    | ScanEOF => Ok false (with_input "" (linenum w) w)
    | ScanFatal msg => Fatal (linenum w) msg
    | ScanToken tok rest line' =>
        if (81 <=? String.length tok)%nat
        then Undefined "token_buffer[81] = 0"
        else Ok true (with_token (c_string tok) (with_input rest line' w))
    end.
Proof.
  intros Hp Hc. rewrite get_token_fresh by assumption.
  destruct (token_head_spec _ Hc) as (Hs & Hpu & Hh & Hq & _ & Hn).
  cbn [skip_blanks]. rewrite Hs, Hh, Hn, Hq, Hpu. reflexivity.
Qed.

(** The start of a quoted token. *)
Lemma get_token_quote w q r :
  pushed w = false -> is_quote q = true ->
  get_token (with_input (String q r) (linenum w) w)
  = match quoted q r 0 (linenum w) with
    | ScanEOF => Ok false (with_input "" (linenum w) w)
    | ScanFatal msg => Fatal (linenum w) msg
    | ScanToken tok rest line' =>
        if (81 <=? String.length tok)%nat
        then Undefined "token_buffer[81] = 0"
        else Ok true (with_token (c_string tok) (with_input rest line' w))
    end.
Proof.
  intros Hp Hq. rewrite get_token_fresh by assumption.
  destruct (is_quote_spec _ Hq) as (Hs & Hh & _ & Hn).
  cbn [skip_blanks]. rewrite Hs, Hh, Hn, Hq. reflexivity.
Qed.

(** X1.  An unquoted word of at most 80 characters that is followed by
    white space or by punctuation other than a dot is the next token.
    White space that ends it is consumed, and counted if it is a newline;
    punctuation that ends it is left in the input for the next call. *)
Theorem get_token_word w c0 t c rest :
  pushed w = false ->
  token_head c0 = true -> all_chars token_char t = true -> token_end c = true ->
  (String.length t < 80)%nat ->
  get_token (with_input (String c0 t +:+ String c rest) (linenum w) w)
  = Ok true
      (with_token (String c0 t)
         (with_input (if isspace c then rest else String c rest)
            (if Ascii.eqb c newline then linenum w + 1 else linenum w) w)).
Proof.
  intros Hp Hc0 Ht Hc Hn.
  rewrite append_cons, get_token_head by assumption.
  rewrite unquoted_chars by (auto; lia). cbn [scan_cons String.length].
  destruct (Nat.leb_spec 81 (S (String.length t))); [lia|].
  destruct (token_head_spec _ Hc0) as (_ & _ & _ & _ & Hz & _).
  cbn [c_string]. rewrite Hz, c_string_plain by (apply token_chars_plain; assumption).
  reflexivity.
Qed.

Lemma get_token_word_witness :
  get_token (world0 "height 32")
  = Ok true (with_token "height" (world0 "32"))
  /\ get_token (world0 "IDAT{00}")
     = Ok true (with_token "IDAT" (world0 "{00}")).
Proof.
  split.
  - apply (get_token_word (world0 "") "h" "eight" " " "32"); try reflexivity.
    simpl. lia.
  - apply (get_token_word (world0 "") "I" "DAT" "{" "00}"); try reflexivity.
    simpl. lia.
Defined.

(** X2.  A quoted string of at most 80 characters, none of them the
    quote that opened it or a newline, is the next token, white space,
    punctuation and the other quote included; the closing quote is
    consumed.  A newline before the closing quote is the fatal error
    "runaway string". *)
Theorem get_token_quoted w q t rest :
  pushed w = false -> is_quote q = true ->
  all_chars (quoted_char q) t = true -> (String.length t <= 80)%nat ->
  get_token (with_input (String q t +:+ String q rest) (linenum w) w)
  = Ok true (with_token t (with_input rest (linenum w) w))
  /\ get_token (with_input (String q t +:+ String newline rest) (linenum w) w)
     = Fatal (linenum w) "runaway string".
Proof.
  intros Hp Hq Ht Hn. rewrite !append_cons, !get_token_quote by assumption.
  destruct (is_quote_spec _ Hq) as (_ & _ & Hl & _).
  rewrite quoted_chars, quoted_runaway by (auto; lia).
  destruct (Nat.leb_spec 81 (String.length t)); [lia|].
  rewrite c_string_plain by (eapply quoted_chars_plain; eassumption).
  split; reflexivity.
Qed.

Lemma get_token_quoted_witness :
  get_token (world0 "'a (b), # c' 1")
  = Ok true (with_token "a (b), # c" (world0 " 1"))
  /\ get_token (world0 ("'a" +:+ String newline "b'")) = Fatal 0 "runaway string".
Proof.
  split.
  - apply (get_token_quoted (world0 "") "'" "a (b), # c" " 1"); try reflexivity.
    simpl. lia.
  - apply (get_token_quoted (world0 "") "'" "a" "b'"); try reflexivity.
    simpl. lia.
Defined.

(** X3.  [token_buffer] has 81 bytes and the loops of [get_token] test
    the pointer only before they store a character: a token of exactly 81
    characters fills the buffer, and the terminator is then stored
    outside it.  This holds for a word and for a quoted string. *)
Theorem token_of_81_characters w c0 t c q s rest :
  pushed w = false ->
  token_head c0 = true -> all_chars token_char t = true -> token_end c = true ->
  String.length t = 80%nat ->
  is_quote q = true -> all_chars (quoted_char q) s = true ->
  String.length s = 81%nat ->
  get_token (with_input (String c0 t +:+ String c rest) (linenum w) w)
  = Undefined "token_buffer[81] = 0"
  /\ get_token (with_input (String q s +:+ String q rest) (linenum w) w)
     = Undefined "token_buffer[81] = 0".
Proof.
  intros Hp Hc0 Ht Hc Hn Hq Hs Hm.
  rewrite !append_cons, get_token_head, get_token_quote by assumption.
  rewrite unquoted_chars, quoted_chars by (auto; lia).
  cbn [scan_cons String.length]. rewrite Hn, Hm. split; reflexivity.
Qed.

Lemma token_of_81_characters_witness :
  get_token (world0 (String "a" (repeat_string 80 "a") +:+ String " " "}"))
  = Undefined "token_buffer[81] = 0"
  /\ get_token (world0 (String "'" (repeat_string 81 "a") +:+ String "'" "}"))
     = Undefined "token_buffer[81] = 0".
Proof.
  apply (token_of_81_characters (world0 "") "a" (repeat_string 80 "a") " "
           "'" (repeat_string 81 "a") "}"); reflexivity.
Defined.


(** X4.  A token of more than 81 characters is a fatal error: "token too
    long" for a word, "string token too long" for a quoted string,
    whatever follows the first 82 characters. *)
Theorem token_too_long w c0 t q s rest :
  pushed w = false ->
  token_head c0 = true -> all_chars token_char t = true ->
  (80 < String.length t)%nat ->
  is_quote q = true -> all_chars (quoted_char q) s = true ->
  (81 < String.length s)%nat ->
  get_token (with_input (String c0 t +:+ rest) (linenum w) w)
  = Fatal (linenum w) "token too long"
  /\ get_token (with_input (String q s +:+ rest) (linenum w) w)
     = Fatal (linenum w) "string token too long".
Proof.
  intros Hp Hc0 Ht Hn Hq Hs Hm.
  rewrite !append_cons, get_token_head, get_token_quote by assumption.
  rewrite unquoted_long, quoted_long by (auto; lia).
  split; reflexivity.
Qed.

Lemma token_too_long_witness :
  get_token (world0 (String "a" (repeat_string 81 "a") +:+ " }"))
  = Fatal 0 "token too long"
  /\ get_token (world0 (String "'" (repeat_string 82 "a") +:+ " }"))
     = Fatal 0 "string token too long".
Proof.
  apply (token_too_long (world0 "") "a" (repeat_string 81 "a")
           "'" (repeat_string 82 "a") " }"); try reflexivity; vm_compute; lia.
Defined.


Lemma newlines_cons c s :
  newlines (String c s) = (if Ascii.eqb c newline then 1 else 0) + newlines s.
Proof.
  unfold newlines. cbn [count_chars]. destruct (Ascii.eqb c newline); lia.
Qed.

Lemma newlines_app s t : newlines (s +:+ t) = newlines s + newlines t.
Proof.
  induction s as [|c s IH]; [reflexivity|].
  rewrite append_cons, !newlines_cons, IH. lia.
Qed.

Lemma newlines_nil : newlines "" = 0.
Proof. reflexivity. Qed.

Lemma newlines_nonneg s : 0 <= newlines s.
Proof. unfold newlines. lia. Qed.

(** White space before a token. *)
Lemma skip_spaces ws : forall inp line,
  all_chars isspace ws = true ->
  skip_blanks false (ws +:+ inp) line = skip_blanks false inp (line + newlines ws).
Proof.
  induction ws as [|c ws IH]; intros inp line H.
  - rewrite append_nil. unfold newlines. simpl. rewrite Z.add_0_r. reflexivity.
  - cbn [all_chars] in H. apply andb_prop in H as [Hc H].
    rewrite append_cons. cbn [skip_blanks]. rewrite Hc, IH, newlines_cons by assumption.
    destruct (Ascii.eqb c newline); f_equal; lia.
Qed.

Lemma skip_spaces_eof ws line :
  all_chars isspace ws = true ->
  skip_blanks false ws line = (None, line + newlines ws).
Proof.
  revert line. induction ws as [|c ws IH]; intros line H.
  - unfold newlines. simpl. rewrite Z.add_0_r. reflexivity.
  - cbn [all_chars] in H. apply andb_prop in H as [Hc H].
    cbn [skip_blanks]. rewrite Hc, IH, newlines_cons by assumption.
    destruct (Ascii.eqb c newline); f_equal; lia.
Qed.

(** A comment up to the end of its line. *)
Lemma skip_comment body : forall inp line,
  all_chars (fun c => negb (Ascii.eqb c newline)) body = true ->
  skip_blanks true (body +:+ String newline inp) line
  = skip_blanks false inp (line + 1).
Proof.
  induction body as [|c body IH]; intros inp line H.
  - rewrite append_nil. cbn [skip_blanks]. rewrite Ascii.eqb_refl. reflexivity.
  - cbn [all_chars] in H. apply andb_prop in H as [Hc H].
    apply negb_true_iff in Hc.
    rewrite append_cons. cbn [skip_blanks]. rewrite Hc. apply IH. assumption.
Qed.

(** [get_token] returns FALSE with the input used up and the line
    count at [line]. *)
Definition at_eof (o : outcome bool) (line : Z) : Prop :=
  exists w', o = Ok false w' /\ yyin w' = "" /\ linenum w' = line.

(** X5.  At the end of the input [get_token] returns FALSE, and no
    error: when only white space is left, when the input ends inside a
    word of at most 81 characters (the word is dropped), and when it ends
    inside a quoted string of at most 81 characters, none of them a
    newline. *)
Theorem get_token_at_eof w ws c0 t q s :
  pushed w = false ->
  all_chars isspace ws = true ->
  token_head c0 = true -> all_chars token_char t = true ->
  (String.length t <= 80)%nat ->
  is_quote q = true -> all_chars (quoted_char q) s = true ->
  (String.length s <= 81)%nat ->
  at_eof (get_token (with_input ws (linenum w) w)) (linenum w + newlines ws)
  /\ at_eof (get_token (with_input (String c0 t) (linenum w) w)) (linenum w)
  /\ at_eof (get_token (with_input (String q s) (linenum w) w)) (linenum w).
Proof.
  intros Hp Hws Hc0 Ht Hn Hq Hs Hm.
  rewrite get_token_head, get_token_quote by assumption.
  rewrite unquoted_eof, quoted_eof by (auto; lia).
  rewrite get_token_fresh, skip_spaces_eof by assumption.
  repeat split; eexists; repeat split; reflexivity.
Qed.

Lemma get_token_at_eof_witness :
  at_eof (get_token (world0 (String " " (String newline " ")))) 1
  /\ at_eof (get_token (world0 "IDAT")) 0
  /\ at_eof (get_token (world0 "'no end")) 0.
Proof.
  apply (get_token_at_eof (world0 "") (String " " (String newline " "))
           "I" "DAT" "'" "no end"); try reflexivity; vm_compute; lia.
Defined.


(** X6.  White space and comments before a token change nothing but the
    line count: white space is skipped and its newlines are counted, and a
    comment runs from [#] to the end of its line, which counts as one
    line. *)
Theorem get_token_skips_blanks w ws body inp :
  pushed w = false ->
  all_chars isspace ws = true ->
  all_chars (fun c => negb (Ascii.eqb c newline)) body = true ->
  get_token (with_input (ws +:+ inp) (linenum w) w)
  = get_token (with_input inp (linenum w + newlines ws) w)
  /\ get_token (with_input (String "#" body +:+ String newline inp) (linenum w) w)
     = get_token (with_input inp (linenum w + 1) w).
Proof.
  intros Hp Hws Hb. rewrite !get_token_fresh by assumption.
  rewrite skip_spaces by assumption. split; [reflexivity|].
  rewrite append_cons.
  change (skip_blanks false (String "#" (body +:+ String newline inp)) (linenum w))
    with (skip_blanks true (body +:+ String newline inp) (linenum w)).
  rewrite skip_comment by assumption. reflexivity.
Qed.

Lemma get_token_skips_blanks_witness :
  get_token (world0 (String " " (String newline " ") +:+ "IHDR {"))
  = get_token (with_input "IHDR {" 1 (world0 ""))
  /\ get_token (world0 ("# a comment" +:+ String newline "IHDR {"))
     = get_token (with_input "IHDR {" 1 (world0 "")).
Proof.
  apply (get_token_skips_blanks (world0 "") (String " " (String newline " "))
           " a comment" "IHDR {"); reflexivity.
Defined.


Lemma not_space_not_newline c : isspace c = false -> Ascii.eqb c newline = false.
Proof. each_char c. Qed.

Lemma skip_blanks_lines inp : forall comment line,
  match skip_blanks comment inp line with
  | (Some (c, r), line') =>
      exists pre, inp = pre +:+ String c r /\ line' = line + newlines pre
                  /\ Ascii.eqb c newline = false
  | (None, line') => line' = line + newlines inp
  end.
Proof.
  induction inp as [|a inp IH]; intros comment line.
  - simpl. unfold newlines. simpl. lia.
  - cbn [skip_blanks]. rewrite newlines_cons.
    assert (Hrec : forall comment line0,
               line0 = line + (if Ascii.eqb a newline then 1 else 0) ->
               match skip_blanks comment inp line0 with
               | (Some (c, r), line') =>
                   exists pre, String a inp = pre +:+ String c r
                               /\ line' = line + newlines pre
                               /\ Ascii.eqb c newline = false
               | (None, line') =>
                   line' = line + ((if Ascii.eqb a newline then 1 else 0) + newlines inp)
               end).
    { intros comment0 line0 ->. specialize (IH comment0 (line + (if Ascii.eqb a newline then 1 else 0))).
      destruct (skip_blanks _ _ _) as [[[c r]|] line'].
      - destruct IH as (pre & -> & -> & Hc). exists (String a pre).
        rewrite append_cons, newlines_cons. repeat split; auto. lia.
      - lia. }
    destruct comment.
    + destruct (Ascii.eqb a newline) eqn:Ea; apply Hrec; lia.
    + destruct (isspace a) eqn:Es.
      { apply Hrec. destruct (Ascii.eqb a newline); lia. }
      rewrite (not_space_not_newline _ Es) in *.
      destruct (Ascii.eqb a "#").
      { apply Hrec. lia. }
      exists "". rewrite append_nil. unfold newlines at 1. simpl.
      repeat split; auto using not_space_not_newline. lia.
Qed.

Lemma quoted_lines q inp : forall n line,
  match quoted q inp n line with
  | ScanToken tok rest line' =>
      exists body, inp = body +:+ String q rest /\ newlines body = 0 /\ line' = line
  | ScanEOF => newlines inp = 0
  | ScanFatal _ => True
  end.
Proof.
  induction inp as [|c inp IH]; intros n line; [reflexivity|].
  cbn [quoted].
  destruct (Ascii.eqb_spec c q) as [->|Hq].
  { exists "". repeat split; reflexivity. }
  destruct (Ascii.eqb c newline) eqn:El; [exact I|].
  destruct (81 <=? n)%nat; [exact I|].
  specialize (IH (S n) line).
  destruct (quoted q inp (S n) line) as [|msg|tok rest line']; cbn [scan_cons].
  - rewrite newlines_cons, El, IH. reflexivity.
  - exact I.
  - destruct IH as (body & -> & Hb & ->). exists (String c body).
    rewrite append_cons, newlines_cons, El, Hb. auto.
Qed.

Lemma unquoted_lines inp : forall n line,
  match unquoted inp n line with
  | ScanToken tok rest line' =>
      exists consumed, inp = consumed +:+ rest /\ line' = line + newlines consumed
  | ScanEOF => newlines inp = 0
  | ScanFatal _ => True
  end.
Proof.
  induction inp as [|c inp IH]; intros n line; [reflexivity|].
  cbn [unquoted].
  destruct (isspace c) eqn:Es.
  { exists (String c ""). rewrite append_cons, append_nil, newlines_cons.
    split; [reflexivity|]. unfold newlines at 1. simpl.
    destruct (Ascii.eqb c newline); lia. }
  destruct (ispunct c && negb (Ascii.eqb c ".")).
  { exists "". rewrite append_nil. split; [reflexivity|].
    unfold newlines. simpl. lia. }
  destruct (81 <=? n)%nat; [exact I|].
  specialize (IH (S n) line).
  destruct (unquoted inp (S n) line) as [|msg|tok rest line']; cbn [scan_cons].
  - rewrite newlines_cons, (not_space_not_newline _ Es), IH. reflexivity.
  - exact I.
  - destruct IH as (consumed & -> & ->). exists (String c consumed).
    rewrite append_cons, newlines_cons, (not_space_not_newline _ Es).
    split; [reflexivity|lia].
Qed.

Lemma append_assoc (a b c : string) : (a +:+ b) +:+ c = a +:+ (b +:+ c).
Proof. induction a as [|x a IH]; [reflexivity|]. rewrite !append_cons, IH. reflexivity. Qed.

Lemma append_nil_r (a : string) : a +:+ "" = a.
Proof. induction a as [|x a IH]; [reflexivity|]. rewrite append_cons, IH. reflexivity. Qed.

(** X7.  [linenum] counts the newlines that [get_token] consumes: when
    it returns, the input it has read holds as many newlines as were added
    to the line count.  (A character that is put back has not been
    read.) *)
Theorem get_token_counts_lines w b w' :
  pushed w = false -> get_token w = Ok b w' ->
  exists consumed,
    yyin w = consumed +:+ yyin w'
    /\ linenum w' = linenum w + newlines consumed.
Proof.
  intros Hp H. unfold get_token in H. rewrite Hp in H.
  pose proof (skip_blanks_lines (yyin w) false (linenum w)) as Hs.
  destruct (skip_blanks false (yyin w) (linenum w)) as [[[c r]|] line].
  2:{ injection H as _ <-. exists (yyin w). cbn [with_input yyin linenum].
      rewrite append_nil_r. auto. }
  destruct Hs as (pre & Hy & -> & Hc).
  destruct (Ascii.eqb c "'" || Ascii.eqb c dquote).
  - pose proof (quoted_lines c r 0 (linenum w + newlines pre)) as Hq.
    destruct (quoted c r 0 _) as [|msg|tok rest line']; [|discriminate|].
    + injection H as _ <-. exists (yyin w). cbn [with_input yyin linenum].
      rewrite append_nil_r. split; [reflexivity|].
      rewrite Hy, newlines_app, newlines_cons, Hc, Hq. lia.
    + destruct (81 <=? String.length tok)%nat; [discriminate|].
      injection H as _ <-. cbn [with_token with_input yyin linenum].
      destruct Hq as (body & -> & Hb & ->).
      exists (pre +:+ String c (body +:+ String c "")).
      rewrite Hy, !append_assoc, !append_cons, append_assoc, append_cons, append_nil.
      split; [reflexivity|].
      rewrite newlines_app, newlines_cons, newlines_app, newlines_cons, Hc, Hb.
      rewrite ?newlines_nil. lia.
  - destruct (negb (ispunct c)).
    + pose proof (unquoted_lines r 1 (linenum w + newlines pre)) as Hu.
      destruct (unquoted r 1 _) as [|msg|tok rest line']; cbn [scan_cons] in H;
        [|discriminate|].
      * injection H as _ <-. exists (yyin w). cbn [with_input yyin linenum].
        rewrite append_nil_r. split; [reflexivity|].
        rewrite Hy, newlines_app, newlines_cons, Hc, Hu. lia.
      * destruct (81 <=? String.length _)%nat; [discriminate|].
        injection H as _ <-. cbn [with_token with_input yyin linenum].
        destruct Hu as (consumed & -> & ->).
        exists (pre +:+ String c consumed).
        rewrite Hy, !append_assoc, !append_cons.
        split; [reflexivity|].
        rewrite newlines_app, newlines_cons, Hc. lia.
    + destruct (81 <=? String.length _)%nat; [discriminate|].
      injection H as _ <-. cbn [with_token with_input yyin linenum].
      exists (pre +:+ String c "").
      rewrite Hy, !append_assoc, !append_cons, append_nil.
      split; [reflexivity|].
      rewrite newlines_app, newlines_cons, Hc. rewrite ?newlines_nil. lia.
Qed.

Lemma get_token_counts_lines_witness :
  exists consumed,
    "# c" +:+ String newline ("IHDR" +:+ String newline "{") = consumed +:+ "{"
    /\ 2 = 0 + newlines consumed.
Proof.
  exact (get_token_counts_lines
           (world0 ("# c" +:+ String newline ("IHDR" +:+ String newline "{")))
           true (with_token "IHDR" (with_input "{" 2 (world0 "")))
           eq_refl eq_refl).
Defined.

(** ** Numbers *)

(** The decimal numeral of a number that is not negative. *)
Definition decimal (v : Z) : string :=
  NilEmpty.string_of_uint (N.to_uint (Z.to_N v)).

(** The value of the decimal digits [d] read after [acc]. *)
Fixpoint uint_value (d : Decimal.uint) (acc : Z) : Z :=
  match d with
  | Decimal.Nil => acc
  | Decimal.D0 l => uint_value l (acc * 10 + 0)
  | Decimal.D1 l => uint_value l (acc * 10 + 1)
  | Decimal.D2 l => uint_value l (acc * 10 + 2)
  | Decimal.D3 l => uint_value l (acc * 10 + 3)
  | Decimal.D4 l => uint_value l (acc * 10 + 4)
  | Decimal.D5 l => uint_value l (acc * 10 + 5)
  | Decimal.D6 l => uint_value l (acc * 10 + 6)
  | Decimal.D7 l => uint_value l (acc * 10 + 7)
  | Decimal.D8 l => uint_value l (acc * 10 + 8)
  | Decimal.D9 l => uint_value l (acc * 10 + 9)
  end.

Lemma digits_decimal d : forall acc n,
  digits 10 acc n (NilEmpty.string_of_uint d)
  = (uint_value d acc, (n + Decimal.nb_digits d)%nat, EmptyString).
Proof.
  induction d; intros acc n;
    cbn [NilEmpty.string_of_uint uint_value Decimal.nb_digits digits];
    [rewrite Nat.add_0_r; reflexivity|..];
    (match goal with
     | |- context [digit_value ?c] =>
         let v := eval vm_compute in (digit_value c) in
         change (digit_value c) with v
     end; cbv iota beta;
     match goal with
     | |- context [?a <? 10] => change (a <? 10) with true
     end; cbv iota; rewrite IHd; f_equal; f_equal; lia).
Qed.

Lemma uint_value_pos d : forall acc,
  uint_value d (Zpos acc) = Zpos (Pos.of_uint_acc d acc).
Proof.
  induction d; intros acc; cbn [uint_value Pos.of_uint_acc]; [reflexivity|..];
    rewrite <- IHd; f_equal; lia.
Qed.

Lemma uint_value_0 d : uint_value d 0 = Z.of_N (Pos.of_uint d).
Proof.
  induction d; cbn [uint_value Pos.of_uint]; [reflexivity|exact IHd|..];
    match goal with
    | |- context [0 * 10 + ?k] => change (0 * 10 + k) with k
    end; rewrite uint_value_pos; reflexivity.
Qed.

Lemma starts_hex_digit c r : (code c =? 48) = false -> starts_hex (String c r) = false.
Proof. intros H. destruct r as [|x [|h r]]; cbn [starts_hex]; rewrite ?H; reflexivity. Qed.

(** [strtoul] on a numeral that starts with one of the digits 1 to 9. *)
Lemma strtoul_plain c r :
  isspace c = false -> (code c =? 45) = false -> (code c =? 43) = false ->
  (code c =? 48) = false ->
  strtoul (String c r)
  = let '(v, n, rest) := digits 10 0 0%nat (String c r) in
    match n with
    | O => (0, String c r)
    | S _ => if ULONG_MAX <? v then (ULONG_MAX, rest) else (v, rest)
    end.
Proof.
  intros Hs Hm Hp Hz. unfold strtoul. cbn [skip_space]. rewrite Hs, Hm, Hp.
  rewrite starts_hex_digit by assumption. cbn [starts_zero]. rewrite Hz.
  reflexivity.
Qed.

Lemma to_uint_head p :
  match Pos.to_uint p with
  | Decimal.Nil | Decimal.D0 _ => False
  | _ => True
  end.
Proof.
  pose proof (Unsigned.to_uint_nonnil p) as H1.
  pose proof (Unsigned.to_uint_nonzero p) as H2.
  pose proof (DecimalPos.Unsigned.to_of (Pos.to_uint p)) as H3.
  rewrite DecimalPos.Unsigned.of_to in H3. cbn [N.to_uint] in H3.
  destruct (Pos.to_uint p) eqn:E; try exact I; [contradiction|].
  assert (Hn : Decimal.nzhead (Decimal.D0 u) <> Decimal.Nil).
  { intros Hn. apply unorm_0 in Hn. congruence. }
  apply unorm_nzhead in Hn. rewrite <- H3 in Hn.
  symmetry in Hn. apply nzhead_nonzero in Hn. exact Hn.
Qed.

(** [strtoul] reads a decimal numeral to its value, or to [ULONG_MAX]
    when the value is larger. *)
Lemma strtoul_decimal v :
  0 <= v -> strtoul (decimal v) = (Z.min v ULONG_MAX, EmptyString).
Proof.
  intros Hv. unfold decimal.
  destruct v as [|p|p]; [reflexivity| |lia].
  cbn [Z.to_N N.to_uint].
  pose proof (to_uint_head p) as Hh.
  pose proof (DecimalPos.Unsigned.of_to p) as Ho.
  pose proof (uint_value_0 (Pos.to_uint p)) as Hu. rewrite Ho in Hu.
  pose proof (digits_decimal (Pos.to_uint p) 0 0) as Hd. rewrite Hu in Hd.
  destruct (Pos.to_uint p) eqn:E; try contradiction;
    cbn [NilEmpty.string_of_uint] in *;
    rewrite strtoul_plain by reflexivity;
    rewrite Hd; cbn [Decimal.nb_digits Nat.add];
    change (Z.of_N (N.pos p)) with (Z.pos p);
    (destruct (Z.ltb_spec ULONG_MAX (Z.pos p)); f_equal; unfold ULONG_MAX in *; lia).
Qed.

(** X8.  [byte_numeric] and the decimal numerals: the numeral of a value
    up to 255 is read back to that value, and the numeral of any larger
    value is refused. *)
Theorem byte_numeric_decimal (w : world) (v : Z) :
  0 <= v ->
  byte_numeric true (with_token (decimal v) w)
  = if v <=? 255 then Ok v (with_token (decimal v) w)
    else Fatal (linenum w) "invalid or out of range byte constant".
Proof.
  intros Hv. unfold byte_numeric, bind. cbn [negb get with_token token_buffer].
  rewrite strtoul_decimal by assumption. cbn [nonempty orb].
  unfold ULONG_MAX.
  destruct (Z.leb_spec v 255).
  - destruct (Z.ltb_spec 255 (Z.min v 4294967295)); [lia|].
    unfold ret, u8. rewrite Z.min_l, Z.mod_small by lia. reflexivity.
  - destruct (Z.ltb_spec 255 (Z.min v 4294967295)); [reflexivity|lia].
Qed.

Lemma byte_numeric_decimal_witness :
  byte_numeric true (with_token "255" (world0 "")) = Ok 255 (with_token "255" (world0 ""))
  /\ byte_numeric true (with_token "256" (world0 ""))
     = Fatal 0 "invalid or out of range byte constant".
Proof.
  split.
  - apply (byte_numeric_decimal (world0 "") 255). lia.
  - apply (byte_numeric_decimal (world0 "") 256). lia.
Defined.

(** X9.  [long_numeric] and the decimal numerals: the numeral of a value
    below 2^32 is read back to that value, except for 2^31-1, which is
    refused; the numeral of a larger value is not refused but read as
    2^32-1, the value [strtoul] returns on overflow of a 32-bit
    [unsigned long]. *)
Theorem long_numeric_decimal (w : world) (v : Z) :
  0 <= v ->
  long_numeric true (with_token (decimal v) w)
  = if v =? 2147483647
    then Fatal (linenum w) "invalid or out of range long constant"
    else Ok (Z.min v 4294967295) (with_token (decimal v) w).
Proof.
  intros Hv. unfold long_numeric, bind. cbn [negb get with_token token_buffer].
  rewrite strtoul_decimal by assumption. cbn [nonempty orb].
  unfold ULONG_MAX.
  destruct (Z.eqb_spec v 2147483647) as [->|Hne]; [reflexivity|].
  destruct (Z.eqb_spec (Z.min v 4294967295) 2147483647); [lia|].
  unfold ret, u32. rewrite Z.mod_small by lia. reflexivity.
Qed.

Lemma long_numeric_decimal_witness :
  long_numeric true (with_token "4294967295" (world0 ""))
  = Ok 4294967295 (with_token "4294967295" (world0 ""))
  /\ long_numeric true (with_token "99999999999" (world0 ""))
     = Ok 4294967295 (with_token "99999999999" (world0 ""))
  /\ long_numeric true (with_token "2147483647" (world0 ""))
     = Fatal 0 "invalid or out of range long constant".
Proof.
  split; [|split].
  - apply (long_numeric_decimal (world0 "") 4294967295). lia.
  - apply (long_numeric_decimal (world0 "") 99999999999). lia.
  - apply (long_numeric_decimal (world0 "") 2147483647). lia.
Defined.

(** ** Data segments: what [collect_data] returns and when it fails *)

(** The values of the hex digits of [s], in order; other characters are
    passed over. *)
Fixpoint hex_digits (s : string) : list Z :=
  match s with
  | EmptyString => []
  | String c r =>
      match hex_value c with
      | Some v => v :: hex_digits r
      | None => hex_digits r
      end
  end.

(** Bytes made of two digits each, the first being the high nibble; a
    last digit without partner gives no byte. *)
Fixpoint nibble_pairs (ds : list Z) : list Z :=
  match ds with
  | h :: l :: r => 16 * h + l :: nibble_pairs r
  | _ => []
  end.

(** The bytes the loop of format 2 completes on the digits [ds]: from a
    state where the next digit is stored as a high nibble ([odd]), and
    from a state where it is or-ed into the byte [old]. *)
Definition hex_emit (odd : bool) (old : Z) (ds : list Z) : list Z :=
  if odd then nibble_pairs ds
  else match ds with
       | [] => []
       | d :: r => u8 (Z.lor old d) :: nibble_pairs r
       end.

(** The bytes of a hex segment as [collect_data] returns them: the first
    digit is or-ed into the byte [g] that the fresh block holds, the
    digits after it are paired. *)
Definition hex_shifted (g : Z) (ds : list Z) : list Z := hex_emit false (u8 g) ds.

Lemma hex_value_range c v : hex_value c = Some v -> 0 <= v <= 15.
Proof.
  intros H.
  assert (E : match hex_value c with
              | Some v => (0 <=? v) && (v <=? 15)
              | None => true
              end = true)
    by (destruct c as [[] [] [] [] [] [] [] []]; vm_compute; reflexivity).
  rewrite H in E. apply andb_prop in E as [E1 E2]. lia.
Qed.

Lemma hex_digits_range s : Forall (fun d => 0 <= d <= 15) (hex_digits s).
Proof.
  induction s as [|c s IH]; cbn [hex_digits]; [constructor|].
  destruct (hex_value c) as [v|] eqn:E; [|exact IH].
  constructor; [eapply hex_value_range; eassumption|exact IH].
Qed.

Lemma hex_digits_count s : length (hex_digits s) = count_chars isxdigit s.
Proof.
  induction s as [|c s IH]; cbn [hex_digits count_chars]; [reflexivity|].
  destruct (isxdigit c) eqn:E.
  - destruct (xdigit_plain _ E) as (_ & _ & _ & v & ->). cbn [length]. lia.
  - unfold hex_value. rewrite E. cbn [negb]. exact IH.
Qed.

Lemma nibble_byte h d :
  0 <= h <= 15 -> 0 <= d <= 15 -> u8 (Z.lor (u8 (h * 16)) d) = 16 * h + d.
Proof.
  intros Hh Hd.
  assert (E : forallb (fun h => forallb (fun d => u8 (Z.lor (u8 (h * 16)) d) =? 16 * h + d)
                                  [0;1;2;3;4;5;6;7;8;9;10;11;12;13;14;15])
                [0;1;2;3;4;5;6;7;8;9;10;11;12;13;14;15] = true)
    by (vm_compute; reflexivity).
  rewrite forallb_forall in E.
  assert (Hin : forall x, 0 <= x <= 15 -> In x [0;1;2;3;4;5;6;7;8;9;10;11;12;13;14;15]).
  { intros x Hx. simpl.
    assert (x = 0 \/ x = 1 \/ x = 2 \/ x = 3 \/ x = 4 \/ x = 5 \/ x = 6 \/ x = 7
            \/ x = 8 \/ x = 9 \/ x = 10 \/ x = 11 \/ x = 12 \/ x = 13 \/ x = 14
            \/ x = 15) by lia.
    intuition auto. }
  specialize (E h (Hin h Hh)). rewrite forallb_forall in E.
  specialize (E d (Hin d Hd)). apply Z.eqb_eq in E. exact E.
Qed.

Section Prefixes.

Context {P : Platform}.

(** The loop of format 2 on hex digits and white space, followed by
    anything. *)
Lemma hex_prefix body : forall a (bits : list Z) nbits ocount tail old,
  all_chars hex_char body = true ->
  length bits = 1024%nat ->
  nbits = (S ocount / 2)%nat ->
  (ocount + count_chars isxdigit body <= 2047)%nat ->
  (Nat.odd ocount = false -> bits !! nbits = Some old) ->
  exists bits',
    collect_loop false (body +:+ tail) a bits 1 nbits ocount
    = collect_loop false tail a bits' 1
        (S (ocount + count_chars isxdigit body) / 2)
        (ocount + count_chars isxdigit body)
    /\ length bits' = 1024%nat
    /\ take (S (ocount + count_chars isxdigit body) / 2) bits'
       = take nbits bits ++ hex_emit (Nat.odd ocount) old (hex_digits body).
Proof.
  induction body as [|c body IH];
    intros a bits nbits ocount tail old Hall Hlen Hn Hc Hold.
  - cbn [count_chars hex_digits]. rewrite Nat.add_0_r, <- Hn, append_nil.
    exists bits. split; [reflexivity|]. split; [exact Hlen|].
    unfold hex_emit. destruct (Nat.odd ocount); rewrite app_nil_r; reflexivity.
  - cbn [all_chars] in Hall. apply andb_prop in Hall as [Hx Hall].
    cbn [count_chars hex_digits] in *. unfold hex_char in Hx.
    rewrite append_cons. cbn [collect_loop].
    destruct (isxdigit c) eqn:Ex.
    + destruct (xdigit_plain _ Ex) as (-> & -> & -> & v & Ev). rewrite Ev.
      pose proof (hex_value_range _ _ Ev) as Hv.
      assert (nbits < 1024)%nat by lia_div.
      rewrite no_growth by lia. cbv zeta.
      destruct (Nat.odd ocount) eqn:Eo.
      * pose proof (odd_mod2 _ Eo) as Em.
        rewrite store_inside by lia.
        destruct (IH a (<[nbits := u8 (v * 16)]> bits) nbits (S ocount) tail (u8 (v * 16)) Hall)
          as (bits' & E & Hl & Ht);
          [rewrite length_insert; auto|lia_div|lia
          |intros _; apply list_lookup_insert_eq; lia|].
        exists bits'.
        replace (ocount + (1 + count_chars isxdigit body))%nat
          with (S ocount + count_chars isxdigit body)%nat by lia.
        split; [exact E|]. split; [exact Hl|].
        rewrite Ht, take_insert_ge by lia. f_equal.
        assert (Eo' : Nat.odd (S ocount) = false).
        { rewrite Nat.odd_succ, <- Nat.negb_odd, Eo. reflexivity. }
        rewrite Eo'. unfold hex_emit. cbn [nibble_pairs].
        pose proof (hex_digits_range body) as Hr.
        destruct (hex_digits body) as [|d r]; [reflexivity|].
        inversion Hr; subst. rewrite nibble_byte by assumption. reflexivity.
      * pose proof (even_mod2 _ Eo) as Em.
        rewrite (Hold eq_refl).
        destruct (IH a (<[nbits := u8 (Z.lor old v)]> bits) (S nbits) (S ocount) tail 0 Hall)
          as (bits' & E & Hl & Ht);
          [rewrite length_insert; auto|lia_div|lia
          |rewrite Nat.odd_succ, <- Nat.negb_odd, Eo; discriminate|].
        exists bits'.
        replace (ocount + (1 + count_chars isxdigit body))%nat
          with (S ocount + count_chars isxdigit body)%nat by lia.
        split; [exact E|]. split; [exact Hl|].
        rewrite Ht. rewrite (take_S_r _ _ (u8 (Z.lor old v))).
        2:{ apply list_lookup_insert_eq. lia. }
        rewrite take_insert_ge by lia. rewrite <- app_assoc.
        rewrite Nat.odd_succ, <- Nat.negb_odd, Eo. reflexivity.
    + simpl in Hx. destruct (space_plain _ Hx) as (-> & ->). rewrite Hx.
      unfold hex_value. rewrite Ex. cbn [negb].
      simpl in Hc. apply IH; auto.
Qed.

(** The loop of format 1 on characters of the alphabet and white space,
    followed by anything. *)
Lemma dense_prefix body : forall a (bits : list Z) nbits ocount tail,
  all_chars dense_char body = true ->
  length bits = 1024%nat ->
  (nbits + length (dense_bytes body) <= 1024)%nat ->
  exists bits',
    collect_loop true (body +:+ tail) a bits 1 nbits ocount
    = collect_loop true tail a bits' 1 (nbits + length (dense_bytes body)) ocount
    /\ length bits' = 1024%nat
    /\ take (nbits + length (dense_bytes body)) bits'
       = take nbits bits ++ dense_bytes body.
Proof.
  induction body as [|c body IH]; intros a bits nbits ocount tail Hall Hlen Hn.
  - cbn [dense_bytes length]. rewrite append_nil, Nat.add_0_r, app_nil_r.
    exists bits. auto.
  - cbn [all_chars] in Hall. apply andb_prop in Hall as [Hc Hall].
    cbn [dense_bytes] in *. unfold dense_char in Hc.
    rewrite append_cons. cbn [collect_loop].
    destruct (dense_spec c) as [v|] eqn:Ev.
    + destruct (dense_spec_plain _ _ Ev) as (-> & -> & ->).
      cbn [length] in Hn.
      rewrite no_growth by lia. cbv zeta.
      rewrite pixel_value_spec, Ev.
      rewrite store_inside by lia.
      destruct (IH a (<[nbits := u8 v]> bits) (S nbits) ocount tail Hall)
        as (bits' & E & Hl & Ht).
      { rewrite length_insert. exact Hlen. }
      { lia. }
      exists bits'. cbn [length].
      replace (nbits + S (length (dense_bytes body)))%nat
        with (S nbits + length (dense_bytes body))%nat by lia.
      split; [exact E|]. split; [exact Hl|].
      rewrite Ht.
      rewrite (take_S_r _ _ (u8 v)).
      2:{ apply list_lookup_insert_eq. lia. }
      rewrite take_insert_ge by lia.
      rewrite <- app_assoc. cbn [app].
      unfold u8. rewrite Z.mod_small; [reflexivity|].
      apply dense_spec_range in Ev. lia.
    + destruct (space_plain _ Hc) as (-> & ->). rewrite Hc.
      apply IH; auto.
Qed.

(** One character more than the block holds, in format 1. *)
Lemma dense_overflow body : forall a (bits : list Z) nbits ocount tail,
  all_chars dense_char body = true ->
  length bits = 1024%nat -> (nbits <= 1024)%nat ->
  (1024 < nbits + length (dense_bytes body))%nat ->
  collect_loop true (body +:+ tail) a bits 1 nbits ocount = CollectOutside 1024.
Proof.
  induction body as [|c body IH]; intros a bits nbits ocount tail Hall Hlen Hn Hm.
  - simpl in Hm. lia.
  - cbn [all_chars] in Hall. apply andb_prop in Hall as [Hc Hall].
    cbn [dense_bytes] in *. unfold dense_char in Hc.
    rewrite append_cons. cbn [collect_loop].
    destruct (dense_spec c) as [v|] eqn:Ev.
    + destruct (dense_spec_plain _ _ Ev) as (-> & -> & ->).
      cbn [length] in Hm.
      rewrite no_growth by lia. cbv zeta.
      rewrite pixel_value_spec, Ev.
      unfold store. destruct (Nat.ltb_spec nbits (length bits)).
      * apply IH; auto; [rewrite length_insert; auto|lia|lia].
      * f_equal. lia.
    + destruct (space_plain _ Hc) as (-> & ->). rewrite Hc.
      apply IH; auto.
Qed.

(** One digit more than the block holds, in format 2. *)
Lemma hex_overflow body : forall a (bits : list Z) nbits ocount tail,
  all_chars hex_char body = true ->
  length bits = 1024%nat -> nbits = (S ocount / 2)%nat ->
  (ocount <= 2047)%nat ->
  (2047 < ocount + count_chars isxdigit body)%nat ->
  collect_loop false (body +:+ tail) a bits 1 nbits ocount = CollectOutside 1024.
Proof.
  induction body as [|c body IH]; intros a bits nbits ocount tail Hall Hlen Hn Ho Hm.
  - simpl in Hm. lia.
  - cbn [all_chars] in Hall. apply andb_prop in Hall as [Hx Hall].
    cbn [count_chars] in *. unfold hex_char in Hx.
    rewrite append_cons. cbn [collect_loop].
    destruct (isxdigit c) eqn:Ex.
    + destruct (xdigit_plain _ Ex) as (-> & -> & -> & v & ->).
      assert (nbits <= 1024)%nat by lia_div.
      rewrite no_growth by lia. cbv zeta.
      destruct (Nat.odd ocount) eqn:Eo.
      * pose proof (odd_mod2 _ Eo) as Em.
        unfold store. destruct (Nat.ltb_spec nbits (length bits)).
        -- apply IH; auto; [rewrite length_insert; auto|lia_div|lia_div|lia].
        -- f_equal. lia.
      * pose proof (even_mod2 _ Eo) as Em.
        assert (nbits < 1024)%nat by lia_div.
        destruct (lookup_lt_is_Some_2 bits nbits) as [old ->]; [lia|].
        apply IH; auto; [rewrite length_insert; auto|lia_div|lia_div|lia].
    + simpl in Hx. destruct (space_plain _ Hx) as (-> & ->). rewrite Hx.
      simpl in Hm. apply IH; auto.
Qed.

(** The block the loop returns is the block it was started with: the
    test before [xrealloc] never succeeds. *)
Lemma collect_loop_block pix inp :
  forall a (bits : list Z) quanta nbits ocount n bits' rest a',
    collect_loop pix inp a bits quanta nbits ocount = Collected n bits' rest a' ->
    length bits = (quanta * MEMORY_QUANTUM)%nat ->
    (nbits <= length bits)%nat ->
    a' = a.
Proof.
  induction inp as [|c inp IH];
    intros a bits quanta nbits ocount n bits' rest a' H Hl Hn;
    cbn [collect_loop] in H; [discriminate|].
  destruct (code c =? 0); [injection H as _ _ _ <-; auto|].
  destruct (Ascii.eqb c "}"); [injection H as _ _ _ <-; auto|].
  destruct (isspace c); [eapply IH; eauto|].
  assert (Hg : (quanta * MEMORY_QUANTUM <? nbits)%nat = false)
    by (apply Nat.ltb_ge; lia).
  rewrite Hg in H. cbv zeta in H.
  destruct pix.
  - destruct (pixel_value c); [|discriminate].
    unfold store in H. destruct (Nat.ltb_spec nbits (length bits)); [|discriminate].
    apply IH in H; rewrite ?length_insert in *; auto.
  - destruct (hex_value c); [|discriminate].
    destruct (Nat.odd ocount).
    + unfold store in H.
      destruct (Nat.ltb_spec nbits (length bits)); [|discriminate].
      apply IH in H; rewrite ?length_insert in *; auto.
    + destruct (bits !! nbits) eqn:E; [|discriminate].
      apply lookup_lt_Some in E.
      apply IH in H; rewrite ?length_insert in *; auto.
Qed.

End Prefixes.

Lemma malloc_first {P : Platform} a :
  malloc a MEMORY_QUANTUM !! 0%nat = Some (u8 (malloc_byte a 0)).
Proof. destruct (malloc_head a) as [tl ->]. reflexivity. Qed.

(** X10.  What format 2 (hex) gives as the code has it, for any segment
    of hex digits and white space of up to 2047 digits: the first digit is
    or-ed into the first byte of the fresh block, each later byte is made
    of two consecutive digits, high nibble first, starting with the second
    digit, and a last digit without partner gives no byte.  The count is
    half the number of digits, rounded up. *)
Theorem hex_decoding_shifted {P : Platform} (w : world) (body rest : string) :
  all_chars hex_char body = true ->
  (count_chars isxdigit body <= 2047)%nat ->
  exists bits w',
    collect_data false (with_input (body +:+ String "}" rest) (linenum w) w)
    = Ok ((S (count_chars isxdigit body) / 2)%nat, bits) w'
    /\ yyin w' = rest
    /\ take (S (count_chars isxdigit body) / 2) bits
       = hex_shifted (malloc_byte (S (allocs w)) 0) (hex_digits body).
Proof.
  intros Hall Hc.
  destruct (hex_prefix body (S (allocs w)) (malloc (S (allocs w)) MEMORY_QUANTUM)
              0 0 (String "}" rest) (u8 (malloc_byte (S (allocs w)) 0)) Hall)
    as (bits & E & Hl & Ht);
    [apply length_malloc|reflexivity|simpl; exact Hc|intros _; apply malloc_first|].
  cbn [Nat.add Nat.odd] in E, Ht. cbn [collect_loop] in E.
  exists bits. eexists. unfold collect_data.
  cbn [with_input yyin allocs linenum]. rewrite E.
  change (code "}" =? 0) with false. cbv iota.
  change (Ascii.eqb "}" "}") with true. cbv iota.
  split; [reflexivity|]. split; [reflexivity|]. exact Ht.
Qed.

Lemma hex_decoding_shifted_witness :
  exists bits w',
    @collect_data example_platform false (world0 "12 34 56 7}")
    = Ok (4%nat, bits) w'
    /\ yyin w' = ""
    /\ take 4 bits = [1; 35; 69; 103].
Proof.
  apply (@hex_decoding_shifted example_platform (world0 "") "12 34 56 7" "");
    [reflexivity|vm_compute; lia].
Defined.

(** X11.  [collect_data] returns at most 1024 bytes, in the block of
    1024 bytes that it allocated at the start: its test before [xrealloc],
    [nbits > quanta * MEMORY_QUANTUM], is false as long as the count is
    within the block, so the block is never enlarged.  It leaves the line
    count as it was: the newlines of a data segment are not counted. *)
Theorem data_segment_capacity {P : Platform} pix w n bits w' :
  collect_data pix w = Ok (n, bits) w' ->
  (n <= 1024)%nat /\ length bits = 1024%nat
  /\ allocs w' = S (allocs w) /\ linenum w' = linenum w.
Proof.
  unfold collect_data.
  destruct (collect_loop _ _ _ _ _ _ _) as [| | |n' bits' rest a'] eqn:E;
    try discriminate.
  intros [= <- <- <-].
  pose proof (collect_loop_block _ _ _ _ _ _ _ _ _ _ _ E) as Ha.
  apply collect_loop_inside in E as [Hn Hl];
    [|rewrite length_malloc; reflexivity|lia].
  rewrite length_malloc in Hl, Ha. rewrite Hl in Hn.
  cbn [with_allocs with_input allocs linenum].
  repeat split; auto. apply Ha; [reflexivity|lia].
Qed.

Lemma data_segment_capacity_witness :
  (2 <= 1024)%nat /\ length (<[1%nat := 2]> (<[0%nat := 1]> (replicate 1024 0))) = 1024%nat
  /\ 1%nat = 1%nat /\ 0 = 0.
Proof.
  apply (@data_segment_capacity example_platform true
           (world0 ("1" +:+ String newline "2}"))
           2%nat (<[1%nat := 2]> (<[0%nat := 1]> (replicate 1024 0)))
           (with_allocs 1 (world0 ""))).
  vm_compute. reflexivity.
Defined.

(** X12.  A data segment of more bytes than the block holds is not
    collected: the byte after the 1024th is stored outside the block, in
    format 1 at the 1025th character of the alphabet and in format 2 at
    the 2048th hex digit. *)
Theorem data_segment_overflow {P : Platform} (w : world) (dense hex tail : string) :
  all_chars dense_char dense = true ->
  (1024 < length (dense_bytes dense))%nat ->
  all_chars hex_char hex = true ->
  (2047 < count_chars isxdigit hex)%nat ->
  collect_data true (with_input (dense +:+ tail) (linenum w) w)
  = Undefined "bits[nbits]"
  /\ collect_data false (with_input (hex +:+ tail) (linenum w) w)
     = Undefined "bits[nbits]".
Proof.
  intros Hd Hn Hh Hm. unfold collect_data. cbn [with_input yyin allocs linenum].
  rewrite dense_overflow, hex_overflow
    by first [assumption|apply length_malloc|reflexivity|simpl; lia].
  split; reflexivity.
Qed.

Lemma data_segment_overflow_witness :
  @collect_data example_platform true (world0 (repeat_string 1025 "0" +:+ "}"))
  = Undefined "bits[nbits]"
  /\ @collect_data example_platform false (world0 (repeat_string 2048 "0" +:+ "}"))
     = Undefined "bits[nbits]".
Proof.
  apply (@data_segment_overflow example_platform (world0 "")
           (repeat_string 1025 "0") (repeat_string 2048 "0") "}");
    try reflexivity; vm_compute; lia.
Defined.

(** A character that neither ends a data segment nor is the NUL. *)
Definition segment_char (c : ascii) : bool :=
  negb (code c =? 0) && negb (Ascii.eqb c "}").

Lemma collect_loop_nul {P : Platform} pix body :
  forall a (bits : list Z) quanta nbits ocount rest,
    all_chars segment_char body = true ->
    collect_loop pix (body +:+ String Ascii.zero rest) a bits quanta nbits ocount
    = collect_loop pix (body +:+ String "}" rest) a bits quanta nbits ocount.
Proof.
  induction body as [|c body IH]; intros a bits quanta nbits ocount rest H.
  - reflexivity.
  - cbn [all_chars] in H. apply andb_prop in H as [Hc H].
    unfold segment_char in Hc. apply andb_prop in Hc as [Hz Hb].
    apply negb_true_iff in Hz, Hb.
    rewrite !append_cons. cbn [collect_loop]. rewrite Hz, Hb.
    destruct (isspace c); [apply IH; assumption|].
    cbv zeta. destruct pix.
    + destruct (pixel_value c); [|reflexivity].
      destruct (store _ _ _); [|reflexivity]. apply IH; assumption.
    + destruct (hex_value c); [|reflexivity].
      destruct (Nat.odd ocount).
      * destruct (store _ _ _); [|reflexivity]. apply IH; assumption.
      * destruct (_ !! nbits); [|reflexivity]. apply IH; assumption.
Qed.

(** X13.  A NUL character ends a data segment just as the closing brace
    does: the loop of [collect_data] runs [while ((c = fgetc(yyin)))],
    which is left when the character read is zero. *)
Theorem nul_ends_data_segment {P : Platform} pix (w : world) (body rest : string) :
  all_chars segment_char body = true ->
  collect_data pix (with_input (body +:+ String Ascii.zero rest) (linenum w) w)
  = collect_data pix (with_input (body +:+ String "}" rest) (linenum w) w).
Proof.
  intros H. unfold collect_data. cbn [with_input yyin allocs linenum].
  rewrite collect_loop_nul by assumption. reflexivity.
Qed.

Lemma nul_ends_data_segment_witness :
  @collect_data example_platform true (world0 ("abc" +:+ String Ascii.zero " IDAT"))
  = @collect_data example_platform true (world0 "abc} IDAT").
Proof.
  exact (@nul_ends_data_segment example_platform true (world0 "") "abc" " IDAT" eq_refl).
Defined.

(** X14.  A data segment that the input ends before its closing brace is
    the fatal error "unexpected EOF in data segment", in both formats. *)
Theorem unterminated_data_segment {P : Platform} (w : world) (dense hex : string) :
  all_chars dense_char dense = true ->
  (length (dense_bytes dense) <= 1024)%nat ->
  all_chars hex_char hex = true ->
  (count_chars isxdigit hex <= 2047)%nat ->
  collect_data true (with_input dense (linenum w) w)
  = Fatal (linenum w) "unexpected EOF in data segment"
  /\ collect_data false (with_input hex (linenum w) w)
     = Fatal (linenum w) "unexpected EOF in data segment".
Proof.
  intros Hd Hn Hh Hm.
  destruct (dense_prefix dense (S (allocs w)) (malloc (S (allocs w)) MEMORY_QUANTUM)
              0 0 "" Hd) as (b1 & E1 & _);
    [apply length_malloc|simpl; exact Hn|].
  destruct (hex_prefix hex (S (allocs w)) (malloc (S (allocs w)) MEMORY_QUANTUM)
              0 0 "" (u8 (malloc_byte (S (allocs w)) 0)) Hh) as (b2 & E2 & _);
    [apply length_malloc|reflexivity|simpl; exact Hm|intros _; apply malloc_first|].
  rewrite append_nil_r in E1, E2.
  unfold collect_data. cbn [with_input yyin allocs linenum].
  rewrite E1, E2. split; reflexivity.
Qed.

Lemma unterminated_data_segment_witness :
  @collect_data example_platform true (world0 "0123 abc")
  = Fatal 0 "unexpected EOF in data segment"
  /\ @collect_data example_platform false (world0 "00 ff 0")
     = Fatal 0 "unexpected EOF in data segment".
Proof.
  apply (@unterminated_data_segment example_platform (world0 "") "0123 abc" "00 ff 0");
    try reflexivity; vm_compute; lia.
Defined.

(** X15.  In format 2 a character that is neither a hex digit nor white
    space (and neither ends the segment) is the fatal error "bad character
    in IDAT block" when at most 2047 hex digits come before it, wherever
    it stands among them and the white space.  After more hex digits than
    that it is not reached: the store outside the block comes first. *)
Theorem hex_bad_character {P : Platform} (w : world) (body : string) c (rest : string) :
  all_chars hex_char body = true ->
  isxdigit c = false -> isspace c = false -> segment_char c = true ->
  collect_data false (with_input (body +:+ String c rest) (linenum w) w)
  = if (count_chars isxdigit body <=? 2047)%nat
    then Fatal (linenum w) "bad character in IDAT block"
    else Undefined "bits[nbits]".
Proof.
  intros Hh Hx Hs Hc.
  destruct (Nat.leb_spec (count_chars isxdigit body) 2047) as [Hm|Hm].
  2:{ unfold collect_data. cbn [with_input yyin allocs linenum].
      rewrite hex_overflow
        by first [assumption|apply length_malloc|reflexivity|simpl; lia].
      reflexivity. }
  destruct (hex_prefix body (S (allocs w)) (malloc (S (allocs w)) MEMORY_QUANTUM)
              0 0 (String c rest) (u8 (malloc_byte (S (allocs w)) 0)) Hh) as (b2 & E2 & _);
    [apply length_malloc|reflexivity|simpl; exact Hm|intros _; apply malloc_first|].
  unfold collect_data. cbn [with_input yyin allocs linenum]. rewrite E2.
  unfold segment_char in Hc. apply andb_prop in Hc as [Hz Hb].
  apply negb_true_iff in Hz, Hb.
  cbn [collect_loop]. rewrite Hz, Hb, Hs. cbv zeta.
  unfold hex_value. rewrite Hx. reflexivity.
Qed.

Lemma hex_bad_character_witness :
  @collect_data example_platform false (world0 "00 fg 00 }")
  = Fatal 0 "bad character in IDAT block".
Proof.
  exact (@hex_bad_character example_platform (world0 "") "00 f" "g" " 00 }"
           eq_refl eq_refl eq_refl eq_refl).
Defined.

Ltac splits := repeat match goal with |- _ /\ _ => split end.

(** ** The header *)

Section Header.

Context {P : Platform}.
Local Open Scope sng_scope.

Lemma get_inner_token_ok w more w1 :
  get_inner_token w = Ok more w1 ->
  get_token w = Ok true w1 /\ more = negb (String.eqb "}" (token_buffer w1)).
Proof.
  unfold get_inner_token. intros H.
  apply bind_ok in H as (ok & w0 & Hg & H).
  destruct ok; cbn [negb] in H; [|discriminate].
  apply bind_ok in H as (e & w2 & He & H).
  apply get_ok in He as [-> ->]. injection H as <- <-. auto.
Qed.

Lemma long_numeric_ok ok w v w' :
  long_numeric ok w = Ok v w' -> w' = w /\ 0 <= v < 4294967296.
Proof.
  unfold long_numeric. destruct ok; cbn [negb]; [|discriminate].
  intros H. apply bind_ok in H as (t & w0 & Ht & H).
  apply get_ok in Ht as [-> ->].
  destruct (strtoul (token_buffer w)) as [r vp].
  destruct (_ || _); [discriminate|]. injection H as <- <-.
  split; [reflexivity|]. unfold u32. apply Z.mod_pos_bound. lia.
Qed.

Lemma byte_numeric_inv ok w v w' :
  byte_numeric ok w = Ok v w' -> w' = w /\ 0 <= v <= 255.
Proof.
  unfold byte_numeric. destruct ok; cbn [negb]; [|discriminate].
  intros H. apply bind_ok in H as (t & w0 & Ht & H).
  apply get_ok in Ht as [-> ->].
  destruct (strtoul (token_buffer w)) as [r vp].
  destruct (_ || _); [discriminate|]. injection H as <- <-.
  split; [reflexivity|]. unfold u8.
  pose proof (Z.mod_pos_bound r 256). lia.
Qed.

Lemma info_ok f w u w' : info f w = Ok u w' -> w' = with_info (f (info_ptr w)) w.
Proof. intros H. injection H as _ <-. reflexivity. Qed.

(** The fields that [compile_IHDR] computes are within these bounds. *)
Definition header_inv (i : png_info) : Prop :=
  0 <= bit_depth i <= 255 /\ 0 <= color_type i <= 7 /\ 0 <= interlace_type i <= 1.

Lemma color_mask ct m :
  0 <= ct <= 7 -> m = 1 \/ m = 2 \/ m = 4 -> 0 <= Z.lor ct m <= 7.
Proof.
  intros Hc Hm.
  assert (ct = 0 \/ ct = 1 \/ ct = 2 \/ ct = 3 \/ ct = 4 \/ ct = 5 \/ ct = 6 \/ ct = 7)
    as Hct by lia.
  repeat (destruct Hct as [->|Hct]); try subst ct;
    (destruct Hm as [-> | [-> | ->]]; vm_compute; split; discriminate).
Qed.

Lemma IHDR_loop_inv fuel : forall w u w',
  IHDR_loop fuel w = Ok u w' ->
  header_inv (info_ptr w) ->
  header_inv (info_ptr w') /\ token_buffer w' = "}"
  /\ palette (info_ptr w') = palette (info_ptr w)
  /\ num_palette (info_ptr w') = num_palette (info_ptr w)
  /\ valid (info_ptr w') = valid (info_ptr w)
  /\ png_calls w' = png_calls w.
Proof.
  induction fuel as [|fuel IH]; intros w u w' H Hinv; [discriminate|].
  cbn [IHDR_loop] in H. apply bind_ok in H as (more & w0 & Hm & H).
  apply get_inner_token_ok in Hm as [Hg ->].
  apply get_token_ok in Hg as (_ & Hi & Hc & _).
  destruct (String.eqb_spec "}" (token_buffer w0)) as [Et|Et]; cbn [negb] in H.
  { injection H as _ <-. rewrite Hi, Hc. splits; auto. }
  apply bind_ok in H as (t & w1 & Hm & H). apply get_ok in Hm as [-> ->].
  assert (Hinv0 : header_inv (info_ptr w0)) by (rewrite Hi; exact Hinv).
  destruct Hinv0 as (Hb & Hct & Hil).
  assert (Hgo : forall f wb,
             IHDR_loop fuel wb = Ok u w' ->
             info_ptr wb = f (info_ptr w0) -> png_calls wb = png_calls w0 ->
             (forall i, header_inv i -> header_inv (f i)) ->
             (forall i, palette (f i) = palette i
                        /\ num_palette (f i) = num_palette i
                        /\ valid (f i) = valid i) ->
             header_inv (info_ptr w') /\ token_buffer w' = "}"
             /\ palette (info_ptr w') = palette (info_ptr w)
             /\ num_palette (info_ptr w') = num_palette (info_ptr w)
             /\ valid (info_ptr w') = valid (info_ptr w)
             /\ png_calls w' = png_calls w).
  { intros f wb Hl Hf Hcalls Hinv' Hsame.
    destruct (Hsame (info_ptr w0)) as (Hp & Hn & Hv).
    apply IH in Hl; [|rewrite Hf, Hi; apply Hinv'; exact Hinv].
    destruct Hl as (H1 & H2 & H3 & H4 & H5 & H6).
    rewrite H3, H4, H5, H6, Hf, Hp, Hn, Hv, Hcalls, Hi, Hc. splits; auto. }
  repeat match type of H with
         | (if ?b then _ else _) _ = _ => destruct b
         end.
  - apply bind_ok in H as (ok & w1 & Hm & H).
    apply get_token_ok in Hm as (_ & Hi1 & Hc1 & _).
    apply bind_ok in H as (v & w2 & Hm & H). apply long_numeric_ok in Hm as [-> _].
    apply bind_ok in H as (x & w2 & Hm & H). apply info_ok in Hm as ->.
    apply (Hgo (set_height v) _ H); cbn [with_info info_ptr png_calls];
      rewrite ?Hi1; auto; intros []; auto.
  - apply bind_ok in H as (ok & w1 & Hm & H).
    apply get_token_ok in Hm as (_ & Hi1 & Hc1 & _).
    apply bind_ok in H as (v & w2 & Hm & H). apply long_numeric_ok in Hm as [-> _].
    apply bind_ok in H as (x & w2 & Hm & H). apply info_ok in Hm as ->.
    apply (Hgo (set_width v) _ H); cbn [with_info info_ptr png_calls];
      rewrite ?Hi1; auto; intros []; auto.
  - apply bind_ok in H as (ok & w1 & Hm & H).
    apply get_token_ok in Hm as (_ & Hi1 & Hc1 & _).
    apply bind_ok in H as (v & w2 & Hm & H). apply byte_numeric_inv in Hm as [-> Hv].
    apply bind_ok in H as (x & w2 & Hm & H). apply info_ok in Hm as ->.
    apply (Hgo (set_bit_depth v) _ H); cbn [with_info info_ptr png_calls];
      rewrite ?Hi1; auto; intros []; auto.
    unfold header_inv. simpl.
    tauto.
  - apply (Hgo (fun i => i) _ H); auto.
  - apply bind_ok in H as (x & w2 & Hm & H). apply info_ok in Hm as ->.
    apply (Hgo (fun i => set_color_type (Z.lor (color_type i) PNG_COLOR_MASK_PALETTE) i) _ H);
      cbn [with_info info_ptr png_calls]; auto; intros []; auto.
    unfold header_inv. simpl.
    intros (? & ? & ?). split; [assumption|]. split; [|assumption].
    apply color_mask; auto.
  - apply bind_ok in H as (x & w2 & Hm & H). apply info_ok in Hm as ->.
    apply (Hgo (fun i => set_color_type (Z.lor (color_type i) PNG_COLOR_MASK_COLOR) i) _ H);
      cbn [with_info info_ptr png_calls]; auto; intros []; auto.
    unfold header_inv. simpl.
    intros (? & ? & ?). split; [assumption|]. split; [|assumption].
    apply color_mask; auto.
  - apply bind_ok in H as (x & w2 & Hm & H). apply info_ok in Hm as ->.
    apply (Hgo (fun i => set_color_type (Z.lor (color_type i) PNG_COLOR_MASK_ALPHA) i) _ H);
      cbn [with_info info_ptr png_calls]; auto; intros []; auto.
    unfold header_inv. simpl.
    intros (? & ? & ?). split; [assumption|]. split; [|assumption].
    apply color_mask; auto.
  - apply (Hgo (fun i => i) _ H); auto.
  - apply bind_ok in H as (x & w2 & Hm & H). apply info_ok in Hm as ->.
    apply (Hgo (set_interlace_type PNG_INTERLACE_ADAM7) _ H);
      cbn [with_info info_ptr png_calls]; auto; intros []; auto.
    unfold header_inv, PNG_INTERLACE_ADAM7.
    simpl.
    intros (? & ? & ?). split; [assumption|]. split; [assumption|lia].
  - discriminate.
Qed.

End Header.

Lemma compile_IHDR_inv w u w' :
  compile_IHDR w = Ok u w' ->
  header_inv (info_ptr w') /\ token_buffer w' = "}"
  /\ png_calls w' = png_calls w.
Proof.
  intros H. unfold compile_IHDR in H.
  apply bind_ok in H as (x1 & w1 & H1 & H). apply info_ok in H1 as ->.
  apply bind_ok in H as (x2 & w2 & H2 & H). apply info_ok in H2 as ->.
  apply bind_ok in H as (x3 & w3 & H3 & H). apply info_ok in H3 as ->.
  apply bind_ok in H as (fuel & w4 & H4 & H). apply get_ok in H4 as [-> ->].
  apply bind_ok in H as (x5 & w5 & H5 & H).
  apply IHDR_loop_inv in H5 as (Hinv & Ht & _ & _ & _ & Hc).
  2:{ cbn [with_info info_ptr]. destruct (info_ptr w).
      unfold header_inv, PNG_INTERLACE_NONE. simpl. lia. }
  apply bind_ok in H as (i & w6 & H6 & H). apply get_ok in H6 as [-> ->].
  destruct (height (info_ptr w5) =? 0); [discriminate|].
  destruct (width (info_ptr w5) =? 0); [discriminate|].
  injection H as _ <-. auto.
Qed.

(** X16.  When [compile_IHDR] returns, the header is complete and
    closed: the height and the width are not zero, the bit depth is a
    byte, the colour type is an or of the three masks (a value from 0 to
    7), the interlace type is 0 or 1, the last token read is the closing
    brace, and nothing was handed to libpng. *)
Theorem header_fields w u w' :
  compile_IHDR w = Ok u w' ->
  height (info_ptr w') <> 0 /\ width (info_ptr w') <> 0
  /\ 0 <= bit_depth (info_ptr w') <= 255
  /\ 0 <= color_type (info_ptr w') <= 7
  /\ 0 <= interlace_type (info_ptr w') <= 1
  /\ token_buffer w' = "}"
  /\ png_calls w' = png_calls w.
Proof.
  intros H. pose proof (header_needs_size _ _ _ H) as [Hh Hw].
  apply compile_IHDR_inv in H as ((Hb & Hct & Hil) & Ht & Hc).
  splits; auto; lia.
Qed.

Lemma header_fields_witness :
  2 <> 0 /\ 4 <> 0 /\ 0 <= 8 <= 255 /\ 0 <= 6 <= 7 /\ 0 <= 1 <= 1
  /\ "}" = "}" /\ @nil png_call = [].
Proof.
  apply (header_fields
           (world0 "width 4 height 2 using color with alpha interlace }") tt
           (with_token "}"
              (with_info
                 (set_interlace_type 1
                    (set_color_type 6
                       (set_bit_depth 8 (set_height 2 (set_width 4 info0)))))
                 (world0 "")))).
  vm_compute. reflexivity.
Defined.

(** ** The chunks of a compile *)

(** Case analysis on a chunk index: [tac] on each of the first [n]
    indices. *)
Ltac each_chunk n chunk tac :=
  lazymatch n with
  | O => idtac
  | S ?n' => destruct chunk as [|chunk]; [tac|each_chunk n' chunk tac]
  end.

Section Guards.

Context {P : Platform}.
Local Open Scope sng_scope.

Lemma nonzero_false z : nonzero z = false -> z = 0.
Proof. unfold nonzero. destruct (Z.eqb_spec z 0); [auto|discriminate]. Qed.

(** What the [switch] of [pngc] has checked when a chunk gets through
    it. *)
Lemma chunk_switch_guard chunk prev w w' :
  chunk_switch chunk prev w = Ok tt w' ->
  (chunk = IHDR /\ prev = NONE)
  \/ (chunk = PLTE /\ cnt IDAT w = 0 /\ palette_flag w = true)
  \/ (chunk = IDAT /\ cnt IMAGE w = 0)
  \/ ((chunk = cHRM \/ chunk = gAMA \/ chunk = sRGB)
      /\ cnt PLTE w = 0 /\ cnt IDAT w = 0)
  \/ (chunk = IMAGE /\ cnt IDAT w = 0)
  \/ (26 <= chunk)%nat.
Proof.
  intros H. unfold chunk_switch in H.
  do 6 (apply bind_ok in H as (? & ? & [= <- <-] & H)).
  unfold cnt, palette_flag.
  each_chunk 26%nat chunk
    ltac:(cbn [Nat.eqb IHDR PLTE IDAT cHRM gAMA iCCP sBIT sRGB bKGD hIST
                 tRNS pHYs sPLT tIME iTXt tEXt zTXt oFFs pCAL sCAL gIFg
                 gIFt gIFx fRAc IMAGE PRIVATE] in H;
          try discriminate;
          try (apply bind_ok in H as ([] & w1 & Hd & H);
               first [apply die_if_ok in Hd as [Hd ->]|idtac];
               try discriminate)).
  - left. split; [reflexivity|].
    destruct (Z.eqb_spec prev NONE); [assumption|discriminate].
  - right. left. split; [reflexivity|].
    destruct (nonzero (count (entry IDAT w))) eqn:E1; [discriminate|].
    destruct (nonzero (count (entry bKGD w))); [discriminate|].
    destruct (nonzero (count (entry tRNS w))); [discriminate|].
    destruct (_ =? 0) eqn:E2; [discriminate|].
    split; [apply nonzero_false; assumption|reflexivity].
  - right. right. left. split; [reflexivity|].
    apply nonzero_false. assumption.
  - do 3 right. left. split; [auto|].
    apply orb_false_elim in Hd as [H1 H2].
    split; apply nonzero_false; assumption.
  - do 3 right. left. split; [auto|].
    apply orb_false_elim in Hd as [H1 H2].
    split; apply nonzero_false; assumption.
  - do 3 right. left. split; [auto|].
    apply orb_false_elim in Hd as [H1 H2].
    split; apply nonzero_false; assumption.
  - do 4 right. left. split; [reflexivity|].
    apply nonzero_false. assumption.
  - do 5 right. lia.
Qed.

(** The chunk [b] may follow the chunks [h1]. *)
Definition guard (b : nat) (h1 : list nat) : Prop :=
  (b = IHDR /\ h1 = [])
  \/ (b = PLTE /\ ~ In PLTE h1 /\ ~ In IDAT h1 /\ ~ In IMAGE h1)
  \/ (b = IDAT /\ ~ In IMAGE h1)
  \/ ((b = cHRM \/ b = gAMA \/ b = sRGB)
      /\ ~ In b h1 /\ ~ In PLTE h1 /\ ~ In IDAT h1 /\ ~ In IMAGE h1)
  \/ (b = IMAGE /\ ~ In IDAT h1 /\ ~ In IMAGE h1).

Lemma no_data h : occ IDAT h + occ IMAGE h = 0 -> ~ In IDAT h /\ ~ In IMAGE h.
Proof.
  intros H. pose proof (occ_nonneg IDAT h). pose proof (occ_nonneg IMAGE h).
  split; apply occ_zero; lia.
Qed.

Lemma guard_at fin h1 b h3 prev w :
  reached fin (h1 ++ b :: h3) prev w -> guard b h1.
Proof.
  intros Hr. apply steps_app_inv in Hr as (p1 & w1 & Ha & Hb).
  inversion Hb as [|? ? w1' ? w2 ? ? ? Hg Hs Hrest]; subst.
  apply reached_counts in Ha as (Htab & Hprev & Hcnt).
  destruct (table_get_token _ _ _ Hg) as [Htab1 Hcnt1]. specialize (Htab1 Htab).
  apply chunk_step_ok in Hs
    as (c & w3 & w4 & Hf & Hc & Hg2 & _ & Hrep & Hsw & _).
  apply Nat2Z.inj in Hc. subst c.
  destruct (table_get_token _ _ _ Hg2) as [Htab2 Hcnt2]. specialize (Htab2 Htab1).
  apply find_chunk_bound in Hf. rewrite (table_length _ Htab1) in Hf.
  assert (Hc : forall i, cnt i w3
                 = occ i h1 + (if decide (i = IDAT) then occ IMAGE h1 else 0)).
  { intros i. rewrite Hcnt2, Hcnt1. apply Hcnt. }
  rewrite (table_flag _ _ Htab2) in Hrep.
  change (count (entry b w3)) with (cnt b w3) in Hrep. rewrite Hc in Hrep.
  pose proof (occ_nonneg b h1) as Hnn. pose proof (occ_nonneg IMAGE h1) as Hni.
  apply chunk_switch_guard in Hsw.
  rewrite !Hc in Hsw. unfold guard.
  destruct Hsw as [[-> Hp]|[(-> & Hi & _)|[[-> Hi]|[[Hx [Hp Hi]]|[[-> Hi]|Hge]]]]].
  - left. split; [reflexivity|].
    destruct h1 as [|a h1]; [reflexivity|exfalso].
    pose proof (prev_after_chunk (a :: h1)) as Hpos. rewrite <- Hprev, Hp in Hpos.
    unfold NONE in Hpos. assert (a :: h1 <> []) by discriminate. intuition lia.
  - right. left. rewrite decide_True in Hi by reflexivity.
    apply no_data in Hi as [H1 H2].
    destruct Hrep as [Hrep|Hrep]; [discriminate|].
    rewrite decide_False in Hrep by discriminate.
    splits; auto. apply occ_zero. lia.
  - right. right. left. rewrite decide_False in Hi by discriminate.
    split; [reflexivity|]. apply occ_zero. lia.
  - do 3 right. left.
    rewrite decide_True in Hi by reflexivity. apply no_data in Hi as [H1 H2].
    rewrite decide_False in Hp by discriminate.
    assert (Hb' : ~ In b h1).
    { apply occ_zero.
      destruct Hx as [-> | [-> | ->]];
        (destruct Hrep as [Hrep|Hrep]; [discriminate|]);
        rewrite decide_False in Hrep by discriminate; lia. }
    splits; auto. apply occ_zero. lia.
  - do 4 right. rewrite decide_True in Hi by reflexivity.
    apply no_data in Hi as [H1 H2]. auto.
  - lia.
Qed.

End Guards.

(** The chunk types whose case of the [switch] does not end in [fatal]. *)
Definition implemented : list nat := [IHDR; PLTE; IDAT; cHRM; gAMA; sRGB; IMAGE].

(** The place of a chunk type in the order that [pngc] enforces: the
    header, then cHRM, gAMA and sRGB, then the palette, then the pixel
    data. *)
Definition rank (c : nat) : nat :=
  if (c =? IHDR)%nat then 0
  else if (c =? cHRM)%nat || (c =? gAMA)%nat || (c =? sRGB)%nat then 1
  else if (c =? PLTE)%nat then 2
  else 3.

Lemma guard_implemented b h1 : guard b h1 -> In b implemented.
Proof.
  unfold guard, implemented.
  intros [[-> _]|[[-> _]|[[-> _]|[[[-> | [-> | ->]] _]|[-> _]]]]]; simpl; auto 10.
Qed.

Lemma guard_single b h1 : guard b h1 -> b <> IDAT -> ~ In b h1.
Proof.
  unfold guard.
  intros [[-> ->]|[(-> & H & _)|[[-> _]|[[_ [H _]]|(-> & _ & H)]]]] Hb; auto.
Qed.

Lemma guard_data b h1 : guard b h1 -> In IMAGE h1 -> False.
Proof.
  unfold guard.
  intros [[-> ->]|[(-> & _ & _ & H)|[[-> H]|[(_ & _ & _ & _ & H)|(-> & _ & H)]]]] Hi;
    auto.
Qed.

Lemma guard_rank a b h1 :
  guard b h1 -> In a h1 -> In a implemented -> (rank a <= rank b)%nat.
Proof.
  unfold guard, implemented. intros Hg Ha Hi.
  assert (Hr : (rank a <= 3)%nat).
  { unfold rank. repeat destruct (_ =? _)%nat; simpl; lia. }
  destruct Hg as [[-> ->]|[(-> & Hp & Hd & Hm)|[[-> _]|[(Hx & _ & Hp & Hd & Hm)|(-> & _)]]]].
  - destruct Ha.
  - simpl in Hi. destruct Hi as [<-|[<-|[<-|[<-|[<-|[<-|[<-|[]]]]]]]];
      try contradiction; vm_compute; lia.
  - exact Hr.
  - simpl in Hi.
    destruct Hi as [<-|[<-|[<-|[<-|[<-|[<-|[<-|[]]]]]]]]; try contradiction;
      destruct Hx as [-> | [-> | ->]]; vm_compute; lia.
  - exact Hr.
Qed.

Lemma strongly_sorted_pairs {A} (R : A -> A -> Prop) (h : list A) :
  (forall h1 a h2 b h3, h = h1 ++ a :: h2 ++ b :: h3 -> R a b) ->
  StronglySorted R h.
Proof.
  induction h as [|a l IH]; intros H; constructor.
  - apply IH. intros h1 x h2 y h3 ->. apply (H (a :: h1) x h2 y h3). reflexivity.
  - apply Stdlib.Lists.List.Forall_forall. intros b Hb.
    apply in_split in Hb as (h2 & h3 & ->). apply (H [] a h2 b h3). reflexivity.
Qed.

Lemma single_pairs (c : nat) (h : list nat) :
  (forall h1 h3, h = h1 ++ c :: h3 -> ~ In c h1) -> occ c h <= 1.
Proof.
  induction h as [|a l IH]; intros H; [unfold occ; simpl; lia|].
  rewrite occ_cons. case_decide as E.
  - subst a. assert (Hn : ~ In c l).
    { intros Hin. apply in_split in Hin as (l1 & l3 & ->).
      apply (H (c :: l1) l3); [reflexivity|left; reflexivity]. }
    apply occ_zero in Hn. lia.
  - assert (occ c l <= 1); [|lia].
    apply IH. intros h1 h3 -> Hin. apply (H (a :: h1) h3); [reflexivity|].
    right. exact Hin.
Qed.

(** X17.  Whatever the input, the chunks that a compile processes are of
    seven types only: IHDR, PLTE, IDAT, cHRM, gAMA, sRGB and the IMAGE
    pseudo-chunk.  The case of every other keyword of the table ends in
    [fatal]. *)
Theorem processed_chunk_types {P : Platform} fin h prev w :
  reached fin h prev w -> Forall (fun c => In c implemented) h.
Proof.
  intros Hr. apply Stdlib.Lists.List.Forall_forall. intros c Hc.
  apply in_split in Hc as (h1 & h3 & ->).
  eapply guard_implemented, guard_at. exact Hr.
Qed.

(** X18.  The chunks that a compile processes come in the order the
    [switch] enforces: the header, then cHRM, gAMA and sRGB in any order,
    then the palette, then the pixel data. *)
Theorem chunks_in_order {P : Platform} fin h prev w :
  reached fin h prev w ->
  StronglySorted (fun a b => (rank a <= rank b)%nat) h.
Proof.
  intros Hr. apply strongly_sorted_pairs. intros h1 a h2 b h3 E. subst h.
  assert (Ha : In a implemented).
  { eapply guard_implemented, guard_at. exact Hr. }
  replace (h1 ++ a :: h2 ++ b :: h3) with ((h1 ++ a :: h2) ++ b :: h3) in Hr
    by (rewrite <- app_assoc; reflexivity).
  apply guard_at in Hr. eapply guard_rank; eauto.
  apply in_or_app. right. left. reflexivity.
Qed.

(** X19.  No chunk type other than IDAT is processed twice in a compile:
    the header, the palette, cHRM, gAMA, sRGB and IMAGE occur at most
    once. *)
Theorem chunks_not_repeated {P : Platform} fin h prev w c :
  reached fin h prev w -> c <> IDAT -> occ c h <= 1.
Proof.
  intros Hr Hc. apply single_pairs. intros h1 h3 ->.
  apply guard_at in Hr. apply guard_single; assumption.
Qed.

(** X20.  An IMAGE pseudo-chunk is the last chunk of a compile and its
    only pixel data: no chunk is processed after it, and no IDAT and no
    other IMAGE before it. *)
Theorem image_ends_the_chunks {P : Platform} fin h prev w :
  reached fin h prev w -> In IMAGE h ->
  exists h1, h = h1 ++ [IMAGE] /\ ~ In IDAT h1 /\ ~ In IMAGE h1.
Proof.
  intros Hr Hin. apply in_split in Hin as (h1 & h3 & ->).
  exists h1. destruct h3 as [|c h3].
  - apply guard_at in Hr.
    destruct Hr as [[E _]|[[E _]|[[E _]|[[[E|[E|E]] _]|(_ & H1 & H2)]]]];
      try discriminate. auto.
  - exfalso.
    replace (h1 ++ IMAGE :: c :: h3) with ((h1 ++ [IMAGE]) ++ c :: h3) in Hr
      by (rewrite <- app_assoc; reflexivity).
    apply guard_at in Hr. eapply guard_data; [exact Hr|].
    apply in_or_app. right. left. reflexivity.
Qed.

Lemma processed_chunk_types_witness :
  Forall (fun c => In c implemented) [IHDR; gAMA; PLTE; IMAGE].
Proof.
  eapply (@processed_chunk_types example_platform
            "IHDR { width 1 height 1 using palette color } gAMA { 1 } PLTE { (1,2,3) } IMAGE { 0 }").
  run_chunks.
Defined.

Lemma chunks_in_order_witness :
  StronglySorted (fun a b => (rank a <= rank b)%nat) [IHDR; sRGB; cHRM; PLTE; IDAT; IDAT].
Proof.
  eapply (@chunks_in_order example_platform
            "IHDR { width 1 height 1 using palette } sRGB { 0 } cHRM { white (1,1) red (1,1) green (1,1) blue (1,1) } PLTE { (1,2,3) } IDAT { 00 } IDAT { 00 }").
  run_chunks.
Defined.

Lemma chunks_not_repeated_witness : occ PLTE [IHDR; PLTE; IDAT] <= 1.
Proof.
  eapply (@chunks_not_repeated example_platform
            "IHDR { width 1 height 1 using palette } PLTE { (1,2,3) } IDAT { 00 }").
  - run_chunks.
  - discriminate.
Defined.

Lemma image_ends_the_chunks_witness :
  exists h1, [IHDR; IMAGE] = h1 ++ [IMAGE] /\ ~ In IDAT h1 /\ ~ In IMAGE h1.
Proof.
  eapply (@image_ends_the_chunks example_platform "IHDR { width 1 height 1 } IMAGE { 00 }").
  - run_chunks.
  - right. left. reflexivity.
Defined.

(** X21.  After the keyword of a chunk, the opening brace must follow:
    when the input ends there the compile fails with "unexpected EOF",
    and when any other token follows, with "missing chunk delimiter". *)
Theorem chunk_delimiter {P : Platform} fin h prev w w1 chunk :
  reached fin h prev w ->
  get_token w = Ok true w1 ->
  find_chunk (token_buffer w1) properties0 0 = Some chunk ->
  (forall w2, get_token w1 = Ok false w2 ->
     pngc fin = Fatal (linenum w2) "unexpected EOF")
  /\ (forall w2, get_token w1 = Ok true w2 -> token_buffer w2 <> "{" ->
        pngc fin = Fatal (linenum w2) "missing chunk delimiter").
Proof.
  intros Hr Hg Hf.
  pose proof (reached_counts _ _ _ _ Hr) as (Htab & _ & _).
  destruct (table_get_token _ _ _ Hg) as [Htab1 _]. specialize (Htab1 Htab).
  split; intros w2 Hg2.
  - apply (pngc_at_fatal _ _ _ _ _ _ _ Hr Hg).
    unfold chunk_step, bind. cbn [get].
    rewrite (table_find _ _ Htab1), Hf, Hg2. reflexivity.
  - intros Ht. apply (pngc_at_fatal _ _ _ _ _ _ _ Hr Hg).
    unfold chunk_step, bind. cbn [get].
    rewrite (table_find _ _ Htab1), Hf, Hg2. cbn [negb die_if ret].
    unfold token_equals. cbn [get].
    destruct (String.eqb_spec "{" (token_buffer w2)) as [E|E];
      [congruence|reflexivity].
Qed.

Lemma chunk_delimiter_witness :
  @pngc example_platform "IHDR { width 1 height 1 } IDAT " = Fatal 0 "unexpected EOF"
  /\ @pngc example_platform "IHDR { width 1 height 1 } IDAT 00 }"
     = Fatal 0 "missing chunk delimiter".
Proof.
  split.
  - edestruct (@chunk_delimiter example_platform
                 "IHDR { width 1 height 1 } IDAT " [IHDR]) as [H _];
      [run_chunks|run_token|vm_compute; reflexivity|].
    etransitivity; [apply H; run_token|vm_compute; reflexivity].
  - edestruct (@chunk_delimiter example_platform
                 "IHDR { width 1 height 1 } IDAT 00 }" [IHDR]) as [_ H];
      [run_chunks|run_token|vm_compute; reflexivity|].
    etransitivity; [apply H; [run_token|vm_compute; discriminate]|vm_compute; reflexivity].
Defined.

(** X22.  An input of white space only, the empty input among them,
    holds no chunk: the compile fails at the end of the file with "no
    image data". *)
Theorem blank_input {P : Platform} fin :
  all_chars isspace fin = true -> pngc fin = Fatal EOF "no image data".
Proof.
  intros H.
  assert (Hg : get_token (world0 fin)
               = Ok false (with_input "" (0 + newlines fin) (world0 ""))).
  { change (world0 fin) with (with_input fin (linenum (world0 "")) (world0 "")).
    rewrite get_token_fresh, skip_spaces_eof by (reflexivity || assumption).
    reflexivity. }
  rewrite (pngc_at_end fin [] NONE (world0 fin) _ (steps_nil _ _) Hg).
  rewrite pngc_end_spec. reflexivity.
Qed.

Lemma blank_input_witness :
  @pngc example_platform "" = Fatal EOF "no image data"
  /\ @pngc example_platform (String " " (String newline " ")) = Fatal EOF "no image data".
Proof.
  split; apply (@blank_input example_platform); reflexivity.
Defined.

(** ** What reaches libpng *)

(** Nothing is handed to libpng and the image description is the same. *)
Definition quiet : relation world :=
  fun w w' => png_calls w' = png_calls w /\ info_ptr w' = info_ptr w.

(** Nothing is handed to libpng and the colour type is the same. *)
Definition silent : relation world :=
  fun w w' => png_calls w' = png_calls w
              /\ color_type (info_ptr w') = color_type (info_ptr w).

Global Instance quiet_preorder : PreOrder quiet.
Proof.
  split; unfold quiet; [intros w; auto|].
  intros a b c [H1 H2] [H3 H4]. split; congruence.
Qed.

Global Instance silent_preorder : PreOrder silent.
Proof.
  split; unfold silent; [intros w; auto|].
  intros a b c [H1 H2] [H3 H4]. split; congruence.
Qed.

Lemma quiet_silent {P : Platform} {A} (m : M A) : respects quiet m -> respects silent m.
Proof.
  intros H w a w' E. destruct (H w a w' E) as [H1 H2].
  split; [exact H1|]. rewrite H2. reflexivity.
Qed.

Section Quiet.

Context {P : Platform}.
Local Open Scope sng_scope.

Lemma quiet_get_token : respects quiet get_token.
Proof.
  intros w b w' H. apply get_token_ok in H as (_ & H1 & H2 & _). split; auto.
Qed.

Lemma quiet_collect_data pix : respects quiet (collect_data pix).
Proof. intros w [n bits] w' H. apply collect_data_calls in H. exact H. Qed.

Lemma quiet_count_up i : respects quiet (count_up i).
Proof. apply respects_modify; try exact _. intros w. split; reflexivity. Qed.

Hint Resolve quiet_get_token quiet_collect_data quiet_count_up : frames.

Lemma quiet_token_equals s : respects quiet (token_equals s).
Proof. unfold token_equals. frames. Qed.

Lemma quiet_die_if c msg : respects quiet (die_if c msg).
Proof. unfold die_if. frames. Qed.

Lemma quiet_count_of i : respects quiet (count_of i).
Proof. unfold count_of. frames. Qed.

Hint Resolve quiet_token_equals quiet_die_if quiet_count_of : frames.

Lemma quiet_get_inner_token : respects quiet get_inner_token.
Proof. unfold get_inner_token. frames. Qed.

Lemma quiet_require_or_die s : respects quiet (require_or_die s).
Proof. unfold require_or_die. frames. Qed.

Lemma quiet_long_numeric ok : respects quiet (long_numeric ok).
Proof. unfold long_numeric. frames. Qed.

Lemma quiet_byte_numeric ok : respects quiet (byte_numeric ok).
Proof. unfold byte_numeric. frames. Qed.

Lemma quiet_double_numeric ok : respects quiet (double_numeric ok).
Proof. unfold double_numeric. frames. Qed.

Lemma quiet_set_entry f n pal : respects quiet (set_entry f n pal).
Proof. unfold set_entry. frames. Qed.

Hint Resolve quiet_get_inner_token quiet_require_or_die quiet_long_numeric
  quiet_byte_numeric quiet_double_numeric quiet_set_entry : frames.

Lemma quiet_PLTE_loop fuel pal n : respects quiet (PLTE_loop fuel pal n).
Proof. revert pal n. induction fuel; intros; cbn [PLTE_loop]; frames. Qed.

Lemma silent_set_x c v : respects silent (info (set_x c v)).
Proof.
  apply respects_modify; try exact _. intros w. split; [reflexivity|].
  cbn [with_info info_ptr]. destruct (info_ptr w), c; reflexivity.
Qed.

Lemma silent_set_y c v : respects silent (info (set_y c v)).
Proof.
  apply respects_modify; try exact _. intros w. split; [reflexivity|].
  cbn [with_info info_ptr]. destruct (info_ptr w), c; reflexivity.
Qed.

Lemma silent_set_valid f : respects silent (info (fun i => set_valid (f i) i)).
Proof.
  apply respects_modify; try exact _. intros w. split; [reflexivity|].
  cbn [with_info info_ptr]. destruct (info_ptr w); reflexivity.
Qed.

Hint Resolve silent_set_x silent_set_y silent_set_valid : frames.

Lemma silent_get_inner_token : respects silent get_inner_token.
Proof. apply quiet_silent, quiet_get_inner_token. Qed.

Lemma silent_require_or_die s : respects silent (require_or_die s).
Proof. apply quiet_silent, quiet_require_or_die. Qed.

Lemma silent_double_numeric ok : respects silent (double_numeric ok).
Proof. apply quiet_silent, quiet_double_numeric. Qed.

Hint Resolve silent_get_inner_token silent_require_or_die silent_double_numeric
  : frames.

Lemma silent_cHRM_loop fuel cmask : respects silent (cHRM_loop fuel cmask).
Proof. revert cmask. induction fuel; intros; cbn [cHRM_loop]; frames. Qed.

Hint Resolve silent_cHRM_loop : frames.

Lemma silent_compile_cHRM : respects silent compile_cHRM.
Proof. unfold compile_cHRM. frames. Qed.

End Quiet.

(** The calls that set a part of the image description, and the calls
    that write pixel data. *)
Definition is_setting (c : png_call) : bool :=
  match c with
  | png_set_PLTE _ _ | png_set_gAMA _ | png_set_sRGB_gAMA_and_cHRM _ => true
  | _ => false
  end.

Definition is_data (c : png_call) : bool :=
  match c with
  | png_write_chunk _ _ | png_set_packing | png_write_image _ _ _ => true
  | _ => false
  end.

Section Calls.

Context {P : Platform}.
Local Open Scope sng_scope.

Lemma call_ok c w u w' : call c w = Ok u w' -> w' = with_call c w.
Proof. intros H. injection H as _ <-. reflexivity. Qed.

Lemma compile_PLTE_calls w u w' :
  compile_PLTE w = Ok u w' ->
  (exists pal n, png_calls w' = png_calls w ++ [png_set_PLTE pal n])
  /\ color_type (info_ptr w') = color_type (info_ptr w).
Proof.
  unfold compile_PLTE. intros H.
  apply bind_ok in H as (fuel & w1 & H1 & H). apply get_ok in H1 as [-> ->].
  apply bind_ok in H as ([pal n] & w2 & H2 & H).
  apply quiet_PLTE_loop in H2 as [Hc Hi].
  apply bind_ok in H as (x & w3 & H3 & H). apply call_ok in H3 as ->.
  apply info_ok in H as ->. cbn [with_info with_call png_calls info_ptr].
  rewrite Hc, Hi. split; [eauto|]. destruct (info_ptr w); reflexivity.
Qed.

Lemma compile_IDAT_calls w u w' :
  compile_IDAT w = Ok u w' ->
  (exists d, png_calls w' = png_calls w ++ [png_write_chunk "IDAT" d])
  /\ info_ptr w' = info_ptr w.
Proof.
  unfold compile_IDAT. intros H.
  apply bind_ok in H as ([n bits] & w1 & H1 & H).
  apply quiet_collect_data in H1 as [Hc Hi].
  apply call_ok in H as ->. cbn [with_call png_calls info_ptr].
  rewrite Hc, Hi. eauto.
Qed.

Lemma compile_IMAGE_calls w u w' :
  compile_IMAGE w = Ok u w' ->
  (exists d, png_calls w'
             = png_calls w
               ++ [png_set_packing;
                   png_write_image d (height (info_ptr w)) (width (info_ptr w))])
  /\ info_ptr w' = info_ptr w.
Proof.
  intros H.
  destruct (collect_data (sample_per_char_of (info_ptr w)) w)
    as [[n bits] w1| | |] eqn:E;
    try (unfold compile_IMAGE, bind in H; cbn [get] in H; rewrite E in H;
         discriminate).
  rewrite (compile_IMAGE_run _ _ _ _ E) in H. cbv zeta in H.
  apply quiet_collect_data in E as [Hc Hi].
  do 3 (destruct (negb _); [discriminate|]).
  injection H as _ <-. cbn [with_call with_allocs png_calls info_ptr].
  rewrite Hc, Hi, <- app_assoc. eauto.
Qed.

(** What a chunk that gets through the [switch] has handed to libpng. *)
Lemma chunk_switch_calls chunk prev w w' :
  chunk_switch chunk prev w = Ok tt w' ->
  (chunk = IDAT /\ info_ptr w' = info_ptr w
   /\ exists d, png_calls w'
                = png_calls w
                  ++ (if cnt IDAT w =? 0 then [png_write_info (info_ptr w)] else [])
                  ++ [png_write_chunk "IDAT" d])
  \/ (chunk = IMAGE /\ info_ptr w' = info_ptr w
      /\ exists d, png_calls w'
                   = png_calls w
                     ++ (if cnt IMAGE w =? 0 then [png_write_info (info_ptr w)] else [])
                     ++ [png_set_packing;
                         png_write_image d (height (info_ptr w)) (width (info_ptr w))])
  \/ (chunk <> IDAT /\ chunk <> IMAGE
      /\ (exists l, png_calls w' = png_calls w ++ l /\ forallb is_setting l = true)
      /\ (chunk <> IHDR -> color_type (info_ptr w') = color_type (info_ptr w))).
Proof.
  intros H. unfold chunk_switch in H.
  do 6 (apply bind_ok in H as (? & ? & [= <- <-] & H)).
  unfold cnt.
  each_chunk 26%nat chunk
    ltac:(cbn [Nat.eqb IHDR PLTE IDAT cHRM gAMA iCCP sBIT sRGB bKGD hIST
                 tRNS pHYs sPLT tIME iTXt tEXt zTXt oFFs pCAL sCAL gIFg
                 gIFt gIFx fRAc IMAGE PRIVATE] in H;
          try discriminate;
          try (apply bind_ok in H as ([] & w1 & Hd & H);
               first [apply die_if_ok in Hd as [Hd ->]|idtac];
               try discriminate)).
  - (* IHDR *)
    right. right. apply compile_IHDR_inv in H as (_ & _ & Hc).
    splits; try discriminate; [|intros E; contradiction].
    exists []. rewrite app_nil_r. auto.
  - (* PLTE *)
    assert (w1 = w) as ->.
    { repeat match type of Hd with
             | (if ?b then _ else _) _ = _ => destruct b; try discriminate
             end.
      injection Hd as <-. reflexivity. }
    right. right. apply compile_PLTE_calls in H as [(pal & n & Hc) Hi].
    splits; try discriminate; [|intros _; exact Hi].
    exists [png_set_PLTE pal n]. auto.
  - (* IDAT *)
    left. apply bind_ok in H as ([] & w2 & Hd2 & H).
    apply die_if_ok in Hd2 as [_ ->].
    apply bind_ok in H as ([] & w3 & Hw & H).
    apply compile_IDAT_calls in H as [(d & Hc) Hi].
    split; [reflexivity|].
    destruct (count (entry IDAT w) =? 0).
    + apply call_ok in Hw as ->. cbn [with_call png_calls info_ptr] in *.
      split; [exact Hi|]. exists d. rewrite Hc, <- app_assoc. reflexivity.
    + injection Hw as <-. split; [exact Hi|]. exists d. exact Hc.
  - (* cHRM *)
    right. right. apply silent_compile_cHRM in H as [Hc Hi].
    splits; try discriminate; [|intros _; exact Hi].
    exists []. rewrite app_nil_r. auto.
  - (* gAMA *)
    right. right.
    apply bind_ok in H as (ok & w2 & H2 & H). apply quiet_get_token in H2 as [C2 I2].
    apply bind_ok in H as (g & w3 & H3 & H). apply quiet_double_numeric in H3 as [C3 I3].
    apply bind_ok in H as (x & w4 & H4 & H). apply call_ok in H4 as ->.
    apply bind_ok in H as (ok' & w5 & H5 & H). apply quiet_get_token in H5 as [C5 I5].
    apply bind_ok in H as (e & w6 & H6 & H). apply get_ok in H6 as [-> ->].
    apply die_if_ok in H as [_ ->]. cbn [with_call png_calls info_ptr] in *.
    splits; try discriminate; [|intros _; congruence].
    exists [png_set_gAMA g]. split; [congruence|reflexivity].
  - (* sRGB *)
    right. right.
    apply bind_ok in H as (ok & w2 & H2 & H). apply quiet_get_token in H2 as [C2 I2].
    apply bind_ok in H as (g & w3 & H3 & H). apply quiet_byte_numeric in H3 as [C3 I3].
    apply bind_ok in H as (x & w4 & H4 & H). apply call_ok in H4 as ->.
    apply bind_ok in H as (ok' & w5 & H5 & H). apply quiet_get_token in H5 as [C5 I5].
    apply bind_ok in H as (e & w6 & H6 & H). apply get_ok in H6 as [-> ->].
    apply die_if_ok in H as [_ ->]. cbn [with_call png_calls info_ptr] in *.
    splits; try discriminate; [|intros _; congruence].
    exists [png_set_sRGB_gAMA_and_cHRM g]. split; [congruence|reflexivity].
  - (* IMAGE *)
    right. left. apply bind_ok in H as ([] & w2 & Hw & H).
    apply bind_ok in H as ([] & w3 & Hi3 & H).
    apply quiet_count_up in H as [C4 I4].
    apply compile_IMAGE_calls in Hi3 as [(d & Hc) Hi].
    split; [reflexivity|].
    destruct (count (entry IMAGE w) =? 0).
    + apply call_ok in Hw as ->. cbn [with_call png_calls info_ptr] in *.
      split; [congruence|]. exists d. rewrite C4, Hc, <- app_assoc. reflexivity.
    + injection Hw as <-. split; [congruence|]. exists d. cbn [app]. congruence.
  - (* no such chunk *)
    injection H as <-. right. right.
    splits; try discriminate; [|reflexivity].
    exists []. rewrite app_nil_r. auto.
Qed.

End Calls.

Section Trace.

Context {P : Platform}.
Local Open Scope sng_scope.

Lemma chunk_step_calls prev w chunk w' :
  chunk_step prev w = Ok (Z.of_nat chunk) w' ->
  (chunk = IDAT /\ info_ptr w' = info_ptr w
   /\ exists d, png_calls w'
                = png_calls w
                  ++ (if cnt IDAT w =? 0 then [png_write_info (info_ptr w)] else [])
                  ++ [png_write_chunk "IDAT" d])
  \/ (chunk = IMAGE /\ info_ptr w' = info_ptr w
      /\ exists d, png_calls w'
                   = png_calls w
                     ++ (if cnt IMAGE w =? 0 then [png_write_info (info_ptr w)] else [])
                     ++ [png_set_packing;
                         png_write_image d (height (info_ptr w)) (width (info_ptr w))])
  \/ (chunk <> IDAT /\ chunk <> IMAGE
      /\ (exists l, png_calls w' = png_calls w ++ l /\ forallb is_setting l = true)
      /\ (chunk <> IHDR -> color_type (info_ptr w') = color_type (info_ptr w))).
Proof.
  intros H. apply chunk_step_ok in H
    as (c & w1 & w2 & _ & Hc & Hg & _ & _ & Hs & ->).
  apply Nat2Z.inj in Hc. subst c.
  destruct (table_get_token _ _ _ Hg) as [_ Hcnt].
  apply quiet_get_token in Hg as [Hcalls Hinfo].
  apply chunk_switch_calls in Hs.
  cbn [with_properties png_calls info_ptr].
  rewrite !Hcnt, Hcalls, Hinfo in Hs. exact Hs.
Qed.

Lemma steps_snoc_inv prev w h c prev' w' :
  steps prev w (h ++ [c]) prev' w' ->
  exists p1 w1 w2,
    steps prev w h p1 w1 /\ get_token w1 = Ok true w2
    /\ chunk_step p1 w2 = Ok (Z.of_nat c) w'.
Proof.
  intros H. apply steps_app_inv in H as (p1 & w1 & Ha & Hb).
  inversion Hb as [|? ? w2 ? w3 ? ? ? Hg Hs Hrest]; subst.
  inversion Hrest; subst. eauto 10.
Qed.

(** The calls made so far: settings only until the first pixel data,
    then [png_write_info], once, and pixel data after it. *)
Definition calls_inv (h : list nat) (w : world) : Prop :=
  (~ In IDAT h /\ ~ In IMAGE h /\ forallb is_setting (png_calls w) = true)
  \/ ((In IDAT h \/ In IMAGE h)
      /\ exists pre data,
           png_calls w = pre ++ png_write_info (info_ptr w) :: data
           /\ forallb is_setting pre = true
           /\ forallb is_data data = true /\ data <> []).

Lemma guard_no_data c h :
  guard c h -> c <> IDAT -> ~ In IDAT h /\ ~ In IMAGE h.
Proof.
  unfold guard.
  intros [[-> ->]|[(-> & _ & H1 & H2)|[[-> _]|[(_ & _ & _ & H1 & H2)|(-> & H1 & H2)]]]] Hc;
    auto; contradiction.
Qed.

Lemma reached_calls fin h : forall prev w,
  reached fin h prev w -> calls_inv h w.
Proof.
  induction h as [|c h IH] using rev_ind; intros prev w Hr.
  - inversion Hr; subst. left. simpl. auto.
  - pose proof (guard_at _ _ _ _ _ _ Hr) as Hguard.
    apply steps_snoc_inv in Hr as (p1 & w1 & w2 & Ha & Hg & Hs).
    pose proof (reached_counts _ _ _ _ Ha) as (_ & _ & Hcnt).
    specialize (IH _ _ Ha).
    destruct (table_get_token _ _ _ Hg) as [_ Hcnt2].
    apply quiet_get_token in Hg as [Hcalls Hinfo].
    apply chunk_step_calls in Hs.
    rewrite !Hcnt2, Hcalls, Hinfo in Hs.
    pose proof (occ_nonneg IDAT h) as Hn1. pose proof (occ_nonneg IMAGE h) as Hn2.
    destruct Hs as [(-> & Hi & d & Hc)|[(-> & Hi & d & Hc)|(Hc1 & Hc2 & (l & Hc & Hl) & _)]].
    + (* IDAT *)
      right. split; [left; apply in_or_app; right; left; reflexivity|].
      rewrite Hi, Hc, Hcnt, decide_True by reflexivity.
      destruct IH as [(H1 & H2 & Hset)|(Hd & pre & data & E & Hpre & Hdata & Hne)].
      * apply occ_zero in H1, H2. rewrite H1, H2. cbn [Z.add Z.eqb].
        exists (png_calls w1), [png_write_chunk "IDAT" d].
        splits; auto; discriminate.
      * assert (Hpos : occ IDAT h + occ IMAGE h <> 0).
        { destruct Hd as [Hd|Hd]; apply occ_pos in Hd; lia. }
        apply Z.eqb_neq in Hpos. rewrite Hpos. cbn [app].
        exists pre, (data ++ [png_write_chunk "IDAT" d]).
        rewrite E, <- app_assoc. cbn [app]. splits; auto.
        -- rewrite forallb_app, Hdata. reflexivity.
        -- intros E'. apply app_eq_nil in E' as [_ E']. discriminate.
    + (* IMAGE *)
      right. split; [right; apply in_or_app; right; left; reflexivity|].
      destruct (guard_no_data _ _ Hguard) as [H1 H2]; [discriminate|].
      rewrite Hi, Hc, Hcnt, decide_False by discriminate.
      apply occ_zero in H2 as H2'. rewrite H2', Z.add_0_r. cbn [Z.eqb].
      destruct IH as [(_ & _ & Hset)|([Hd|Hd] & _)]; try contradiction.
      exists (png_calls w1),
        [png_set_packing; png_write_image d (height (info_ptr w1)) (width (info_ptr w1))].
      splits; auto; discriminate.
    + (* a chunk without pixel data *)
      destruct (guard_no_data _ _ Hguard Hc1) as [H1 H2].
      destruct IH as [(_ & _ & Hset)|([Hd|Hd] & _)]; try contradiction.
      left. splits.
      * intros Hin. apply in_app_or in Hin as [Hin|[Hin|[]]]; auto.
      * intros Hin. apply in_app_or in Hin as [Hin|[Hin|[]]]; auto.
      * rewrite Hc, forallb_app, Hset, Hl. reflexivity.
Qed.

(** A loop that returns has read chunks up to the end of the input. *)
Lemma pngc_loop_steps fuel : forall prev w u w',
  pngc_loop fuel prev w = Ok u w' ->
  exists h prev1 w1, steps prev w h prev1 w1 /\ get_token w1 = Ok false w'.
Proof.
  induction fuel as [|fuel IH]; intros prev w u w' H; [discriminate|].
  cbn [pngc_loop] in H. apply bind_ok in H as (ok & w1 & Hg & H).
  destruct ok; cbn [negb] in H.
  - apply bind_ok in H as (p & w2 & Hs & H).
    pose proof (chunk_step_ok _ _ _ _ Hs) as (c & _ & _ & _ & -> & _).
    apply IH in H as (h & prev1 & w3 & Hsteps & Hend).
    exists (c :: h), prev1, w3. split; [|exact Hend].
    econstructor; eauto.
  - injection H as _ <-. exists [], prev, w. split; [constructor|exact Hg].
Qed.

Lemma pngc_ok fin r w :
  pngc fin = Ok r w ->
  exists h prev w1 w2,
    reached fin h prev w1 /\ get_token w1 = Ok false w2 /\ pngc_end w2 = Ok r w.
Proof.
  unfold pngc, pngc_body. intros H.
  apply bind_ok in H as (fuel & w0 & H0 & H). apply get_ok in H0 as [-> ->].
  apply bind_ok in H as (u & w2 & Hl & H).
  apply pngc_loop_steps in Hl as (h & prev & w1 & Hs & Hg).
  exists h, prev, w1, w2. auto.
Qed.

(** X24.  What a compile that returns has handed to libpng, in order:
    settings (the palette, the gamma, the rendering intent), then
    [png_write_info], once, with the image description as it stands at
    the end, then pixel data and nothing but pixel data (IDAT chunks, or
    the packing request and the image), and [png_write_end] last.  (The
    calls that create and destroy the structures of libpng and
    [png_init_io] are not among the calls recorded in [png_calls].) *)
Theorem compile_call_order fin r w :
  pngc fin = Ok r w ->
  exists pre data,
    png_calls w = pre ++ png_write_info (info_ptr w) :: data ++ [png_write_end]
    /\ forallb is_setting pre = true
    /\ forallb is_data data = true /\ data <> [].
Proof.
  intros H. apply pngc_ok in H as (h & prev & w1 & w2 & Hr & Hg & He).
  pose proof (reached_counts _ _ _ _ Hr) as (_ & _ & Hcnt).
  apply reached_calls in Hr.
  destruct (table_get_token _ _ _ Hg) as [_ Hcnt2].
  apply quiet_get_token in Hg as [Hcalls Hinfo].
  rewrite pngc_end_spec in He.
  destruct (_ && _); [discriminate|].
  destruct (Z.eqb_spec (cnt IDAT w2) 0) as [E|E]; [discriminate|].
  injection He as _ <-.
  cbn [with_call with_input png_calls info_ptr]. rewrite Hcalls, Hinfo.
  destruct Hr as [(H1 & H2 & _)|(_ & pre & data & Ec & Hpre & Hdata & Hne)].
  - exfalso. apply E. rewrite Hcnt2, Hcnt, decide_True by reflexivity.
    apply occ_zero in H1, H2. lia.
  - exists pre, data. rewrite Ec, <- app_assoc. auto.
Qed.

Lemma steps_color prev w h prev' w' :
  steps prev w h prev' w' -> ~ In IHDR h ->
  color_type (info_ptr w') = color_type (info_ptr w).
Proof.
  induction 1 as [prev w|prev w w1 chunk w2 h prev' w3 Hg Hs _ IH]; intros Hn;
    [reflexivity|].
  rewrite IH by (intros Hin; apply Hn; right; exact Hin).
  apply quiet_get_token in Hg as [_ Hi]. rewrite <- Hi.
  apply chunk_step_calls in Hs
    as [(_ & -> & _)|[(_ & -> & _)|(_ & _ & _ & Hc)]]; try reflexivity.
  apply Hc. intros ->. apply Hn. left. reflexivity.
Qed.

(** X25.  A palette is accepted only for an image whose header sets the
    palette flag: when a PLTE chunk is among the chunks processed, the
    flag is set in the image description.  The colour type is settled by
    the first chunk: it is the same after every chunk processed. *)
Theorem palette_needs_flag fin h prev w :
  reached fin h prev w ->
  (In PLTE h -> palette_flag w = true)
  /\ forall h1 c h2 p1 w1,
       h = h1 ++ c :: h2 -> reached fin (h1 ++ [c]) p1 w1 ->
       color_type (info_ptr w) = color_type (info_ptr w1).
Proof.
  intros Hr.
  assert (Hlater : forall h1 c h2, h = h1 ++ c :: h2 -> ~ In IHDR h2).
  { intros h1 c h2 -> Hin. apply in_split in Hin as (l1 & l2 & ->).
    replace (h1 ++ c :: l1 ++ IHDR :: l2) with ((h1 ++ c :: l1) ++ IHDR :: l2) in Hr
      by (rewrite <- app_assoc; reflexivity).
    apply guard_at in Hr.
    destruct Hr as [[_ E]|[[E _]|[[E _]|[[[E|[E|E]] _]|[E _]]]]]; try discriminate.
    destruct h1; discriminate. }
  assert (Hsplit : forall h1 c h2, h = h1 ++ c :: h2 ->
            exists p1 w1 w2 w3,
              steps NONE (world0 fin) h1 p1 w1
              /\ get_token w1 = Ok true w2
              /\ chunk_step p1 w2 = Ok (Z.of_nat c) w3
              /\ steps (Z.of_nat c) w3 h2 prev w).
  { intros h1 c h2 ->. apply steps_app_inv in Hr as (p1 & w1 & Ha & Hb).
    inversion Hb as [|? ? w2 ? w3 ? ? ? Hg Hs Hrest]; subst. eauto 10. }
  split.
  - intros Hin. apply in_split in Hin as (h1 & h2 & E).
    destruct (Hsplit _ _ _ E) as (p1 & w1 & w2 & w3 & Ha & Hg & Hs & Hb).
    apply steps_color in Hb; [|eapply Hlater; eassumption].
    pose proof (chunk_step_calls _ _ _ _ Hs) as [(E' & _)|[(E' & _)|(_ & _ & _ & Hc)]];
      try discriminate.
    apply chunk_step_ok in Hs as (c & w4 & w5 & _ & Hc' & Hg2 & _ & _ & Hsw & _).
    apply Nat2Z.inj in Hc'. subst c.
    apply chunk_switch_guard in Hsw
      as [[E' _]|[(_ & _ & Hf)|[[E' _]|[[[E'|[E'|E']] _]|[[E' _]|Hge]]]]];
      try discriminate; [|unfold PLTE in Hge; lia].
    apply quiet_get_token in Hg2 as [_ Hi2].
    unfold palette_flag in *. rewrite Hb, Hc, <- Hi2 by discriminate. exact Hf.
  - intros h1 c h2 p1 w1 E Hr1.
    destruct (Hsplit _ _ _ E) as (p1' & w1' & w2 & w3 & Ha & Hg & Hs & Hb).
    apply steps_color in Hb; [|eapply Hlater; eassumption].
    rewrite Hb. f_equal. f_equal.
    apply steps_snoc_inv in Hr1 as (q1 & v1 & v2 & Ha' & Hg' & Hs').
    assert (Hdet : forall l a b c d e f,
               steps a b l c d -> steps a b l e f -> c = e /\ d = f).
    { clear. intros l a b c d e f H1. revert e f.
      induction H1 as [|? ? ? ? ? ? ? ? Hg Hs _ IH]; intros e f H2;
        inversion H2; subst; [auto|].
      apply IH. congruence. }
    destruct (Hdet _ _ _ _ _ _ _ Ha Ha') as [-> ->]. congruence.
Qed.

End Trace.

Lemma compile_call_order_witness :
  exists r w pre data,
    @pngc example_platform
      "IHDR { width 1 height 1 using palette } gAMA { 1 } PLTE { (1,2,3) } IDAT { 00 } IDAT { 01 }"
    = Ok r w
    /\ png_calls w = pre ++ png_write_info (info_ptr w) :: data ++ [png_write_end]
    /\ forallb is_setting pre = true
    /\ forallb is_data data = true /\ data <> [].
Proof.
  assert (E : exists r w,
             @pngc example_platform
               "IHDR { width 1 height 1 using palette } gAMA { 1 } PLTE { (1,2,3) } IDAT { 00 } IDAT { 01 }"
             = Ok r w) by (vm_compute; eauto).
  destruct E as (r & w & E). exists r, w.
  destruct (compile_call_order _ _ _ E) as (pre & data & H).
  exists pre, data. split; [exact E|exact H].
Defined.

Lemma palette_needs_flag_witness :
  exists prev w,
    @reached example_platform
      "IHDR { width 1 height 1 using palette } PLTE { (1,2,3) } IDAT { 00 }"
      [IHDR; PLTE; IDAT] prev w
    /\ palette_flag w = true.
Proof.
  assert (Hr : exists prev w,
             @reached example_platform
               "IHDR { width 1 height 1 using palette } PLTE { (1,2,3) } IDAT { 00 }"
               [IHDR; PLTE; IDAT] prev w).
  { eexists _, _. run_chunks. }
  destruct Hr as (prev & w & Hr). exists prev, w. split; [exact Hr|].
  apply (palette_needs_flag _ _ _ _ Hr). right. left. reflexivity.
Defined.

(** ** The image of a palette *)

(** X26.  The IMAGE of a palette image with at most 62 colours is read
    in format 1, one character for each pixel: when the characters of its
    body number width * height (and at most 1024), and the width is not
    zero, [compile_IMAGE] asks libpng for packing and hands it the palette
    indices that the characters stand for, in order.  This is so when
    [malloc] serves the block of the row pointers, one pointer of 4 bytes
    for each row; when it does not, the compile ends with "out of
    memory". *)
Theorem palette_image {P : Platform} (w : world) (body rest : string) :
  color_type (info_ptr w) = PNG_COLOR_TYPE_PALETTE ->
  num_palette (info_ptr w) <= 62 ->
  all_chars dense_char body = true ->
  (length (dense_bytes body) <= 1024)%nat ->
  Z.of_nat (length (dense_bytes body)) = width (info_ptr w) * height (info_ptr w) ->
  0 < width (info_ptr w) ->
  exists w',
    compile_IMAGE (with_input (body +:+ String "}" rest) (linenum w) w)
    = (if malloc_ok (S (S (allocs w))) (4 * height (info_ptr w))
       then Ok tt w' else Fatal (linenum w) "out of memory")
    /\ yyin w' = rest
    /\ png_calls w'
       = png_calls w
         ++ [png_set_packing;
             png_write_image (dense_bytes body)
               (height (info_ptr w)) (width (info_ptr w))].
Proof.
  intros Hct Hnp Hall Hn Hsize Hw.
  assert (Hh : 0 <= height (info_ptr w) <= 1024).
  { split.
    - destruct (Z.le_gt_cases 0 (height (info_ptr w))) as [H|H]; [exact H|].
      pose proof (Z.mul_pos_neg _ _ Hw H). lia.
    - destruct (Z.le_gt_cases (height (info_ptr w)) 1024) as [H|H]; [exact H|].
      assert (1 * height (info_ptr w) <= width (info_ptr w) * height (info_ptr w))
        by (apply Z.mul_le_mono_nonneg_r; lia).
      lia. }
  destruct (dense_prefix body (S (allocs w)) (malloc (S (allocs w)) MEMORY_QUANTUM)
              0 0 (String "}" rest) Hall) as (bits & E & Hl & Ht);
    [apply length_malloc|simpl; exact Hn|].
  cbn [Nat.add] in E, Ht. cbn [collect_loop] in E.
  change (code "}" =? 0) with false in E. cbv iota in E.
  change (Ascii.eqb "}" "}") with true in E. cbv iota in E.
  assert (Hmode : sample_per_char_of (info_ptr w) = true).
  { unfold sample_per_char_of. rewrite Hct.
    destruct (Z.leb_spec (num_palette (info_ptr w)) 62); [|lia].
    rewrite andb_true_r, orb_true_r. reflexivity. }
  assert (Hexp : image_size_of (info_ptr w) = Z.of_nat (length (dense_bytes body))).
  { unfold image_size_of, sample_size_of. rewrite Hct, <- Hsize.
    cbn [Z.eqb PNG_COLOR_TYPE_PALETTE PNG_COLOR_TYPE_GRAY Pos.eqb].
    change (u32 (Z.quot 8 8)) with 1. rewrite Z.mul_1_r.
    unfold u32. rewrite Z.mod_mod by lia. apply Z.mod_small. lia. }
  pose (w0 := with_input (body +:+ String "}" rest) (linenum w) w).
  assert (Hc : collect_data (sample_per_char_of (info_ptr w0)) w0
               = Ok (length (dense_bytes body), bits)
                   (with_allocs (S (allocs w)) (with_input rest (linenum w) w0))).
  { unfold w0. cbn [with_input info_ptr]. rewrite Hmode. unfold collect_data.
    cbn [with_input yyin allocs linenum]. rewrite E. reflexivity. }
  eexists. fold w0. rewrite (compile_IMAGE_run _ _ _ _ Hc). cbv zeta.
  unfold w0. cbn [with_input with_allocs info_ptr allocs linenum].
  rewrite Hexp. rewrite row_slots_small by (cbn [with_input info_ptr]; lia).
  replace (u32 (Z.of_nat (length (dense_bytes body))))
    with (Z.of_nat (length (dense_bytes body)))
    by (unfold u32; rewrite Z.mod_small; lia).
  replace (u32 (sizeof_pointer * height (info_ptr w)))
    with (4 * height (info_ptr w))
    by (unfold u32, sizeof_pointer; rewrite Z.mod_small; lia).
  rewrite Z.eqb_refl, Z.leb_refl. cbn [negb]. rewrite Ht.
  split; [destruct (malloc_ok _ _); reflexivity|].
  split; [reflexivity|].
  cbn [with_call with_allocs with_input png_calls].
  rewrite <- app_assoc. reflexivity.
Qed.

Lemma palette_image_witness :
  exists w',
    @compile_IMAGE example_platform
      (with_info (set_palette [] 3 (set_color_type 3 (set_height 2 (set_width 3 info0))))
         (world0 ("012" +:+ String newline "210} ")))
    = Ok tt w'
    /\ yyin w' = " "
    /\ png_calls w' = [png_set_packing; png_write_image [0; 1; 2; 2; 1; 0] 2 3].
Proof.
  destruct (@palette_image example_platform
              (with_info (set_palette [] 3 (set_color_type 3 (set_height 2 (set_width 3 info0))))
                 (world0 ""))
              ("012" +:+ String newline "210") " ")
    as (w' & H); try reflexivity; try (vm_compute; try lia; discriminate).
  exists w'. exact H.
Defined.

(** ** Chromaticities *)

(** The colour that a name stands for in a cHRM specification. *)
Definition chroma_of (t : string) : option chroma :=
  if String.eqb "white" t then Some white
  else if String.eqb "red" t then Some red_
  else if String.eqb "green" t then Some green_
  else if String.eqb "blue" t then Some blue_
  else None.

Definition chroma_eqb (a b : chroma) : bool :=
  match a, b with
  | white, white | red_, red_ | green_, green_ | blue_, blue_ => true
  | _, _ => false
  end.

(** The tokens of one entry of a cHRM specification: the name of the
    colour and its two coordinates. *)
Definition chroma_tokens (e : string * string * string) : list string :=
  let '(c, x, y) := e in [c; "("; x; ","; y; ")"].

(** The colour [c] is named by one of the entries. *)
Definition names (es : list (string * string * string)) (c : chroma) : bool :=
  existsb (fun e => match chroma_of (fst (fst e)) with
                    | Some c' => chroma_eqb c c'
                    | None => false
                    end) es.

Section Chroma.

Context {P : Platform}.
Local Open Scope sng_scope.

(** A token that [double_numeric] accepts after [get_inner_token]: it
    is not the closing brace, [strtod] reads all of it, and the value is
    not negative. *)
Definition double_token (t : string) : bool :=
  negb (String.eqb "}" t) && negb (nonempty (snd (strtod t)))
  && negb (double_negative (fst (strtod t))).

Definition chroma_ok (e : string * string * string) : bool :=
  let '(c, x, y) := e in
  match chroma_of c with Some _ => true | None => false end
  && double_token x && double_token y.

Lemma get_token_with_info i w :
  get_token (with_info i w)
  = match get_token w with
    | Ok b w1 => Ok b (with_info i w1)
    | Fatal line msg => Fatal line msg
    | Undefined what => Undefined what
    | OutOfFuel => OutOfFuel
    end.
Proof.
  unfold get_token. cbn [with_info pushed yyin linenum].
  destruct (pushed w); [reflexivity|].
  destruct (skip_blanks false (yyin w) (linenum w)) as [[[c r]|] line];
    [|reflexivity].
  destruct (if _ || _ then _ else _); try reflexivity.
  destruct (81 <=? String.length tok)%nat; reflexivity.
Qed.

Lemma info_with_info f i w : info f (with_info i w) = Ok tt (with_info (f i) w).
Proof. reflexivity. Qed.

Lemma with_info_same w : with_info (info_ptr w) w = w.
Proof. destruct w; reflexivity. Qed.

Lemma mask_range m c : 0 <= m <= 15 -> 0 <= Z.lor m (chroma_bit c) <= 15.
Proof.
  intros Hm.
  assert (m = 0 \/ m = 1 \/ m = 2 \/ m = 3 \/ m = 4 \/ m = 5 \/ m = 6 \/ m = 7
          \/ m = 8 \/ m = 9 \/ m = 10 \/ m = 11 \/ m = 12 \/ m = 13 \/ m = 14
          \/ m = 15) as Hcases by lia.
  repeat (destruct Hcases as [->|Hcases]); try subst m;
    destruct c; vm_compute; split; discriminate.
Qed.

(** The bit of a colour in [cmask]. *)
Definition chroma_index (c : chroma) : Z :=
  match c with white => 0 | red_ => 1 | green_ => 2 | blue_ => 3 end.

Lemma mask_bit m c c' :
  Z.testbit (Z.lor m (chroma_bit c)) (chroma_index c')
  = Z.testbit m (chroma_index c') || chroma_eqb c' c.
Proof. rewrite Z.lor_spec. f_equal. destruct c, c'; reflexivity. Qed.

Lemma mask_full m :
  0 <= m <= 15 ->
  (m =? 15)
  = Z.testbit m 0 && Z.testbit m 1 && Z.testbit m 2 && Z.testbit m 3.
Proof.
  intros Hm.
  assert (m = 0 \/ m = 1 \/ m = 2 \/ m = 3 \/ m = 4 \/ m = 5 \/ m = 6 \/ m = 7
          \/ m = 8 \/ m = 9 \/ m = 10 \/ m = 11 \/ m = 12 \/ m = 13 \/ m = 14
          \/ m = 15) as Hcases by lia.
  repeat (destruct Hcases as [->|Hcases]); try subst m; reflexivity.
Qed.

Lemma double_numeric_token i w :
  double_token (token_buffer w) = true ->
  exists v, double_numeric true (with_info i w) = Ok v (with_info i w).
Proof.
  unfold double_token, double_numeric, bind. cbn [negb get with_info token_buffer].
  destruct (strtod (token_buffer w)) as [v rest]. cbn [fst snd].
  intros H. apply andb_prop in H as [H H3]. apply andb_prop in H as [_ H2].
  apply negb_true_iff in H2, H3. rewrite H2, H3. eauto.
Qed.

Lemma require_with_info i w w1 s :
  get_token w = Ok true w1 -> token_buffer w1 = s ->
  require_or_die s (with_info i w) = Ok tt (with_info i w1).
Proof.
  intros Hg Ht. apply require_ok; [|exact Ht].
  rewrite get_token_with_info, Hg. reflexivity.
Qed.

Lemma inner_with_info i w w1 :
  get_token w = Ok true w1 ->
  get_inner_token (with_info i w)
  = Ok (negb (String.eqb "}" (token_buffer w1))) (with_info i w1).
Proof.
  intros Hg. rewrite (inner_token _ (with_info i w1)); [reflexivity|].
  rewrite get_token_with_info, Hg. reflexivity.
Qed.

(** The loop of [compile_cHRM] on well-formed entries. *)
Lemma cHRM_entries es : forall fuel cmask i w w',
  (length es < fuel)%nat -> 0 <= cmask <= 15 ->
  forallb chroma_ok es = true ->
  reads w (concat (map chroma_tokens es) ++ ["}"]) w' ->
  exists m i',
    cHRM_loop fuel cmask (with_info i w) = Ok m (with_info i' w')
    /\ 0 <= m <= 15 /\ valid i' = valid i
    /\ forall c, Z.testbit m (chroma_index c)
                 = Z.testbit cmask (chroma_index c) || names es c.
Proof.
  induction es as [|[[c x] y] es IH]; intros fuel cmask i w w' Hf Hm Hok Hr.
  - destruct fuel as [|fuel]; [simpl in Hf; lia|].
    simpl in Hr. inversion Hr as [|? w1 ? ? ? Hg Ht Hr']; subst.
    inversion Hr'; subst.
    exists cmask, i. cbn [cHRM_loop]. unfold bind.
    rewrite (inner_with_info _ _ _ Hg), Ht. cbn.
    splits; auto; try lia. intros c. rewrite orb_false_r. reflexivity.
  - destruct fuel as [|fuel]; [simpl in Hf; lia|].
    cbn [forallb chroma_ok] in Hok.
    apply andb_prop in Hok as [Hc Hok].
    apply andb_prop in Hc as [Hc Hy]. apply andb_prop in Hc as [Hc Hx].
    destruct (chroma_of c) as [col|] eqn:Ecol; [|discriminate].
    cbn [map concat chroma_tokens app] in Hr.
    inversion Hr as [|? w1 ? ? ? G1 T1 R1]; subst.
    inversion R1 as [|? w2 ? ? ? G2 T2 R2]; subst.
    inversion R2 as [|? w3 ? ? ? G3 T3 R3]; subst.
    inversion R3 as [|? w4 ? ? ? G4 T4 R4]; subst.
    inversion R4 as [|? w5 ? ? ? G5 T5 R5]; subst.
    inversion R5 as [|? w6 ? ? ? G6 T6 R6]; subst.
    cbn [length] in Hf.
    pose proof Hx as Hx'. pose proof Hy as Hy'.
    unfold double_token in Hx', Hy'.
    apply andb_prop in Hx' as [Hx' _]. apply andb_prop in Hx' as [Hx' _].
    apply andb_prop in Hy' as [Hy' _]. apply andb_prop in Hy' as [Hy' _].
    destruct (double_numeric_token i w3 Hx) as (vx & Ex).
    destruct (double_numeric_token (set_x col vx i) w5 Hy) as (vy & Ey).
    destruct (IH fuel (Z.lor cmask (chroma_bit col)) (set_y col vy (set_x col vx i))
                w6 w') as (m & i' & E & Hm' & Hv & Hbits); auto.
    { lia. }
    { apply mask_range. exact Hm. }
    exists m, i'. cbn [cHRM_loop].
    unfold bind at 1. rewrite (inner_with_info _ _ _ G1).
    assert (Hnot : String.eqb "}" (token_buffer w1) = false).
    { unfold chroma_of in Ecol.
      destruct (String.eqb_spec "}" (token_buffer w1)) as [E'|]; [|reflexivity].
      rewrite <- E' in Ecol. discriminate. }
    rewrite Hnot. cbn [negb].
    unfold bind at 1. cbn [get with_info token_buffer].
    assert (Hname : (if String.eqb "white" (token_buffer w1) then ret white
                     else if String.eqb "red" (token_buffer w1) then ret red_
                     else if String.eqb "green" (token_buffer w1) then ret green_
                     else if String.eqb "blue" (token_buffer w1) then ret blue_
                     else fatal "invalid color name in cHRM specification")
                    = ret col).
    { unfold chroma_of in Ecol.
      repeat destruct (String.eqb _ (token_buffer w1)); try discriminate;
        injection Ecol as <-; reflexivity. }
    unfold bind at 1. rewrite Hname. cbn [ret].
    unfold bind at 1. rewrite (require_with_info _ _ _ _ G2 T2).
    unfold bind at 1. rewrite (inner_with_info _ _ _ G3), Hx'. cbn [negb].
    unfold bind at 1. rewrite Ex.
    unfold bind at 1. rewrite info_with_info.
    unfold bind at 1. rewrite (require_with_info _ _ _ _ G4 T4).
    unfold bind at 1. rewrite (inner_with_info _ _ _ G5), Hy'. cbn [negb].
    unfold bind at 1. rewrite Ey.
    unfold bind at 1. rewrite info_with_info.
    unfold bind at 1. rewrite (require_with_info _ _ _ _ G6 T6).
    split; [exact E|]. split; [exact Hm'|]. split.
    + rewrite Hv. destruct i, col; reflexivity.
    + intros c0. rewrite Hbits, mask_bit. cbn [names existsb fst].
      rewrite Ecol, orb_assoc. reflexivity.
Qed.

(** X27.  A cHRM specification of well-formed entries is accepted when
    each of the four colours white, red, green and blue is named by one
    of them, in any order and however often, and is the fatal error "cHRM
    specification is not complete" otherwise.  When it is accepted,
    [info_ptr->valid |= cHRM] sets the bits of the value 3, the index of
    the chunk in the table. *)
Theorem chromaticities_complete w w' es :
  pushed w = false ->
  forallb chroma_ok es = true ->
  reads w (concat (map chroma_tokens es) ++ ["}"]) w' ->
  (names es white && names es red_ && names es green_ && names es blue_ = true ->
   exists w'', compile_cHRM w = Ok tt w''
               /\ yyin w'' = yyin w'
               /\ valid (info_ptr w'') = Z.lor (valid (info_ptr w)) 3)
  /\ (names es white && names es red_ && names es green_ && names es blue_ = false ->
      compile_cHRM w = Fatal (linenum w') "cHRM specification is not complete").
Proof.
  intros Hp Hok Hr.
  pose proof (reads_length _ _ _ Hr Hp) as Hlen.
  rewrite length_app in Hlen. cbn [length] in Hlen.
  assert (Hc : (length es <= length (concat (map chroma_tokens es)))%nat).
  { clear. induction es as [|[[c x] y] es IH]; simpl; lia. }
  destruct (cHRM_entries es (fuel_of w) 0 (info_ptr w) w w')
    as (m & i' & E & Hm & Hv & Hbits);
    [unfold fuel_of; lia|lia|assumption|assumption|].
  rewrite with_info_same in E.
  assert (Hfull : (m =? 15)
                  = names es white && names es red_ && names es green_ && names es blue_).
  { rewrite (mask_full m Hm).
    pose proof (Hbits white) as H0. pose proof (Hbits red_) as H1.
    pose proof (Hbits green_) as H2. pose proof (Hbits blue_) as H3.
    cbn [chroma_index] in H0, H1, H2, H3. rewrite H0, H1, H2, H3.
    reflexivity. }
  unfold compile_cHRM, bind. cbn [get]. rewrite E, Hfull.
  split; intros Hn; rewrite Hn; cbn [negb]; [|reflexivity].
  eexists. split; [reflexivity|].
  cbn [with_info yyin info_ptr]. split; [reflexivity|].
  rewrite <- Hv. destruct i'; reflexivity.
Qed.

End Chroma.

(** Reads the tokens of a given input. *)
Ltac run_read :=
  lazymatch goal with
  | |- reads ?w (?t :: ?ts) ?w' =>
      let r := eval vm_compute in (get_token w) in
      lazymatch r with
      | Ok true ?w1 =>
          apply (reads_cons w w1 t ts w');
          [vm_compute; reflexivity|vm_compute; reflexivity|]
      end
  end.

Ltac run_reads := repeat run_read; apply reads_nil.

Lemma chromaticities_complete_witness :
  (exists w'',
      @compile_cHRM example_platform
        (world0 "blue (1,2) white (3,4) green (5,6) red (7,8) white (9,9) }")
      = Ok tt w''
      /\ yyin w'' = "" /\ valid (info_ptr w'') = 3)
  /\ @compile_cHRM example_platform (world0 "white (3,4) green (5,6) red (7,8) }")
     = Fatal 0 "cHRM specification is not complete".
Proof.
  split.
  - destruct (@chromaticities_complete example_platform
                (world0 "blue (1,2) white (3,4) green (5,6) red (7,8) white (9,9) }")
                (with_token "}" (world0 ""))
                [("blue", "1", "2"); ("white", "3", "4"); ("green", "5", "6");
                 ("red", "7", "8"); ("white", "9", "9")]) as [H _];
      [reflexivity|vm_compute; reflexivity|simpl; run_reads|].
    apply H. reflexivity.
  - destruct (@chromaticities_complete example_platform
                (world0 "white (3,4) green (5,6) red (7,8) }")
                (with_token "}" (world0 ""))
                [("white", "3", "4"); ("green", "5", "6"); ("red", "7", "8")])
      as [_ H];
      [reflexivity|vm_compute; reflexivity|simpl; run_reads|].
    apply H. reflexivity.
Defined.

(** ** The palette *)

(** X28.  A palette chunk of N entries, N at most 256, whose channels
    are tokens that [strtoul] reads entirely to values up to 255, gives
    [png_set_PLTE] exactly these N entries, in the order of the input,
    each channel a byte; the entries and their number are then those of
    the image description. *)
Theorem palette_entries w w' cols :
  pushed w = false ->
  (length cols <= 256)%nat ->
  forallb triple_ok cols = true ->
  reads w (concat (map triple_tokens cols) ++ ["}"]) w' ->
  exists w'',
    compile_PLTE w = Ok tt w''
    /\ yyin w'' = yyin w'
    /\ png_calls w''
       = png_calls w' ++ [png_set_PLTE (map triple_color cols) (length cols)]
    /\ palette (info_ptr w'') = map triple_color cols
    /\ num_palette (info_ptr w'') = Z.of_nat (length cols)
    /\ Forall (fun c => 0 <= red c <= 255 /\ 0 <= green c <= 255
                        /\ 0 <= blue c <= 255) (map triple_color cols).
Proof.
  intros Hp Hn Hok Hr.
  rewrite (palette_in_order _ _ _ Hp Hn Hok Hr).
  eexists. split; [reflexivity|].
  cbn [with_info with_call yyin png_calls info_ptr].
  split; [reflexivity|]. split; [reflexivity|].
  split; [destruct (info_ptr w'); reflexivity|].
  split; [destruct (info_ptr w'); reflexivity|].
  apply Forall_map. apply Forall_forall. intros [[r g] b] _.
  unfold triple_color, byte_of, u8. cbn [red green blue].
  pose proof (Z.mod_pos_bound (fst (strtoul r)) 256).
  pose proof (Z.mod_pos_bound (fst (strtoul g)) 256).
  pose proof (Z.mod_pos_bound (fst (strtoul b)) 256). lia.
Qed.

Lemma palette_entries_witness :
  exists w'',
    compile_PLTE (world0 "(1,2,3) ( 0x10 , 020 , 30 ) }") = Ok tt w''
    /\ yyin w'' = ""
    /\ png_calls w''
       = [png_set_PLTE [Build_png_color 1 2 3; Build_png_color 16 16 30] 2]
    /\ palette (info_ptr w'') = [Build_png_color 1 2 3; Build_png_color 16 16 30]
    /\ num_palette (info_ptr w'') = 2
    /\ Forall (fun c => 0 <= red c <= 255 /\ 0 <= green c <= 255
                        /\ 0 <= blue c <= 255)
         [Build_png_color 1 2 3; Build_png_color 16 16 30].
Proof.
  apply (palette_entries (world0 "(1,2,3) ( 0x10 , 020 , 30 ) }")
           (with_token "}" (world0 ""))
           [("1", "2", "3"); ("0x10", "020", "30")]).
  - reflexivity.
  - simpl. lia.
  - reflexivity.
  - simpl. run_reads.
Defined.

(** ** The items of a header *)

(** What an IHDR specification is made of: a key with its value, or a
    single word. *)
Inductive header_item :=
| item_height (t : string)
| item_width (t : string)
| item_bitdepth (t : string)
| item_using
| item_palette
| item_color
| item_alpha
| item_with
| item_interlace.

Definition item_tokens (it : header_item) : list string :=
  match it with
  | item_height t => ["height"; t]
  | item_width t => ["width"; t]
  | item_bitdepth t => ["bitdepth"; t]
  | item_using => ["using"]
  | item_palette => ["palette"]
  | item_color => ["color"]
  | item_alpha => ["alpha"]
  | item_with => ["with"]
  | item_interlace => ["interlace"]
  end.

(** A token that [long_numeric] accepts: [strtoul] reads all of it and
    the value is not 2^31-1. *)
Definition long_token (t : string) : bool :=
  negb (nonempty (snd (strtoul t))) && negb (fst (strtoul t) =? 2147483647).

Definition item_ok (it : header_item) : bool :=
  match it with
  | item_height t | item_width t => long_token t
  | item_bitdepth t => byte_token t
  | _ => true
  end.

(** What an item does to the image description. *)
Definition apply_item (i : png_info) (it : header_item) : png_info :=
  match it with
  | item_height t => set_height (u32 (fst (strtoul t))) i
  | item_width t => set_width (u32 (fst (strtoul t))) i
  | item_bitdepth t => set_bit_depth (byte_of t) i
  | item_using | item_with => i
  | item_palette => set_color_type (Z.lor (color_type i) PNG_COLOR_MASK_PALETTE) i
  | item_color => set_color_type (Z.lor (color_type i) PNG_COLOR_MASK_COLOR) i
  | item_alpha => set_color_type (Z.lor (color_type i) PNG_COLOR_MASK_ALPHA) i
  | item_interlace => set_interlace_type PNG_INTERLACE_ADAM7 i
  end.

(** The image description at the start of [compile_IHDR]. *)
Definition header_defaults (i : png_info) : png_info :=
  set_interlace_type PNG_INTERLACE_NONE (set_color_type 0 (set_bit_depth 8 i)).

Section Items.

Context {P : Platform}.
Local Open Scope sng_scope.

Lemma long_numeric_token i w :
  long_token (token_buffer w) = true ->
  long_numeric true (with_info i w)
  = Ok (u32 (fst (strtoul (token_buffer w)))) (with_info i w).
Proof.
  unfold long_token, long_numeric, bind. cbn [negb get with_info token_buffer].
  destruct (strtoul (token_buffer w)) as [v rest]. cbn [fst snd].
  intros H. apply andb_prop in H as [H1 H2].
  apply negb_true_iff in H1, H2. rewrite H1, H2. reflexivity.
Qed.

Lemma byte_numeric_token i w :
  byte_token (token_buffer w) = true ->
  byte_numeric true (with_info i w) = Ok (byte_of (token_buffer w)) (with_info i w).
Proof. intros H. apply (byte_numeric_ok (with_info i w)). exact H. Qed.

Lemma get_token_info i w w1 :
  get_token w = Ok true w1 -> get_token (with_info i w) = Ok true (with_info i w1).
Proof. intros H. rewrite get_token_with_info, H. reflexivity. Qed.

(** The loop of [compile_IHDR] on well-formed items. *)
Lemma IHDR_items items : forall fuel i w w',
  (length items < fuel)%nat ->
  forallb item_ok items = true ->
  reads w (concat (map item_tokens items) ++ ["}"]) w' ->
  IHDR_loop fuel (with_info i w) = Ok tt (with_info (fold_left apply_item items i) w').
Proof.
  induction items as [|it items IH]; intros fuel i w w' Hf Hok Hr.
  - destruct fuel as [|fuel]; [simpl in Hf; lia|].
    simpl in Hr. inversion Hr as [|? w1 ? ? ? Hg Ht Hr']; subst.
    inversion Hr'; subst.
    cbn [IHDR_loop]. unfold bind.
    rewrite (inner_with_info _ _ _ Hg), Ht. reflexivity.
  - destruct fuel as [|fuel]; [simpl in Hf; lia|].
    cbn [forallb] in Hok. apply andb_prop in Hok as [Hit Hok].
    cbn [length] in Hf. cbn [fold_left].
    cbn [IHDR_loop].
    destruct it; cbn [map concat item_tokens app] in Hr;
      inversion Hr as [|? w1 ? ? ? G1 T1 R1]; subst;
      unfold bind at 1; rewrite (inner_with_info _ _ _ G1), T1;
      cbn [String.eqb Ascii.eqb Bool.eqb negb];
      unfold bind at 1; cbn [get with_info token_buffer]; rewrite T1;
      cbn [String.eqb Ascii.eqb Bool.eqb].
    + inversion R1 as [|? w2 ? ? ? G2 T2 R2]; subst.
      unfold bind at 1. rewrite (get_token_info _ _ _ G2).
      unfold bind at 1. rewrite long_numeric_token by exact Hit.
      unfold bind at 1. rewrite info_with_info.
      apply IH; auto; lia.
    + inversion R1 as [|? w2 ? ? ? G2 T2 R2]; subst.
      unfold bind at 1. rewrite (get_token_info _ _ _ G2).
      unfold bind at 1. rewrite long_numeric_token by exact Hit.
      unfold bind at 1. rewrite info_with_info.
      apply IH; auto; lia.
    + inversion R1 as [|? w2 ? ? ? G2 T2 R2]; subst.
      unfold bind at 1. rewrite (get_token_info _ _ _ G2).
      unfold bind at 1. rewrite byte_numeric_token by exact Hit.
      unfold bind at 1. rewrite info_with_info.
      apply IH; auto; lia.
    + apply IH; auto; lia.
    + unfold bind at 1. rewrite info_with_info. apply IH; auto; lia.
    + unfold bind at 1. rewrite info_with_info. apply IH; auto; lia.
    + unfold bind at 1. rewrite info_with_info. apply IH; auto; lia.
    + apply IH; auto; lia.
    + unfold bind at 1. rewrite info_with_info. apply IH; auto; lia.
Qed.

(** X29.  What a well-formed IHDR specification means.  Its items are
    applied in order to an image description that starts with bit depth
    8, colour type 0 and no interlacing: a later height, width or bit
    depth replaces an earlier one, each of the words palette, color and
    alpha sets its bit of the colour type, using and with change nothing.
    The header is then refused when the height, or else the width, is
    zero, which it is when the key is missing. *)
Theorem header_items w w' items :
  pushed w = false ->
  forallb item_ok items = true ->
  reads w (concat (map item_tokens items) ++ ["}"]) w' ->
  compile_IHDR w
  = let i := fold_left apply_item items (header_defaults (info_ptr w)) in
    if height i =? 0
    then Fatal (linenum w') "image height is zero or nonexistent"
    else if width i =? 0
         then Fatal (linenum w') "image width is zero or nonexistent"
         else Ok tt (with_info i w').
Proof.
  intros Hp Hok Hr.
  pose proof (reads_length _ _ _ Hr Hp) as Hlen.
  rewrite length_app in Hlen. cbn [length] in Hlen.
  assert (Hc : (length items <= length (concat (map item_tokens items)))%nat).
  { clear. induction items as [|[] items IH]; simpl; lia. }
  change (compile_IHDR w)
    with (bind (IHDR_loop (fuel_of w))
            (fun _ =>
               bind (get info_ptr)
                 (fun i =>
                    if height i =? 0 then fatal "image height is zero or nonexistent"
                    else if width i =? 0
                         then fatal "image width is zero or nonexistent"
                         else ret tt))
            (with_info (header_defaults (info_ptr w)) w)).
  unfold bind at 1.
  rewrite (IHDR_items items (fuel_of w) (header_defaults (info_ptr w)) w w');
    [|unfold fuel_of; lia|assumption|assumption].
  unfold bind at 1. cbn [get with_info info_ptr linenum].
  cbv zeta. destruct (height _ =? 0); [reflexivity|].
  destruct (width _ =? 0); reflexivity.
Qed.

End Items.

Lemma header_items_witness :
  compile_IHDR
    (world0 "height 2 width 0x10 bitdepth 4 using palette color height 3 interlace }")
  = Ok tt
      (with_info
         (set_interlace_type 1
            (set_color_type 3
               (set_bit_depth 4 (set_height 3 (set_width 16 info0)))))
         (with_token "}" (world0 "")))
  /\ compile_IHDR (world0 "width 4 using color }")
     = Fatal 0 "image height is zero or nonexistent".
Proof.
  split.
  - rewrite (header_items
               (world0 "height 2 width 0x10 bitdepth 4 using palette color height 3 interlace }")
               (with_token "}" (world0 ""))
               [item_height "2"; item_width "0x10"; item_bitdepth "4"; item_using;
                item_palette; item_color; item_height "3"; item_interlace]).
    + reflexivity.
    + reflexivity.
    + reflexivity.
    + simpl. run_reads.
  - rewrite (header_items
               (world0 "width 4 using color }")
               (with_token "}" (world0 ""))
               [item_width "4"; item_using; item_color]).
    + reflexivity.
    + reflexivity.
    + reflexivity.
    + simpl. run_reads.
Defined.

(** ** The chunks of a single value *)

Section SingleValue.

Context {P : Platform}.
Local Open Scope sng_scope.

(** A token that [double_numeric] accepts: [strtod] reads all of it and
    the value is not negative. *)
Definition gamma_token (t : string) : bool :=
  negb (nonempty (snd (strtod t))) && negb (double_negative (fst (strtod t))).

Lemma get_token_with_call c w :
  get_token (with_call c w)
  = match get_token w with
    | Ok b w1 => Ok b (with_call c w1)
    | Fatal line msg => Fatal line msg
    | Undefined what => Undefined what
    | OutOfFuel => OutOfFuel
    end.
Proof.
  unfold get_token. cbn [with_call pushed yyin linenum].
  destruct (pushed w); [reflexivity|].
  destruct (skip_blanks false (yyin w) (linenum w)) as [[[a r]|] line];
    [|reflexivity].
  destruct (if _ || _ then _ else _); try reflexivity.
  destruct (81 <=? String.length tok)%nat; reflexivity.
Qed.

Lemma double_numeric_gamma w :
  gamma_token (token_buffer w) = true ->
  double_numeric true w = Ok (fst (strtod (token_buffer w))) w.
Proof.
  unfold gamma_token, double_numeric, bind. cbn [negb get].
  destruct (strtod (token_buffer w)) as [v rest]. cbn [fst snd].
  intros H. apply andb_prop in H as [H1 H2].
  apply negb_true_iff in H1, H2. rewrite H1, H2. reflexivity.
Qed.

(** X30.  The bodies of sRGB and gAMA, once the ordering checks have
    passed: one value, a byte for sRGB and a number that is not negative
    for gAMA, is handed to libpng, and the token after it must be the
    closing brace; any other token there, or the end of the input, is the
    fatal error "bad token in ... specification".  The rendering intent
    is not checked beyond being a byte. *)
Theorem single_value_chunks prev w w1 b w2 :
  cnt PLTE w = 0 -> cnt IDAT w = 0 ->
  get_token w = Ok true w1 -> get_token w1 = Ok b w2 ->
  (byte_token (token_buffer w1) = true ->
   chunk_switch sRGB prev w
   = if b && String.eqb "}" (token_buffer w2)
     then Ok tt (with_call (png_set_sRGB_gAMA_and_cHRM (byte_of (token_buffer w1))) w2)
     else Fatal (linenum w2) "bad token in sRGB specification")
  /\ (gamma_token (token_buffer w1) = true ->
      chunk_switch gAMA prev w
      = if b && String.eqb "}" (token_buffer w2)
        then Ok tt (with_call (png_set_gAMA (fst (strtod (token_buffer w1)))) w2)
        else Fatal (linenum w2) "bad token in gAMA specification").
Proof.
  intros Hp Hi Hg1 Hg2. split; intros Ht.
  - change (chunk_switch sRGB prev w)
      with (bind (die_if (nonzero (cnt PLTE w) || nonzero (cnt IDAT w))
                    "sRGB chunk must come before PLTE and IDAT")
              (fun _ =>
                 ok <- get_token ;; v <- byte_numeric ok ;;
                 call (png_set_sRGB_gAMA_and_cHRM v) ;;
                 ok <- get_token ;; e <- token_equals "}" ;;
                 die_if (negb ok || negb e) "bad token in sRGB specification") w).
    rewrite Hp, Hi. cbn [nonzero Z.eqb negb orb die_if].
    unfold bind at 1. cbn [ret].
    unfold bind at 1. rewrite Hg1.
    unfold bind at 1. rewrite byte_numeric_ok by exact Ht.
    unfold bind at 1. cbn [call modify].
    unfold bind at 1. rewrite get_token_with_call, Hg2.
    unfold bind at 1, token_equals. cbn [get with_call token_buffer].
    destruct b, (String.eqb "}" (token_buffer w2)); reflexivity.
  - change (chunk_switch gAMA prev w)
      with (bind (die_if (nonzero (cnt PLTE w) || nonzero (cnt IDAT w))
                    "gAMA chunk must come before PLTE and IDAT")
              (fun _ =>
                 ok <- get_token ;; g <- double_numeric ok ;;
                 call (png_set_gAMA g) ;;
                 ok <- get_token ;; e <- token_equals "}" ;;
                 die_if (negb ok || negb e) "bad token in gAMA specification") w).
    rewrite Hp, Hi. cbn [nonzero Z.eqb negb orb die_if].
    unfold bind at 1. cbn [ret].
    unfold bind at 1. rewrite Hg1.
    unfold bind at 1. rewrite double_numeric_gamma by exact Ht.
    unfold bind at 1. cbn [call modify].
    unfold bind at 1. rewrite get_token_with_call, Hg2.
    unfold bind at 1, token_equals. cbn [get with_call token_buffer].
    destruct b, (String.eqb "}" (token_buffer w2)); reflexivity.
Qed.

End SingleValue.

Lemma single_value_chunks_witness :
  @chunk_switch example_platform sRGB 0 (world0 "255 }")
  = Ok tt (with_call (png_set_sRGB_gAMA_and_cHRM 255) (with_token "}" (world0 "")))
  /\ @chunk_switch example_platform gAMA 0 (world0 "1 2 }")
     = Fatal 0 "bad token in gAMA specification".
Proof.
  split.
  - edestruct (@single_value_chunks example_platform 0 (world0 "255 }")
                 (with_token "255" (world0 "}")) true (with_token "}" (world0 "")))
      as [H _]; [reflexivity|reflexivity|reflexivity|reflexivity|].
    apply H. reflexivity.
  - edestruct (@single_value_chunks example_platform 0 (world0 "1 2 }")
                 (with_token "1" (world0 "2 }")) true (with_token "2" (world0 "}")))
      as [_ H]; [reflexivity|reflexivity|reflexivity|reflexivity|].
    apply H. reflexivity.
Defined.
